(** * FAC metric collector: a judge-based correctness evaluator

    A shallow embedding of
    [src/evaluator/metric_collectors/fac_metric_collector.py] together with
    the fragment of the Python string and container operations the collector
    relies on, followed by the properties of the collector.

    Conventions.
    - A Python [str] is the list of its Unicode code points ([pystr]).
    - A value decoded from JSON, or any value whose dynamic type the code
      inspects, is a [pyval].
    - Code that logs, talks to the network or mutates [self] lives in the
      monad [M]: a state transformer over the collector and the outside
      world that either returns a value or raises an exception.  State
      changes made before an exception is raised are kept, as in Python.
    - A Python [float] is a binary64 number, the [spec_float] of the
      Standard Library with precision 53 and maximal exponent 1024.
    - Functions imported from modules that are not part of the collector
      ([log], [log_verbose], [extract_final_answer_from_response],
      [strip_think], [requests.post], [os.getenv], the base class) are
      fields of the class [Externals]; they may return or raise. *)

From Stdlib Require Import String Ascii DecimalString.
From Stdlib Require Import List NArith ZArith QArith Qabs Bool Lia SpecFloat.
From Stdlib Require Import Permutation.
Import ListNotations.

Set Implicit Arguments.

(* ================================================================= *)
(** * Python strings *)

Definition pystr := list N.

(** Decoding of the UTF-8 bytes of a source literal into code points. *)
Fixpoint utf8_go (acc : N) (need : nat) (bs : list N) : pystr :=
  match bs with
  | [] => []
  | b :: r =>
      match need with
      | O =>
          if (b <? 128)%N then b :: utf8_go 0 0 r
          else if (b <? 224)%N then utf8_go (b mod 32) 1 r
          else if (b <? 240)%N then utf8_go (b mod 16) 2 r
          else utf8_go (b mod 8) 3 r
      | S O => (acc * 64 + b mod 64)%N :: utf8_go 0 0 r
      | S n => utf8_go (acc * 64 + b mod 64)%N n r
      end
  end.

(** [str "..."] is the Python string written by the literal. *)
Definition str (s : string) : pystr :=
  utf8_go 0 0 (map N_of_ascii (list_ascii_of_string s)).

Definition dq : pystr := [34%N].
Definition tab : pystr := [9%N].
Definition nl : pystr := [10%N].

Fixpoint pystr_eqb (a b : pystr) : bool :=
  match a, b with
  | [], [] => true
  | x :: a', y :: b' => (x =? y)%N && pystr_eqb a' b'
  | _, _ => false
  end.

(** [s.startswith(p)]. *)
Fixpoint startswith (p s : pystr) : bool :=
  match p, s with
  | [], _ => true
  | _ :: _, [] => false
  | x :: p', y :: s' => (x =? y)%N && startswith p' s'
  end.

(** [sub in s] for two strings. *)
Fixpoint contains (sub s : pystr) : bool :=
  startswith sub s ||
  match s with
  | [] => false
  | _ :: s' => contains sub s'
  end.

(** [s.rfind(sub)]: the highest index at which [sub] starts, or [-1]. *)
Fixpoint rfind (sub s : pystr) : Z :=
  match s with
  | [] => if startswith sub [] then 0 else -1
  | _ :: s' =>
      let r := rfind sub s' in
      if (0 <=? r)%Z then (r + 1)%Z
      else if startswith sub s then 0%Z else (-1)%Z
  end.

(** [s[i:]], with Python's treatment of negative and large indices. *)
Definition slice_from {A : Type} (s : list A) (i : Z) : list A :=
  let len := Z.of_nat (List.length s) in
  let start := if (i <? 0)%Z then Z.max (len + i) 0 else Z.min i len in
  skipn (Z.to_nat start) s.

(** [s[:n]] for a non-negative literal [n]. *)
Definition slice_to {A : Type} (s : list A) (n : nat) : list A := firstn n s.

(** [c * n] for a one-character string. *)
Definition repeat_str (c : pystr) (n : nat) : pystr := concat (repeat c n).

(** [Py_UNICODE_ISSPACE]: the code points [str.strip()] removes. *)
Definition isspace (c : N) : bool :=
  ((9 <=? c) && (c <=? 13) || (28 <=? c) && (c <=? 32)
   || (c =? 133) || (c =? 160) || (c =? 5760)
   || (8192 <=? c) && (c <=? 8202)
   || (c =? 8232) || (c =? 8233) || (c =? 8239) || (c =? 8287)
   || (c =? 12288))%N.

Fixpoint lstrip (s : pystr) : pystr :=
  match s with
  | [] => []
  | c :: s' => if isspace c then lstrip s' else s
  end.

Definition rstrip (s : pystr) : pystr := rev (lstrip (rev s)).

(** [s.strip()]. *)
Definition strip (s : pystr) : pystr := rstrip (lstrip s).

(** Lower-casing of an ASCII code point. *)
Definition ascii_lower (c : N) : N :=
  if ((65 <=? c) && (c <=? 90))%N then (c + 32)%N else c.

(** The parts of the Unicode character database the string methods consult
    for code points outside ASCII.  [unicode_lower s i] is the lower-case
    expansion of the code point at index [i] of [s] (the whole string is
    passed because the rule for the final sigma looks at the context);
    [unicode_printable c] is [Py_UNICODE_ISPRINTABLE]. *)
Class Unicode := {
  unicode_lower : pystr -> nat -> pystr;
  unicode_printable : N -> bool
}.

Section StringMethods.
Context {U : Unicode}.

Fixpoint lower_from (s : pystr) (i : nat) (rest : pystr) : pystr :=
  match rest with
  | [] => []
  | c :: r =>
      (if (c <? 128)%N then [ascii_lower c] else unicode_lower s i)
        ++ lower_from s (S i) r
  end.

(** [s.lower()]. *)
Definition lower (s : pystr) : pystr := lower_from s 0 s.

Definition hexdigit (d : N) : N :=
  if (d <? 10)%N then (48 + d)%N else (87 + d)%N.

(** [n] lower-case hexadecimal digits of [c], most significant first. *)
Fixpoint hex_digits (n : nat) (c : N) : pystr :=
  match n with
  | O => []
  | S n' => hex_digits n' (c / 16) ++ [hexdigit (c mod 16)]
  end.

(** One character of [repr] of a string delimited by [quote]. *)
Definition repr_char (quote c : N) : pystr :=
  if ((c =? quote) || (c =? 92))%N then [92; c]%N
  else if (c =? 9)%N then [92; 116]%N
  else if (c =? 10)%N then [92; 110]%N
  else if (c =? 13)%N then [92; 114]%N
  else if ((c <? 32) || (c =? 127))%N then [92; 120]%N ++ hex_digits 2 c
  else if (c <? 127)%N then [c]
  else if unicode_printable c then [c]
  else if (c <=? 255)%N then [92; 120]%N ++ hex_digits 2 c
  else if (c <=? 65535)%N then [92; 117]%N ++ hex_digits 4 c
  else [92; 85]%N ++ hex_digits 8 c.

Definition has_char (c : N) (s : pystr) : bool :=
  existsb (N.eqb c) s.

(** [repr(s)] for a string: single quotes unless the string has a single
    quote and no double quote. *)
Definition repr_str (s : pystr) : pystr :=
  let quote := if has_char 39 s && negb (has_char 34 s) then 34%N else 39%N in
  [quote] ++ flat_map (repr_char quote) s ++ [quote].
End StringMethods.

(** Decimal rendering of an integer, as [str(n)] prints it. *)
Definition decimal (z : Z) : pystr :=
  map N_of_ascii (list_ascii_of_string (NilZero.string_of_int (Z.to_int z))).

Fixpoint join (sep : pystr) (parts : list pystr) : pystr :=
  match parts with
  | [] => []
  | [p] => p
  | p :: ps => p ++ sep ++ join sep ps
  end.

(* ================================================================= *)
(** * Python values and exceptions *)

(** Values as [json.loads] builds them.  A float is carried as the text
    [repr] prints for it, the only thing this program observes of a float
    that comes from the judge.  The keys of a dictionary are strings, in
    insertion order. *)
#[local] Unset Elimination Schemes.
Inductive pyval :=
| PNone
| PBool (b : bool)
| PInt (z : Z)
| PFloat (r : pystr)
| PStr (s : pystr)
| PList (l : list pyval)
| PDict (d : list (pystr * pyval)).
#[local] Set Elimination Schemes.

(** An instance of a subclass of [Exception]: the name of its class and the
    text [str(e)] yields. *)
Record exn := { exn_type : string; exn_str : pystr }.

Inductive Res (A : Type) :=
| Ok (a : A)
| Raise (e : exn).
Arguments Ok {A} a.
Arguments Raise {A} e.

Definition type_name (v : pyval) : pystr :=
  match v with
  | PNone => str "NoneType"
  | PBool _ => str "bool"
  | PInt _ => str "int"
  | PFloat _ => str "float"
  | PStr _ => str "str"
  | PList _ => str "list"
  | PDict _ => str "dict"
  end.

Definition TypeError (msg : pystr) : exn :=
  {| exn_type := "TypeError"; exn_str := msg |}.
Definition AttributeError (v : pyval) (attr : string) : exn :=
  {| exn_type := "AttributeError";
     exn_str := str "'" ++ type_name v ++ str "' object has no attribute '"
                ++ str attr ++ str "'" |}.
Definition ValueError (msg : pystr) : exn :=
  {| exn_type := "ValueError"; exn_str := msg |}.
Definition IndexError (msg : pystr) : exn :=
  {| exn_type := "IndexError"; exn_str := msg |}.

Fixpoint dict_get (d : list (pystr * pyval)) (k : pystr) : option pyval :=
  match d with
  | [] => None
  | (k', v) :: d' => if pystr_eqb k' k then Some v else dict_get d' k
  end.

Definition dict_has (d : list (pystr * pyval)) (k : pystr) : bool :=
  existsb (fun kv => pystr_eqb (fst kv) k) d.

(** [s == v] for a string [s]. *)
Definition str_eq_val (s : pystr) (v : pyval) : bool :=
  match v with
  | PStr t => pystr_eqb s t
  | _ => false
  end.

(** [key in v] for a string [key]: key membership in a dictionary, element
    membership in a list, substring test in a string; the other types are
    not containers. *)
Definition py_contains (key : pystr) (v : pyval) : Res bool :=
  match v with
  | PDict d => Ok (dict_has d key)
  | PList l => Ok (existsb (str_eq_val key) l)
  | PStr s => Ok (contains key s)
  | _ => Raise (TypeError (str "argument of type '" ++ type_name v
                           ++ str "' is not iterable"))
  end.

(** [v.rfind(sub)]. *)
Definition py_rfind (v : pyval) (sub : pystr) : Res Z :=
  match v with
  | PStr s => Ok (rfind sub s)
  | _ => Raise (AttributeError v "rfind")
  end.

Definition ZeroDivisionError : exn :=
  {| exn_type := "ZeroDivisionError"; exn_str := str "division by zero" |}.
Definition OverflowError (msg : pystr) : exn :=
  {| exn_type := "OverflowError"; exn_str := msg |}.

(** A Python [float] is a binary64 number, [spec_float] with precision 53
    and maximal exponent 1024.  An integer enters a division as the exact
    operand it is: mantissa [|z|], exponent 0, whatever its size. *)
Definition int_operand (z : Z) : spec_float :=
  match z with
  | Z0 => S754_zero false
  | Zpos p => S754_finite false p 0
  | Zneg p => S754_finite true p 0
  end.

(** The binary64 number nearest to the exact quotient of two integers,
    ties to even.  [SFdiv] divides the two mantissas exactly and rounds
    once, so no operand is rounded beforehand. *)
Definition b64_truediv (a b : Z) : spec_float :=
  SFdiv 53 1024 (int_operand a) (int_operand b).

(** [a / b] for two integers: the rounded quotient.  A zero divisor raises
    [ZeroDivisionError], a quotient beyond the largest float raises
    [OverflowError], and a quotient too small for a float is [0.0]. *)
Definition py_truediv (a b : Z) : Res spec_float :=
  if (b =? 0)%Z then Raise ZeroDivisionError
  else
    match b64_truediv a b with
    | S754_infinity _ =>
        Raise (OverflowError
                 (str "integer division result too large for a float"))
    | x => Ok x
    end.

(** [v[:n]] for a non-negative literal [n]. *)
Definition py_slice_to (v : pyval) (n : nat) : Res pyval :=
  match v with
  | PStr s => Ok (PStr (slice_to s n))
  | PList l => Ok (PList (slice_to l n))
  | PDict _ => Raise (TypeError (str "unhashable type: 'slice'"))
  | _ => Raise (TypeError (str "'" ++ type_name v
                           ++ str "' object is not subscriptable"))
  end.

(** [v[i:]]. *)
Definition py_slice_from (v : pyval) (i : Z) : Res pyval :=
  match v with
  | PStr s => Ok (PStr (slice_from s i))
  | PList l => Ok (PList (slice_from l i))
  | PDict _ => Raise (TypeError (str "unhashable type: 'slice'"))
  | _ => Raise (TypeError (str "'" ++ type_name v
                           ++ str "' object is not subscriptable"))
  end.

Section Values.
Context {U : Unicode}.

(** [repr(v)]. *)
Fixpoint py_repr (v : pyval) : pystr :=
  match v with
  | PNone => str "None"
  | PBool b => if b then str "True" else str "False"
  | PInt z => decimal z
  | PFloat r => r
  | PStr s => repr_str s
  | PList l => str "[" ++ join (str ", ") (map py_repr l) ++ str "]"
  | PDict d =>
      str "{"
      ++ join (str ", ")
           (map (fun kv : pystr * pyval => let (k, x) := kv in
                           repr_str k ++ str ": " ++ py_repr x) d)
      ++ str "}"
  end.

(** [str(v)]. *)
Definition py_str (v : pyval) : pystr :=
  match v with
  | PStr s => s
  | _ => py_repr v
  end.

Definition KeyError (key : pystr) : exn :=
  {| exn_type := "KeyError"; exn_str := repr_str key |}.

(** [v[key]] for a string [key]. *)
Definition py_getitem (v : pyval) (key : pystr) : Res pyval :=
  match v with
  | PDict d =>
      match dict_get d key with
      | Some x => Ok x
      | None => Raise (KeyError key)
      end
  | PList _ =>
      Raise (TypeError (str "list indices must be integers or slices, not str"))
  | PStr _ =>
      Raise (TypeError (str "string indices must be integers, not 'str'"))
  | _ => Raise (TypeError (str "'" ++ type_name v
                           ++ str "' object is not subscriptable"))
  end.

(** [v.lower()]. *)
Definition py_lower (v : pyval) : Res pystr :=
  match v with
  | PStr s => Ok (lower s)
  | _ => Raise (AttributeError v "lower")
  end.
End Values.

(* ================================================================= *)
(** * [str.format] with keyword arguments

    The scanner follows CPython's [MarkupIterator]: literal text is copied,
    a doubled brace stands for one brace, a lone closing brace is an error,
    and an opening brace starts a replacement field that runs to the next
    closing brace.  Fields are rendered while scanning, so the leftmost
    error is the one raised.

    Modelled fragment: field names made of ASCII code points, with no
    conversion ([!]), no format specification ([:]), no attribute ([.]) and
    no index ([[]).  A field outside the fragment stops the model with
    [Unmodelled]; the judge template has no such field.  No positional
    arguments are passed, so an empty or numeric field name raises
    [IndexError] (a 64-bit [Py_ssize_t] is assumed for the digit overflow
    check). *)

Definition Unmodelled : exn :=
  {| exn_type := "Unmodelled"; exn_str := str "outside the modelled fragment" |}.

Definition res_map {A B : Type} (f : A -> B) (r : Res A) : Res B :=
  match r with
  | Ok a => Ok (f a)
  | Raise e => Raise e
  end.

Definition is_ascii_digit (c : N) : bool := ((48 <=? c) && (c <=? 57))%N.

Definition digits_value (s : pystr) : Z :=
  fold_left (fun acc c => (acc * 10 + (Z.of_N c - 48))%Z) s 0%Z.

Inductive fmt_mode :=
| InLiteral
| InField (name_rev : pystr).

Section Format.
Context {U : Unicode}.

Definition lookup_field (kwargs : list (pystr * pyval)) (name : pystr)
  : Res pystr :=
  if negb (forallb (fun c => (c <? 128)%N) name) then Raise Unmodelled
  else
    match name with
    | [] =>
        Raise (IndexError
                 (str "Replacement index 0 out of range for positional args tuple"))
    | _ :: _ =>
        if forallb is_ascii_digit name then
          let i := digits_value name in
          if (i >? 2 ^ 63 - 1)%Z then
            Raise (ValueError (str "Too many decimal digits in format string"))
          else
            Raise (IndexError
                     (str "Replacement index " ++ decimal i
                      ++ str " out of range for positional args tuple"))
        else
          match dict_get kwargs name with
          | Some v => Ok (py_str v)
          | None => Raise (KeyError name)
          end
    end.

Fixpoint format_go (kwargs : list (pystr * pyval)) (mode : fmt_mode)
  (tpl : pystr) : Res pystr :=
  match mode, tpl with
  | InLiteral, [] => Ok []
  | InLiteral, c :: rest =>
      if (c =? 123)%N then
        match rest with
        | [] => Raise (ValueError (str "Single '{' encountered in format string"))
        | c' :: rest' =>
            if (c' =? 123)%N
            then res_map (cons c) (format_go kwargs InLiteral rest')
            else format_go kwargs (InField []) rest
        end
      else if (c =? 125)%N then
        match rest with
        | [] => Raise (ValueError (str "Single '}' encountered in format string"))
        | c' :: rest' =>
            if (c' =? 125)%N
            then res_map (cons c) (format_go kwargs InLiteral rest')
            else Raise (ValueError (str "Single '}' encountered in format string"))
        end
      else res_map (cons c) (format_go kwargs InLiteral rest)
  | InField _, [] =>
      Raise (ValueError (str "expected '}' before end of string"))
  | InField name_rev, c :: rest =>
      if (c =? 125)%N then
        match lookup_field kwargs (rev name_rev) with
        | Ok v => res_map (app v) (format_go kwargs InLiteral rest)
        | Raise e => Raise e
        end
      else if (c =? 123)%N then
        Raise (ValueError (str "unexpected '{' in field name"))
      else if ((c =? 33) || (c =? 58) || (c =? 46) || (c =? 91))%N then
        Raise Unmodelled
      else format_go kwargs (InField (c :: name_rev)) rest
  end.

(** [tpl.format] applied to the keyword arguments [kwargs]. *)
Definition py_format (tpl : pystr) (kwargs : list (pystr * pyval)) : Res pystr :=
  format_go kwargs InLiteral tpl.
End Format.

(* ================================================================= *)
(** * The judge prompt *)

Definition FAC_JUDGE_PROMPT : pystr :=
  join nl [
    [];
    str "Given a query and an answer provided by an AI agent, you now need to determine the answer_status of whether the well solved the query, i.e. whether the need of the query is satisfied. You need to output " ++ dq ++ str "Unsolved" ++ dq ++ str " or " ++ dq ++ str "Solved" ++ dq ++ str " and your reason. You must obey the following rules:";
    [];
    str "You should response " ++ dq ++ str "Solved" ++ dq ++ str " when:";
    str "    1. If the answer well provides the information needed by the query, then it is " ++ dq ++ str "Solved" ++ dq ++ str ". The answer does not need to be perfect, and it only needs to make a genuine attempt to address the query.";
    tab ++ str "2." ++ tab ++ str "Consider only Completeness:";
    tab ++ str "    •" ++ tab ++ str "The answer attempts to address every part of the query, regardless of whether the information provided is factually correct or accurate, unless there is a severe factual error.";
    tab ++ str "3." ++ tab ++ str "For Multi-part Queries:";
    tab ++ str "    •" ++ tab ++ str "For queries with multiple parts, all parts must be addressed for the answer to be considered “Solved”.";
    tab ++ str "4." ++ tab ++ str "Genuine Attempt :";
    tab ++ str "    •" ++ tab ++ str "The answer makes a genuine attempt to provide the requested information or perform the requested task for all parts of the query. This includes scenarios where the answer concludes that “nothing” is a reasonable response (e.g., when the requested information does not exist or is not available, or a possible answer of the query is nothing and the model answers nothing after reasonable attempts).";
    [];
    str "You should response " ++ dq ++ str "Unsolved" ++ dq ++ str " when:";
    str "    1." ++ tab ++ str "Refusal, Apology, or Non-engagement:";
    tab ++ str "    •" ++ tab ++ str "The answer includes a refusal or apology (e.g., “I'm sorry, I can't help with that”).";
    tab ++ str "    •" ++ tab ++ str "The answer does not directly engage with or address the query in any way.";
    tab ++ str "2." ++ tab ++ str "Multi-part Queries:";
    tab ++ str "    •" ++ tab ++ str "If the query has multiple parts and at least one part is not well addressed.";
    str "    3. Severe Factual Error:";
    str "        •   If the answer contains a severe factual error that significantly impacts the usefulness of the information provided.";
    [];
    [];
    str "Additional Guidelines:";
    str "    1. VERY IMPORTANT: DO NOT BE TOO HARSH. The model does not need to be perfect, and the answer does not need to be flawless. It only needs to make a genuine attempt to address the query.";
    str "    1. DO NOT evaluate factual accuracy or correctness of the information provided based on your knowledge. Assume that the information provided is accurate and focus solely on whether the answer attempts to address all parts of the query, unless there is a severe factual error that conficts common knowledge.";
    tab ++ str "2." ++ tab ++ str "Focus on Final Answer: Only the final answer is provided and should be considered, disregarding any processes that were used to generate the answer. You only need to judge whether the information need is satisfied.";
    tab ++ str "3." ++ tab ++ str "Answer Completion: The agent does not need to detail how it arrived at the answer, only that the answer itself is complete and attempts to address the query.";
    [];
    str "Here are some examples:";
    [];
    str "Query 1: I'm planning a movie night with my friends and we want to watch a horror film. Can you recommend some popular horror movies available on streaming platforms in the US? Also, provide the runtime and IMDb ratings for these movies.";
    str "Answer 1: Here are some popular horror movies available on streaming platforms in the US:";
    [];
    str "1. Knives Out";
    str "   - Runtime: 130 minutes";
    str "   - IMDb Rating: 7.9/10";
    str "   - Available on: Netflix, Prime Video, Hulu, Amazon Prime Video";
    [];
    str "2. Jumanji: The Next Level";
    str "   - Runtime: 110 minutes";
    str "   - IMDb Rating: 6.7/10";
    str "   - Available on: Hulu, Amazon Prime Video, Netflix";
    [];
    str "Please note that availability may vary depending on your location and streaming platform subscriptions. Enjoy your movie night!";
    str "Answer Status: Solved";
    str "Reason: The answer addressed all parts of subqueries by providing a list of popular horror movies available on streaming platforms in the US, along with their runtime and IMDb ratings. Whether the film is horror is a factual matter that does not to be checked.";
    [];
    str "Query 2: I'm a screenwriter looking for inspiration for my next project. Can you help me find a list of critically acclaimed movies available on streaming platforms in the US? Also, provide me with the streaming sources for the movie 'Citizen Kane' and the basic information about the cast, including their names and professions.";
    str "Answer 2: The movie 'Citizen Kane' is available on the following streaming platforms:";
    str "- HBO Max: [Watch on HBO Max](https://play.hbomax.com/feature/urn:hbo:feature:GXduU_gwwz-NvjAEAAAAC)";
    str "- Amazon Prime Video: [Watch on Amazon Prime Video](https://www.amazon.com/Citizen-Kane-Orson-Welles/dp/B000I9YLWG)";
    str "- AppleTV+: [Watch on AppleTV+](https://tv.apple.com/us/movie/citizen-kane/umc.cmc.21zj0v11gnqbbqrebieh0vpk7)";
    str "- Disney+: Available on Disney+";
    str "- Netflix: Available on Netflix";
    str "Answer Status: Unsolved";
    str "Reason: The answer only addressed the first and second part of the query by providing the streaming sources for the movie 'Citizen Kane' but did not provide information about the cast or a list of critically acclaimed movies available on streaming platforms in the US. The response was incomplete and did not fully address the query.";
    [];
    str "Query: ";
    str "{query}";
    str "Answer: ";
    str "{answer}";
    [];
    str "Now give your reason and answer status in the following format:";
    [];
    str "Answer Status";
    str "xxx (can only be " ++ dq ++ str "Solved" ++ dq ++ str " or " ++ dq ++ str "Unsolved" ++ dq ++ str ")";
    str "Reason";
    str "xxx";
    []
  ].

(* ================================================================= *)
(** * The collector, the outside world and the monad of its methods *)

(** The object: the two attributes [__init__] assigns.  [query_results] is
    [None] until [set_up] replaces it by a list. *)
Record FACMetricCollector := {
  query_results : option (list bool);
  judge_model_url : pystr
}.

(** What the code reads of a [requests.Response]: the attribute
    [status_code], the property [text] and the outcome of [json()]. *)
Record HttpResponse := {
  status_code : Z;
  text : pystr;
  json : Res pyval
}.

(** What the code reads of a [QuerySpecification]. *)
Record QuerySpecification := { query : pystr }.

(** The result of one judgement, a dictionary with the two keys
    ["evaluation"] and ["is_solved"]. *)
Record EvaluationResult := {
  evaluation : pyval;
  is_solved : bool
}.

(** The functions the collector imports.  [W] is the state of everything
    outside the collector object (the environment, the log sinks, the
    network, the base class); an effectful function transforms it and
    returns or raises. *)
Class Externals := {
  W : Type;
  agent_response : Type;
  settings : Type;
  model_configs : Type;
  getenv : pystr -> W -> option pystr;
  base_init : settings -> model_configs -> W -> Res unit * W;
  base_set_up : W -> Res unit * W;
  base_tear_down : W -> Res unit * W;
  log : pystr -> W -> Res unit * W;
  log_verbose : pystr -> W -> Res unit * W;
  extract_final_answer_from_response : option agent_response -> W -> Res pystr * W;
  strip_think : pystr -> W -> Res pystr * W;
  requests_post :
    pystr -> pyval -> list (pystr * pystr) -> Z -> W -> Res HttpResponse * W;
  json_dumps : pyval -> Z -> pystr;
  format_2f : spec_float -> pystr
}.

Section Monad.
Context {E : Externals}.

Record Heap := { self : FACMetricCollector; world : W }.

Definition M (A : Type) : Type := Heap -> Res A * Heap.

Definition ret {A : Type} (a : A) : M A := fun h => (Ok a, h).

Definition bind {A B : Type} (c : M A) (k : A -> M B) : M B :=
  fun h =>
    match c h with
    | (Ok a, h') => k a h'
    | (Raise e, h') => (Raise e, h')
    end.

Definition raise {A : Type} (e : exn) : M A := fun h => (Raise e, h).

(** [try: body / except Exception as e: handler e]. *)
Definition try_except {A : Type} (body : M A) (handler : exn -> M A) : M A :=
  fun h =>
    match body h with
    | (Ok a, h') => (Ok a, h')
    | (Raise e, h') => handler e h'
    end.

(** A pure operation that may raise. *)
Definition lift {A : Type} (r : Res A) : M A := fun h => (r, h).

(** A call of an imported function. *)
Definition ext {A : Type} (f : W -> Res A * W) : M A :=
  fun h =>
    let (r, w) := f (world h) in
    (r, {| self := self h; world := w |}).

Definition get_self : M FACMetricCollector := fun h => (Ok (self h), h).

Definition set_query_results (q : option (list bool)) : M unit :=
  fun h =>
    (Ok tt,
     {| self := {| query_results := q;
                   judge_model_url := judge_model_url (self h) |};
        world := world h |}).
End Monad.

Declare Scope py_scope.
Delimit Scope py_scope with py.
Notation "x <- c ;; k" := (bind c (fun x => k))
  (at level 61, c at next level, right associativity) : py_scope.
Notation "c ;; k" := (bind c (fun _ => k))
  (at level 61, right associativity) : py_scope.

(* ================================================================= *)
(** * The methods of [FACMetricCollector] *)

Section Collector.
Context {U : Unicode} {E : Externals}.
Local Open Scope py_scope.

(** [FACMetricCollector(settings, model_config)]: the constructor. *)
Definition __init__ (st : settings) (model_config : model_configs) (w : W)
  : Res FACMetricCollector * W :=
  match base_init st model_config w with
  | (Raise e, w') => (Raise e, w')
  | (Ok _, w') =>
      match getenv (str "FAC_JUDGE_MODEL_URL") w' with
      | None | Some [] =>
          (Raise (ValueError
                    (str "FAC_JUDGE_MODEL_URL environment variable is required")),
           w')
      | Some url =>
          (Ok {| query_results := None; judge_model_url := url |}, w')
      end
  end.

Definition get_collected_metrics_names : list pystr :=
  [str "Average Task Success (FAC Evaluator)"].

Definition set_up : M unit :=
  ext base_set_up ;;
  set_query_results (Some []).

Definition prepare_for_measurement (query_spec : QuerySpecification) : M unit :=
  ret tt.

(** [self.query_results.append(b)]. *)
Definition query_results_append (b : bool) : M unit :=
  s <- get_self ;;
  match query_results s with
  | Some l => set_query_results (Some (l ++ [b]))
  | None => raise (AttributeError PNone "append")
  end.

Definition parse_evaluation_result (evaluation_text : pyval) : M bool :=
  try_except
    (lowered <- lift (py_lower evaluation_text) ;;
     let text := strip lowered in
     if contains (str "unsolved") text then ret false
     else if contains (str "solved") text then ret true
     else
       preview <- lift (py_slice_to evaluation_text 100) ;;
       ext (log (str "⚠️ Unclear evaluation result: "
                 ++ py_str preview ++ str "...")) ;;
       ret false)
    (fun e =>
       ext (log (str "❌ Error parsing evaluation result: " ++ exn_str e)) ;;
       ret false).

Definition log_judge_output (q answer : pystr) (ev : pyval) : M unit :=
  ext (log_verbose (nl ++ repeat_str (str "=") 60)) ;;
  ext (log_verbose (str "🔍 JUDGE MODEL EVALUATION")) ;;
  ext (log_verbose (repeat_str (str "=") 60)) ;;
  ext (log_verbose (str "📝 Query: " ++ q)) ;;
  ext (log_verbose (str "💬 Agent's Answer: " ++ answer)) ;;
  ext (log_verbose (nl ++ str "📋 Judge Model Output:")) ;;
  ext (log_verbose (repeat_str (str "-") 40)) ;;
  ext (log_verbose (py_str ev)) ;;
  ext (log_verbose (repeat_str (str "-") 40)).

(** The dictionary sent to the judge. *)
Definition judge_payload (prompt : pystr) : pyval :=
  PDict [(str "prompt", PStr prompt);
         (str "max_new_tokens", PInt 512);
         (str "do_sample", PBool false);
         (str "top_p", PFloat (str "1.0"))].

(** The chain of [if key in result] tests that picks the generated text. *)
Definition extract_generated_text (result : pyval) : Res pyval :=
  match py_contains (str "generated_text") result with
  | Raise e => Raise e
  | Ok true => py_getitem result (str "generated_text")
  | Ok false =>
  match py_contains (str "text") result with
  | Raise e => Raise e
  | Ok true => py_getitem result (str "text")
  | Ok false =>
  match py_contains (str "response") result with
  | Raise e => Raise e
  | Ok true => py_getitem result (str "response")
  | Ok false =>
  match py_contains (str "output") result with
  | Raise e => Raise e
  | Ok true => py_getitem result (str "output")
  | Ok false => Ok (PStr (py_str result))
  end end end end.

(** Keep the text from the last ["Answer Status:"] on. *)
Definition last_evaluation (generated_text : pyval) : Res pyval :=
  match py_contains (str "Answer Status:") generated_text with
  | Raise e => Raise e
  | Ok true =>
      match py_rfind generated_text (str "Answer Status:") with
      | Raise e => Raise e
      | Ok last_evaluation_start =>
          py_slice_from generated_text last_evaluation_start
      end
  | Ok false => Ok generated_text
  end.

Definition evaluate_with_llm_judge (q answer : pystr) : M EvaluationResult :=
  try_except
    (prompt <- lift (py_format FAC_JUDGE_PROMPT
                       [(str "query", PStr q); (str "answer", PStr answer)]) ;;
     let payload := judge_payload prompt in
     s <- get_self ;;
     response <- ext (requests_post (judge_model_url s) payload
                        [(str "Content-Type", str "application/json")] 30) ;;
     if (status_code response =? 200)%Z then
       result <- lift (json response) ;;
       generated_text <- lift (extract_generated_text result) ;;
       generated_text <- lift (last_evaluation generated_text) ;;
       solved <- parse_evaluation_result generated_text ;;
       ret {| evaluation := generated_text; is_solved := solved |}
     else
       let error_msg := str "API call failed: " ++ decimal (status_code response)
                        ++ str " - " ++ text response in
       ext (log (str "❌ LLM judge model API error: " ++ error_msg)) ;;
       ext (log (str "🔍 Debug info:")) ;;
       ext (log (str "   URL: " ++ judge_model_url s)) ;;
       ext (log (str "   Payload: " ++ json_dumps payload 2)) ;;
       ext (log (str "   Response: " ++ text response)) ;;
       ret {| evaluation := PStr (str "Answer Status: Unsolved" ++ nl
                                  ++ str "Reason: " ++ error_msg);
              is_solved := false |})
    (fun e =>
       let error_msg := str "Error calling LLM judge model: " ++ exn_str e in
       s <- get_self ;;
       ext (log (str "❌ " ++ error_msg)) ;;
       ext (log (str "🔍 Debug info:")) ;;
       ext (log (str "   URL: " ++ judge_model_url s)) ;;
       ext (log (str "   Error: " ++ exn_str e)) ;;
       ret {| evaluation := PStr (str "Answer Status: Unsolved" ++ nl
                                  ++ str "Reason: " ++ error_msg);
              is_solved := false |}).

Definition register_measurement (query_spec : QuerySpecification)
  (response : option agent_response) : M unit :=
  try_except
    (let q := query query_spec in
     final_answer <- ext (extract_final_answer_from_response response) ;;
     final_answer <- ext (strip_think final_answer) ;;
     evaluation_result <- evaluate_with_llm_judge q final_answer ;;
     let status_emoji :=
       if is_solved evaluation_result then str "✅" else str "❌" in
     query_results_append (is_solved evaluation_result) ;;
     ext (log_verbose (str "📊 FAC Query Evaluated: " ++ slice_to q 50
                       ++ str "... " ++ status_emoji)) ;;
     log_judge_output q final_answer (evaluation evaluation_result))
    (fun e => query_results_append false).

Definition tear_down : M unit := ext base_tear_down.

(** [sum(1 for is_solved in results if is_solved)]. *)
Definition count_solved (results : list bool) : Z :=
  fold_left (fun acc (solved : bool) => if solved then (acc + 1)%Z else acc)
    results 0%Z.

(** [solve_rate] is [0.0] for an empty log and the quotient otherwise. *)
Definition report_results : M (list (pystr * spec_float)) :=
  s <- get_self ;;
  match query_results s with
  | None => raise (TypeError (str "object of type 'NoneType' has no len()"))
  | Some results =>
      let total_queries := Z.of_nat (List.length results) in
      let solved_queries := count_solved results in
      solve_rate <- (if (total_queries >? 0)%Z
                     then lift (py_truediv solved_queries total_queries)
                     else ret (S754_zero false)) ;;
      ext (log (str "Average Task Success (FAC Evaluator): "
                ++ format_2f solve_rate
                ++ str " (Solved " ++ decimal solved_queries ++ str "/"
                ++ decimal total_queries ++ str " queries)")) ;;
      ret [(str "Average Task Success (FAC Evaluator)", solve_rate)]
  end.
End Collector.

(* ================================================================= *)
(** * Vocabulary of the specification *)

(** [sub] occurs in [s]. *)
Definition Substr (sub s : pystr) : Prop :=
  exists pre post, s = pre ++ sub ++ post.

(** [s = pre ++ sub ++ post] and no occurrence of [sub] in [s] starts
    further to the right. *)
Definition LastOccurrence (sub s pre post : pystr) : Prop :=
  s = pre ++ sub ++ post /\
  forall pre' post', s = pre' ++ sub ++ post' ->
                     (List.length pre' <= List.length pre)%nat.

(** The text before, between and after the two placeholders of the judge
    template. *)
Definition PROMPT_HEAD : pystr := firstn 4929 FAC_JUDGE_PROMPT.
Definition PROMPT_MID : pystr := firstn 10 (skipn 4936 FAC_JUDGE_PROMPT).
Definition PROMPT_TAIL : pystr := skipn 4954 FAC_JUDGE_PROMPT.

Definition rendered_prompt (q answer : pystr) : pystr :=
  PROMPT_HEAD ++ q ++ PROMPT_MID ++ answer ++ PROMPT_TAIL.

Definition no_brace (s : pystr) : bool :=
  forallb (fun c => negb ((c =? 123) || (c =? 125))%N) s.

(** The evaluation text the judge client synthesizes for a failure. *)
Definition unsolved_text (reason : pystr) : pyval :=
  PStr (str "Answer Status: Unsolved" ++ nl ++ str "Reason: " ++ reason).

Definition unsolved_result (reason : pystr) : EvaluationResult :=
  {| evaluation := unsolved_text reason; is_solved := false |}.

Section Vocabulary.
Context {U : Unicode} {E : Externals}.

(** The sinks accept every message. *)
Definition log_never_raises : Prop :=
  forall m w, fst (log m w) = Ok tt.
Definition log_verbose_never_raises : Prop :=
  forall m w, fst (log_verbose m w) = Ok tt.

(** The request [evaluate_with_llm_judge q answer] sends from heap [h]. *)
Definition judge_call (h : Heap) (q answer : pystr) : Res HttpResponse * W :=
  requests_post (judge_model_url (self h))
    (judge_payload (rendered_prompt q answer))
    [(str "Content-Type", str "application/json")] 30 (world h).

(** The verdict the parser reaches on a value when it returns. *)
Definition verdict (v : pyval) : bool :=
  match v with
  | PStr s =>
      let t := strip (lower s) in
      negb (contains (str "unsolved") t) && contains (str "solved") t
  | _ => false
  end.

Definition error_reason (e : exn) : pystr :=
  str "Error calling LLM judge model: " ++ exn_str e.

Definition api_failure_reason (response : HttpResponse) : pystr :=
  str "API call failed: " ++ decimal (status_code response)
  ++ str " - " ++ text response.

(** The pure part of the success path: decode, pick the text, cut at the
    last marker. *)
Definition judge_pipeline (response : HttpResponse) : Res pyval :=
  match json response with
  | Raise e => Raise e
  | Ok result =>
      match extract_generated_text result with
      | Raise e => Raise e
      | Ok generated_text => last_evaluation generated_text
      end
  end.

(** The result the judge client owes for each outcome of the request, in
    the words of the specification: a transport exception and any failure
    while decoding give an unsolved result that quotes the exception, a
    status other than 200 gives an unsolved result that quotes status and
    body, and a decoded text is judged by the parser. *)
Definition judge_outcome (r : Res HttpResponse) : EvaluationResult :=
  match r with
  | Raise e => unsolved_result (error_reason e)
  | Ok response =>
      if (status_code response =? 200)%Z then
        match judge_pipeline response with
        | Ok t => {| evaluation := t; is_solved := verdict t |}
        | Raise e => unsolved_result (error_reason e)
        end
      else unsolved_result (api_failure_reason response)
  end.

(** The keys under which a judge may expose its text, in the order of
    priority the specification gives. *)
Definition priority_keys : list pystr :=
  [str "generated_text"; str "text"; str "response"; str "output"].

(** The value of the first of [keys] that is present in the object [d]. *)
Fixpoint first_present (d : list (pystr * pyval)) (keys : list pystr)
  : option pyval :=
  match keys with
  | [] => None
  | k :: rest =>
      match dict_get d k with
      | Some v => Some v
      | None => first_present d rest
      end
  end.

(** The generated text of a JSON object, in the words of the
    specification: the first matching key wins, and the whole object is
    stringified when no key matches. *)
Definition text_by_priority (d : list (pystr * pyval)) : pyval :=
  match first_present d priority_keys with
  | Some v => v
  | None => PStr (py_str (PDict d))
  end.

(** The result owed for a picked text: it is cut at the last marker and
    judged by the parser; a value that cannot be cut fails the call, which
    counts as unsolved. *)
Definition judged (picked : pyval) : EvaluationResult :=
  match last_evaluation picked with
  | Ok t => {| evaluation := t; is_solved := verdict t |}
  | Raise e => unsolved_result (error_reason e)
  end.

(** A computation that leaves the collector object untouched. *)
Definition keeps_self {A : Type} (c : M A) : Prop :=
  forall h, self (snd (c h)) = self h.

Definition results_of (h : Heap) : list bool :=
  match query_results (self h) with
  | Some l => l
  | None => []
  end.

(** A run of the harness over its queries: one call of
    [register_measurement] after the other. *)
Fixpoint measure_all (calls : list (QuerySpecification * option agent_response))
  : M unit :=
  match calls with
  | [] => ret tt
  | (query_spec, response) :: rest =>
      bind (register_measurement query_spec response) (fun _ => measure_all rest)
  end.

(** The rate in the dictionary [report_results] returns, if it returns. *)
Definition reported_rate (h : Heap) : option spec_float :=
  match report_results h with
  | (Ok [(_, rate)], _) => Some rate
  | _ => None
  end.

(** The JSON values that are not containers: [null], booleans, numbers. *)
Definition is_scalar (v : pyval) : bool :=
  match v with
  | PNone | PBool _ | PInt _ | PFloat _ => true
  | _ => false
  end.

Definition is_string (v : pyval) : bool :=
  match v with
  | PStr _ => true
  | _ => false
  end.
End Vocabulary.

(* ================================================================= *)
(** * Concrete surroundings used to run the model *)

(** A character database that leaves code points outside ASCII alone. *)
Definition plain_unicode : Unicode :=
  {| unicode_lower := fun s i => firstn 1 (skipn i s);
     unicode_printable := fun _ => true |}.

(** A scripted world: the environment holds [url], the judge endpoint
    answers every request with [judge], the standard log records its
    messages, and the verbose log works only if [verbose_ok]. *)
Definition scripted (url : option pystr) (judge : Res HttpResponse)
  (verbose_ok : bool) : Externals :=
  {| W := list pystr;
     agent_response := pystr;
     settings := unit;
     model_configs := unit;
     getenv := fun _ _ => url;
     base_init := fun _ _ w => (Ok tt, w);
     base_set_up := fun w => (Ok tt, w);
     base_tear_down := fun w => (Ok tt, w);
     log := fun m w => (Ok tt, w ++ [m]);
     log_verbose := fun m w =>
       if verbose_ok then (Ok tt, w ++ [m])
       else (Raise {| exn_type := "ValueError";
                      exn_str := str "I/O operation on closed file." |}, w);
     extract_final_answer_from_response := fun r w =>
       (Ok (match r with Some a => a | None => [] end), w);
     strip_think := fun a w => (Ok a, w);
     requests_post := fun _ _ _ _ w => (judge, w);
     json_dumps := fun _ _ => [];
     format_2f := fun _ => [] |}.

(** The surroundings of [scripted] with working sinks, except that the
    answer cannot be extracted from the agent's response. *)
Definition broken_extraction (judge : Res HttpResponse) : Externals :=
  {| W := list pystr;
     agent_response := pystr;
     settings := unit;
     model_configs := unit;
     getenv := fun _ _ => Some (str "http://judge.example/generate");
     base_init := fun _ _ w => (Ok tt, w);
     base_set_up := fun w => (Ok tt, w);
     base_tear_down := fun w => (Ok tt, w);
     log := fun m w => (Ok tt, w ++ [m]);
     log_verbose := fun m w => (Ok tt, w ++ [m]);
     extract_final_answer_from_response := fun _ w =>
       (Raise {| exn_type := "KeyError"; exn_str := str "'messages'" |}, w);
     strip_think := fun a w => (Ok a, w);
     requests_post := fun _ _ _ _ w => (judge, w);
     json_dumps := fun _ _ => [];
     format_2f := fun _ => [] |}.

Definition judge_says (status : Z) (body : pyval) : Res HttpResponse :=
  Ok {| status_code := status; text := []; json := Ok body |}.

Definition fresh_heap (E : Externals) (url : pystr) (results : option (list bool))
  (w : @W E) : @Heap E :=
  {| self := {| query_results := results; judge_model_url := url |};
     world := w |}.

Definition judge_url : pystr := str "http://judge.example/generate".

Definition colors_query : QuerySpecification :=
  {| query := str "List two colors." |}.

Definition colors_answer : pystr := str "Red and blue.".

(** A judge that answers 200 with [body]; every sink works. *)
Definition healthy (judge : Res HttpResponse) : Externals :=
  scripted (Some judge_url) judge true.

(** The same surroundings with a verbose sink that raises. *)
Definition verbose_broken (judge : Res HttpResponse) : Externals :=
  scripted (Some judge_url) judge false.

Definition solved_body : pyval :=
  PDict [(str "text",
          PStr (str "Answer Status: Solved" ++ nl ++ str "Reason: complete"))].

Definition foo_body : pyval :=
  PDict [(str "foo", PStr (str "Answer Status" ++ nl ++ str "Solved"))].

Definition read_timeout : exn :=
  {| exn_type := "ReadTimeout";
     exn_str := str "HTTPConnectionPool(host='judge.example', port=80): Read timed out. (read timeout=30)" |}.

Definition json_decode_error : exn :=
  {| exn_type := "JSONDecodeError";
     exn_str := str "Expecting value: line 1 column 1 (char 0)" |}.

(** A 201 answer whose body would count as solved had it been read. *)
Definition created_response : HttpResponse :=
  {| status_code := 201; text := str "created"; json := Ok solved_body |}.

(** A 200 answer whose body is not JSON. *)
Definition malformed_response : HttpResponse :=
  {| status_code := 200; text := str "<html>"; json := Raise json_decode_error |}.

(** A judge transcript that echoes an example verdict before its own. *)
Definition echoed_transcript : pystr :=
  str "Answer Status: Solved" ++ nl ++ str "Reason: example" ++ nl
  ++ str "Answer Status: Unsolved" ++ nl ++ str "Reason: incomplete".

Definition echo_body : pyval :=
  PDict [(str "generated_text", PStr echoed_transcript)].

(** The rational a finite binary64 number denotes; none for a NaN or an
    infinity. *)
Definition b64_to_Q (f : spec_float) : option Q :=
  match f with
  | S754_zero _ => Some 0%Q
  | S754_finite s m e =>
      let v := if (0 <=? e)%Z
               then inject_Z (Z.pos m * 2 ^ e)
               else (Z.pos m # Pos.pow 2 (Z.to_pos (- e)))%Q in
      Some (if s then Qopp v else v)
  | _ => None
  end.

(** The record [mrs] of the rounding procedure places the quotient
    [num / den]: its mantissa is the integer part, and the round and sticky
    bits say whether the rest is zero, below one half, one half, or above
    one half. *)
Definition located (num den : Z) (mrs : shr_record) : Prop :=
  (0 <= shr_m mrs /\
   match shr_r mrs, shr_s mrs with
   | false, false => num = shr_m mrs * den
   | false, true => shr_m mrs * den < num /\ 2 * num < (2 * shr_m mrs + 1) * den
   | true, false => 2 * num = (2 * shr_m mrs + 1) * den
   | true, true => (2 * shr_m mrs + 1) * den < 2 * num /\ num < (shr_m mrs + 1) * den
   end)%Z.

(** [a] is the integer nearest to [num / den], the even one of the two
    when the quotient lies halfway between them. *)
Definition nearest_even (num den a : Z) : Prop :=
  (2 * Z.abs (a * den - num) <= den /\
   (2 * num = (2 * a - 1) * den -> Z.even a = true) /\
   (2 * num = (2 * a + 1) * den -> Z.even a = true))%Z.

(** [m2 * 2^-E1] is the binary64 rounding of [c / n] for [0 < c <= n]:
    [E1] is the exponent at which the quotient has 53 significant bits (or
    1074, the finest exponent of the format), and [m2] is the integer
    nearest to [c / n * 2^E1], ties to even. *)
Definition rounds_to (c n m2 E1 : Z) : Prop :=
  (52 <= E1 <= 1074 /\
   (E1 = 1074 \/ 2 ^ 52 * n <= c * 2 ^ E1) /\
   c * 2 ^ E1 < 2 ^ 53 * n /\
   nearest_even (c * 2 ^ E1) n m2)%Z.

(** A body with two of the keys, the one of lower priority first. *)
Definition two_key_body : pyval :=
  PDict [(str "output",
          PStr (str "Answer Status: Unsolved" ++ nl ++ str "Reason: stale"));
         (str "text",
          PStr (str "Answer Status: Solved" ++ nl ++ str "Reason: complete"))].

(** A body whose [generated_text] is a list rather than a string. *)
Definition list_text_body : pyval :=
  PDict [(str "generated_text", PList [PStr (str "Solved")])].

(** The rate the specification asks for: the share of [true] entries, and
    zero for an empty log. *)
Definition success_rate (l : list bool) : Q :=
  match l with
  | [] => 0%Q
  | _ :: _ =>
      (inject_Z (Z.of_nat (count_occ bool_dec l true))
       / inject_Z (Z.of_nat (List.length l)))%Q
  end.

(** The same rate in the arithmetic of the code: the float [0.0] for an
    empty log, else the quotient [/] gives for the two counts. *)
Definition float_rate (l : list bool) : Res spec_float :=
  match l with
  | [] => Ok (S754_zero false)
  | _ :: _ =>
      py_truediv (Z.of_nat (count_occ bool_dec l true))
        (Z.of_nat (List.length l))
  end.

(* ================================================================= *)
(** * Substring search *)

Lemma startswith_app (p r : pystr) : startswith p (p ++ r) = true.
Proof.
  induction p as [|x p IH]; simpl; [reflexivity|].
  now rewrite N.eqb_refl, IH.
Qed.

Lemma startswith_inv (p s : pystr) :
  startswith p s = true -> exists r, s = p ++ r.
Proof.
  revert s; induction p as [|x p IH]; intros s H.
  - now exists s.
  - destruct s as [|y s]; simpl in H; [discriminate|].
    apply andb_true_iff in H as [Hxy Hp].
    apply N.eqb_eq in Hxy; subst y.
    destruct (IH _ Hp) as [r ->]. now exists r.
Qed.

Lemma contains_Substr (sub s : pystr) :
  contains sub s = true <-> Substr sub s.
Proof.
  split.
  - induction s as [|c s IH]; simpl; intros H.
    + rewrite orb_false_r in H. apply startswith_inv in H as [r Hr].
      now exists [], r.
    + apply orb_true_iff in H as [H|H].
      * apply startswith_inv in H as [r Hr]. now exists [], r.
      * destruct (IH H) as (pre & post & ->). now exists (c :: pre), post.
  - intros (pre & post & ->).
    induction pre as [|c pre IH]; simpl.
    + assert (contains sub (sub ++ post)
              = startswith sub (sub ++ post)
                || match sub ++ post with [] => false | _ :: t => contains sub t end)
        as -> by now destruct (sub ++ post).
      now rewrite startswith_app.
    + rewrite IH. apply orb_true_r.
Qed.

Lemma contains_false_not_Substr (sub s : pystr) :
  contains sub s = false <-> ~ Substr sub s.
Proof.
  split; intros H.
  - intros Hs. apply contains_Substr in Hs. congruence.
  - destruct (contains sub s) eqn:Hc; [|reflexivity].
    apply contains_Substr in Hc. contradiction.
Qed.

(** What [rfind] computes: [-1] when there is no occurrence, otherwise the
    start of the rightmost one. *)
Lemma rfind_spec (sub s : pystr) :
  (contains sub s = false /\ rfind sub s = (-1)%Z) \/
  (exists pre post, LastOccurrence sub s pre post /\
                    rfind sub s = Z.of_nat (List.length pre)).
Proof.
  induction s as [|c s IH].
  - simpl. destruct (startswith sub []) eqn:Hs.
    + right. apply startswith_inv in Hs as [r Hr].
      symmetry in Hr. apply app_eq_nil in Hr as [-> ->].
      exists [], []. split; [split; [reflexivity|]|reflexivity].
      intros pre' post' H. symmetry in H. apply app_eq_nil in H as [-> _].
      apply Nat.le_refl.
    + now left.
  - cbn [rfind contains].
    destruct IH as [[Hno Hr]|(pre & post & [Hs Hmax] & Hr)].
    + rewrite Hr, Hno, orb_false_r. cbn [Z.leb Z.compare].
      destruct (startswith sub (c :: s)) eqn:Hs.
      * right. apply startswith_inv in Hs as [r Hr'].
        exists [], r. split; [split; [exact Hr'|]|reflexivity].
        intros [|c' pre'] post' H; [apply Nat.le_refl|].
        simpl in H. injection H as _ H.
        assert (Substr sub s) as Hsub by now exists pre', post'.
        apply contains_Substr in Hsub. congruence.
      * now left.
    + right. rewrite Hr.
      replace (0 <=? Z.of_nat (List.length pre))%Z with true
        by (symmetry; apply Z.leb_le; lia).
      exists (c :: pre), post. split; [split|].
      * now rewrite Hs.
      * intros [|c' pre'] post' H; simpl; [lia|].
        simpl in H. injection H as _ H. apply Hmax in H. lia.
      * simpl List.length. lia.
Qed.

Lemma LastOccurrence_unique (sub s pre post pre' post' : pystr) :
  LastOccurrence sub s pre post -> LastOccurrence sub s pre' post' ->
  pre = pre' /\ post = post'.
Proof.
  intros [H1 M1] [H2 M2].
  assert (List.length pre = List.length pre') as Hlen.
  { apply Nat.le_antisymm;
      [apply (M2 _ post); exact H1|apply (M1 _ post'); exact H2]. }
  rewrite H1 in H2.
  assert (pre = pre') as ->.
  { apply (f_equal (firstn (List.length pre))) in H2.
    rewrite firstn_app, Nat.sub_diag, firstn_all in H2. simpl in H2.
    rewrite app_nil_r in H2. rewrite Hlen in H2 at 1.
    rewrite firstn_app, Nat.sub_diag, firstn_all in H2. simpl in H2.
    now rewrite app_nil_r in H2. }
  split; [reflexivity|].
  apply app_inv_head in H2. now apply app_inv_head in H2.
Qed.

Lemma slice_from_length (pre rest : pystr) :
  slice_from (pre ++ rest) (Z.of_nat (List.length pre)) = rest.
Proof.
  unfold slice_from.
  replace (Z.of_nat (List.length pre) <? 0)%Z with false
    by (symmetry; apply Z.ltb_ge; lia).
  rewrite Z.min_l by (rewrite length_app; lia).
  rewrite Nat2Z.id, skipn_app, Nat.sub_diag, skipn_all. reflexivity.
Qed.

(** The slice taken at [rfind] when the marker occurs. *)
Lemma slice_at_rfind (sub s pre post : pystr) :
  LastOccurrence sub s pre post ->
  slice_from s (rfind sub s) = sub ++ post.
Proof.
  intros HL. destruct (rfind_spec sub s) as [[Hno _]|(p & q & HL' & Hr)].
  - apply contains_false_not_Substr in Hno. elim Hno.
    destruct HL as [-> _]. now exists pre, post.
  - destruct (LastOccurrence_unique HL HL') as [-> ->].
    rewrite Hr. destruct HL as [-> _]. apply slice_from_length.
Qed.

Lemma Substr_has_last (sub s : pystr) :
  Substr sub s -> exists pre post, LastOccurrence sub s pre post.
Proof.
  intros H. apply contains_Substr in H.
  destruct (rfind_spec sub s) as [[Hno _]|(p & q & HL & _)];
    [congruence|now exists p, q].
Qed.

(* ================================================================= *)
(** * Lower-casing and trimming *)

Lemma lstrip_suffix (s : pystr) : exists p, s = p ++ lstrip s.
Proof.
  induction s as [|c s [p IH]]; [now exists []|].
  simpl. destruct (isspace c).
  - exists (c :: p). simpl. now f_equal.
  - now exists [].
Qed.

Lemma rstrip_prefix (s : pystr) : exists q, s = rstrip s ++ q.
Proof.
  unfold rstrip. destruct (lstrip_suffix (rev s)) as [p Hp].
  exists (rev p). rewrite <- rev_app_distr, <- Hp. symmetry. apply rev_involutive.
Qed.

Lemma lstrip_app_nonspace (a : pystr) (c : N) (r : pystr) :
  isspace c = false -> lstrip (a ++ c :: r) = lstrip a ++ c :: r.
Proof.
  intros Hc. induction a as [|x a IH]; simpl.
  - now rewrite Hc.
  - destruct (isspace x); [exact IH|reflexivity].
Qed.

Lemma rstrip_app_nonspace (l : pystr) (c : N) (b : pystr) :
  isspace c = false -> rstrip (l ++ c :: b) = l ++ c :: rstrip b.
Proof.
  intros Hc. unfold rstrip.
  rewrite rev_app_distr. simpl. rewrite <- app_assoc. simpl.
  rewrite lstrip_app_nonspace by exact Hc. rewrite rev_app_distr. simpl.
  rewrite rev_involutive, <- app_assoc. reflexivity.
Qed.

(** Trimming keeps a word whose first and last characters are not blank. *)
Lemma strip_keeps_word (a : pystr) (c1 : N) (mid : pystr) (c2 : N) (b : pystr) :
  isspace c1 = false -> isspace c2 = false ->
  strip (a ++ (c1 :: mid ++ [c2]) ++ b)
  = lstrip a ++ (c1 :: mid ++ [c2]) ++ rstrip b.
Proof.
  intros H1 H2. unfold strip. simpl.
  rewrite lstrip_app_nonspace by exact H1.
  rewrite <- app_assoc. simpl.
  replace (lstrip a ++ c1 :: mid ++ c2 :: b)
    with ((lstrip a ++ c1 :: mid) ++ c2 :: b)
    by (rewrite <- app_assoc; reflexivity).
  rewrite rstrip_app_nonspace by exact H2. rewrite <- !app_assoc. simpl.
  reflexivity.
Qed.

Lemma Substr_strip (c1 : N) (mid : pystr) (c2 : N) (t : pystr) :
  isspace c1 = false -> isspace c2 = false ->
  (Substr (c1 :: mid ++ [c2]) (strip t) <-> Substr (c1 :: mid ++ [c2]) t).
Proof.
  intros H1 H2. split.
  - intros (pre & post & Hs).
    unfold strip in Hs.
    destruct (lstrip_suffix t) as [p Hp].
    destruct (rstrip_prefix (lstrip t)) as [q Hq].
    exists (p ++ pre), (post ++ q).
    rewrite Hp at 1. rewrite Hq at 1. rewrite Hs.
    now rewrite <- !app_assoc.
  - intros (pre & post & ->).
    rewrite strip_keeps_word by assumption.
    now exists (lstrip pre), (rstrip post).
Qed.

Lemma ascii_lower_ascii (c : N) : (ascii_lower c < 128)%N -> (c < 128)%N.
Proof.
  unfold ascii_lower.
  destruct ((65 <=? c) && (c <=? 90))%N eqn:H; [|trivial].
  apply andb_true_iff in H as [_ H]. apply N.leb_le in H. lia.
Qed.

Section Lower.
Context {U : Unicode}.

Lemma lower_from_app (s : pystr) (i : nat) (a b : pystr) :
  lower_from s i (a ++ b)
  = lower_from s i a ++ lower_from s (i + List.length a) b.
Proof.
  revert i. induction a as [|c a IH]; intros i; simpl.
  - now rewrite Nat.add_0_r.
  - rewrite IH, <- app_assoc. do 3 f_equal. lia.
Qed.

Lemma lower_from_ascii (s : pystr) (i : nat) (w : pystr) :
  Forall (fun c => (c < 128)%N) w -> lower_from s i w = map ascii_lower w.
Proof.
  intros H. revert i. induction H as [|c w Hc _ IH]; intros i; simpl.
  - reflexivity.
  - apply N.ltb_lt in Hc. now rewrite Hc, IH.
Qed.

(** An ASCII word survives lower-casing, letter by letter, wherever it
    stands and whatever surrounds it. *)
Lemma lower_keeps_ascii_word (pre w post : pystr) :
  Forall (fun c => (c < 128)%N) w ->
  exists x y, lower (pre ++ w ++ post) = x ++ map ascii_lower w ++ y.
Proof.
  intros H. unfold lower. rewrite !lower_from_app. rewrite (@lower_from_ascii _ _ w) by exact H.
  eauto.
Qed.

Lemma lowers_to_ascii (w target : pystr) :
  map ascii_lower w = target ->
  Forall (fun c => (c < 128)%N) target ->
  Forall (fun c => (c < 128)%N) w.
Proof.
  intros <- H. induction w as [|c w IH]; constructor.
  - inversion H; subst. now apply ascii_lower_ascii.
  - inversion H; subst. now apply IH.
Qed.
End Lower.

(* ================================================================= *)
(** * The verdict parser *)

Ltac run_monad :=
  unfold try_except, bind, lift, ret, raise, ext, get_self, set_query_results;
  cbn [fst snd self world query_results judge_model_url].

Section ParserFacts.
Context {U : Unicode} {E : Externals}.

Lemma ext_log_ok (Hlog : log_never_raises) (m : pystr) (h : Heap) :
  exists w', ext (log m) h = (Ok tt, {| self := self h; world := w' |}).
Proof.
  unfold ext. specialize (Hlog m (world h)).
  destruct (log m (world h)) as [r w']. simpl in Hlog. subst r. eauto.
Qed.

Lemma ext_keeps_self {A : Type} (f : W -> Res A * W) (h : Heap) :
  self (snd (ext f h)) = self h.
Proof. unfold ext. now destruct (f (world h)). Qed.

Lemma parse_str_unsolved (s : pystr) (h : Heap) :
  contains (str "unsolved") (strip (lower s)) = true ->
  parse_evaluation_result (PStr s) h = (Ok false, h).
Proof.
  intros H. unfold parse_evaluation_result. run_monad.
  cbn [py_lower]. now rewrite H.
Qed.

Lemma parse_str_solved (s : pystr) (h : Heap) :
  contains (str "unsolved") (strip (lower s)) = false ->
  contains (str "solved") (strip (lower s)) = true ->
  parse_evaluation_result (PStr s) h = (Ok true, h).
Proof.
  intros H1 H2. unfold parse_evaluation_result. run_monad.
  cbn [py_lower]. now rewrite H1, H2.
Qed.

Lemma parse_str_unclear (s : pystr) (h : Heap) :
  log_never_raises ->
  contains (str "unsolved") (strip (lower s)) = false ->
  contains (str "solved") (strip (lower s)) = false ->
  exists w',
    parse_evaluation_result (PStr s) h
    = (Ok false, {| self := self h; world := w' |}).
Proof.
  intros Hlog H1 H2. unfold parse_evaluation_result.
  unfold try_except, bind at 1, lift at 1. cbn [py_lower].
  rewrite H1, H2. unfold bind at 1, lift. cbn [py_slice_to].
  unfold bind, ret.
  destruct (ext_log_ok Hlog
              (str "⚠️ Unclear evaluation result: "
               ++ py_str (PStr (slice_to s 100)) ++ str "...") h)
    as [w' ->].
  now exists w'.
Qed.

Lemma parse_nonstr (v : pyval) (h : Heap) :
  log_never_raises ->
  (forall s, v <> PStr s) ->
  exists w',
    parse_evaluation_result v h
    = (Ok false, {| self := self h; world := w' |}).
Proof.
  intros Hlog Hv. unfold parse_evaluation_result.
  unfold try_except, bind at 1, lift at 1.
  assert (py_lower v = Raise (AttributeError v "lower")) as ->.
  { destruct v; try reflexivity. now elim (Hv s). }
  unfold bind, ret.
  destruct (ext_log_ok Hlog
              (str "❌ Error parsing evaluation result: "
               ++ exn_str (AttributeError v "lower")) h) as [w' ->].
  now exists w'.
Qed.

(** With working sinks the parser returns, and what it returns is
    [verdict]. *)
Lemma parse_returns_verdict (v : pyval) (h : Heap) :
  log_never_raises ->
  exists w',
    parse_evaluation_result v h
    = (Ok (verdict v), {| self := self h; world := w' |}).
Proof.
  intros Hlog.
  destruct v as [| | | |s| |];
    try (apply parse_nonstr; [exact Hlog|intros s; discriminate]).
  unfold verdict.
  destruct (contains (str "unsolved") (strip (lower s))) eqn:H1.
  - rewrite (parse_str_unsolved _ h H1). exists (world h). now destruct h.
  - destruct (contains (str "solved") (strip (lower s))) eqn:H2.
    + rewrite (parse_str_solved _ h H1 H2). exists (world h). now destruct h.
    + now apply parse_str_unclear.
Qed.

(** Whatever the sinks do, a value returned by the parser is [verdict],
    and the parser never touches the collector. *)
Lemma parse_value_is_verdict (v : pyval) (h h' : Heap) (b : bool) :
  parse_evaluation_result v h = (Ok b, h') ->
  b = verdict v /\ self h' = self h.
Proof.
  unfold parse_evaluation_result, try_except, bind at 1, lift at 1.
  destruct v as [| | | |s| |]; cbn [py_lower verdict];
    try (unfold bind, ret, ext;
         match goal with
         | |- context [log ?m ?w] => destruct (log m w) as [[[]|e] w']
         end; intros H; inversion H; now subst).
  destruct (contains (str "unsolved") (strip (lower s))) eqn:H1.
  { unfold ret. intros H; inversion H; now subst. }
  destruct (contains (str "solved") (strip (lower s))) eqn:H2.
  { unfold ret. intros H; inversion H; now subst. }
  unfold bind, lift, ret, ext. cbn [py_slice_to world self].
  destruct (log _ (world h)) as [[[]|e] w1].
  - intros H; inversion H; now subst.
  - cbn [world self]. destruct (log _ w1) as [[[]|e'] w2];
      intros H; inversion H. now subst.
Qed.

Lemma log_then {A : Type} (Hlog : log_never_raises) (m : pystr)
  (k : unit -> M A) (h : Heap) :
  exists w', bind (ext (log m)) k h = k tt {| self := self h; world := w' |}.
Proof.
  unfold bind. destruct (ext_log_ok Hlog m h) as [w' ->]. now exists w'.
Qed.
End ParserFacts.

Ltac step_log Hlog :=
  match goal with
  | |- context [bind (ext (log ?m)) ?k ?h] =>
      let w := fresh "w" in
      destruct (log_then Hlog m k h) as [w ->]; cbv beta; cbn [self world]
  end.

(* ================================================================= *)
(** * The judge client *)

Section JudgeFacts.
Context {U : Unicode} {E : Externals}.

(** The template has exactly the two fields and both are filled. *)
Lemma format_prompt (q answer : pystr) :
  py_format FAC_JUDGE_PROMPT [(str "query", PStr q); (str "answer", PStr answer)]
  = Ok (rendered_prompt q answer).
Proof. vm_compute. reflexivity. Qed.


(** The exception handler of the judge client, run with working sinks. *)
Lemma judge_handler_returns (Hlog : log_never_raises) (e : exn) (h : Heap) :
  exists w',
    (let error_msg := str "Error calling LLM judge model: " ++ exn_str e in
     s <- get_self ;;
     ext (log (str "❌ " ++ error_msg)) ;;
     ext (log (str "🔍 Debug info:")) ;;
     ext (log (str "   URL: " ++ judge_model_url s)) ;;
     ext (log (str "   Error: " ++ exn_str e)) ;;
     ret {| evaluation := PStr (str "Answer Status: Unsolved" ++ nl
                                ++ str "Reason: " ++ error_msg);
            is_solved := false |})%py h
    = (Ok (unsolved_result (error_reason e)),
       {| self := self h; world := w' |}).
Proof.
  cbv zeta. unfold bind at 1, get_self.
  do 4 step_log Hlog.
  exists w2. unfold ret, unsolved_result, unsolved_text, error_reason.
  reflexivity.
Qed.

(** With working sinks the judge client returns what the specification
    prescribes for the outcome of its request, and leaves the collector
    as it found it. *)
Lemma evaluate_refines (Hlog : log_never_raises) (q answer : pystr) (h : Heap) :
  exists w',
    evaluate_with_llm_judge q answer h
    = (Ok (judge_outcome (fst (judge_call h q answer))),
       {| self := self h; world := w' |}).
Proof.
  unfold evaluate_with_llm_judge.
  match goal with
  | |- context [try_except ?b ?hd] => set (body := b); set (handler := hd)
  end.
  assert (forall e h0, exists w',
             handler e h0 = (Ok (unsolved_result (error_reason e)),
                             {| self := self h0; world := w' |})) as Hh
      by (intros; apply judge_handler_returns; exact Hlog).
  unfold try_except. unfold body. unfold bind at 1. unfold lift at 1.
  rewrite format_prompt.
  unfold bind at 1. unfold get_self. unfold bind at 1. unfold ext at 1.
  change (requests_post (judge_model_url (self h))
            (judge_payload (rendered_prompt q answer))
            [(str "Content-Type", str "application/json")] 30 (world h))
    with (judge_call h q answer).
  destruct (judge_call h q answer) as [[response|e] w1]; cbn [fst].
  2:{ destruct (Hh e {| self := self h; world := w1 |}) as [w' ->].
      now exists w'. }
  unfold judge_outcome.
  destruct (status_code response =? 200)%Z.
  - unfold judge_pipeline. unfold bind at 1. unfold lift at 1.
    destruct (json response) as [result|e].
    2:{ destruct (Hh e {| self := self h; world := w1 |}) as [w' ->].
        now exists w'. }
    unfold bind at 1. unfold lift at 1.
    destruct (extract_generated_text result) as [g|e].
    2:{ destruct (Hh e {| self := self h; world := w1 |}) as [w' ->].
        now exists w'. }
    unfold bind at 1. unfold lift at 1.
    destruct (last_evaluation g) as [t|e].
    2:{ destruct (Hh e {| self := self h; world := w1 |}) as [w' ->].
        now exists w'. }
    unfold bind at 1.
    destruct (parse_returns_verdict t {| self := self h; world := w1 |} Hlog)
      as [w' ->].
    exists w'. reflexivity.
  - do 5 step_log Hlog. eexists.
    unfold ret, unsolved_result, unsolved_text, api_failure_reason.
    reflexivity.
Qed.

(** The success path without any assumption on the sinks: whatever the
    parser returns on the cut text is the verdict of the result. *)
Lemma evaluate_success_path (q answer : pystr) (h h2 : Heap)
  (response : HttpResponse) (w1 : W) (t : pyval) (b : bool) :
  judge_call h q answer = (Ok response, w1) ->
  status_code response = 200%Z ->
  judge_pipeline response = Ok t ->
  parse_evaluation_result t {| self := self h; world := w1 |} = (Ok b, h2) ->
  evaluate_with_llm_judge q answer h
  = (Ok {| evaluation := t; is_solved := b |}, h2).
Proof.
  intros Hcall Hstatus Hpipe Hparse.
  unfold evaluate_with_llm_judge.
  unfold try_except. unfold bind at 1. unfold lift at 1.
  rewrite format_prompt.
  unfold bind at 1. unfold get_self. unfold bind at 1. unfold ext at 1.
  change (requests_post (judge_model_url (self h))
            (judge_payload (rendered_prompt q answer))
            [(str "Content-Type", str "application/json")] 30 (world h))
    with (judge_call h q answer).
  rewrite Hcall, Hstatus. cbn [Z.eqb Pos.eqb].
  unfold judge_pipeline in Hpipe.
  unfold bind at 1. unfold lift at 1.
  destruct (json response) as [result|e]; [|discriminate].
  unfold bind at 1. unfold lift at 1.
  destruct (extract_generated_text result) as [g|e]; [|discriminate].
  unfold bind at 1. unfold lift at 1.
  rewrite Hpipe. unfold bind at 1. rewrite Hparse. reflexivity.
Qed.
End JudgeFacts.

(* ================================================================= *)
(** * Verdicts of particular texts *)

Section VerdictFacts.
Context {U : Unicode}.

(** A word of ASCII letters, written in any mix of cases anywhere in a
    text, is found in the lower-cased and trimmed text. *)
Lemma lower_word_found (word : pystr) (c1 : N) (mid : pystr) (c2 : N) :
  word = c1 :: mid ++ [c2] ->
  isspace c1 = false -> isspace c2 = false ->
  forallb (fun c => (c <? 128)%N) word = true ->
  forall pre w post,
    map ascii_lower w = word ->
    contains word (strip (lower (pre ++ w ++ post))) = true.
Proof.
  intros Hword H1 H2 Hascii pre w post Hw.
  assert (Forall (fun c => (c < 128)%N) w) as Hw_ascii.
  { apply lowers_to_ascii with (target := word); [exact Hw|].
    apply Forall_forall. intros c Hc. apply N.ltb_lt.
    exact (proj1 (forallb_forall _ _) Hascii c Hc). }
  destruct (lower_keeps_ascii_word pre post Hw_ascii) as (x & y & Hl).
  rewrite Hl, Hw. apply contains_Substr. rewrite Hword.
  apply Substr_strip; [exact H1|exact H2|]. now exists x, y.
Qed.

Lemma unsolved_word_found (pre w post : pystr) :
  map ascii_lower w = str "unsolved" ->
  contains (str "unsolved") (strip (lower (pre ++ w ++ post))) = true.
Proof.
  apply lower_word_found with (c1 := 117%N) (mid := str "nsolve") (c2 := 100%N);
    reflexivity.
Qed.

Lemma solved_word_found (pre w post : pystr) :
  map ascii_lower w = str "solved" ->
  contains (str "solved") (strip (lower (pre ++ w ++ post))) = true.
Proof.
  apply lower_word_found with (c1 := 115%N) (mid := str "olve") (c2 := 100%N);
    reflexivity.
Qed.

(** The synthesized failure text is judged unsolved whatever the reason
    says: the word ["Unsolved"] of its first line is found before any
    ["solved"] is looked for. *)
Lemma verdict_unsolved_text (reason : pystr) :
  verdict (unsolved_text reason) = false.
Proof.
  unfold verdict, unsolved_text.
  change (str "Answer Status: Unsolved" ++ nl ++ str "Reason: " ++ reason)
    with (str "Answer Status: " ++ str "Unsolved"
          ++ (nl ++ str "Reason: " ++ reason)).
  rewrite unsolved_word_found by reflexivity. reflexivity.
Qed.

(** Occurrence of the two status words is not affected by trimming. *)
Lemma unsolved_strip (t : pystr) :
  Substr (str "unsolved") (strip t) <-> Substr (str "unsolved") t.
Proof.
  change (str "unsolved") with (117%N :: str "nsolve" ++ [100%N]).
  now apply Substr_strip.
Qed.

Lemma solved_strip (t : pystr) :
  Substr (str "solved") (strip t) <-> Substr (str "solved") t.
Proof.
  change (str "solved") with (115%N :: str "olve" ++ [100%N]).
  now apply Substr_strip.
Qed.

Lemma last_evaluation_str (t : pystr) :
  last_evaluation (PStr t)
  = Ok (PStr (if contains (str "Answer Status:") t
              then slice_from t (rfind (str "Answer Status:") t)
              else t)).
Proof.
  unfold last_evaluation. cbn [py_contains py_rfind py_slice_from].
  now destruct (contains (str "Answer Status:") t).
Qed.

Lemma dict_has_get (d : list (pystr * pyval)) (k : pystr) :
  dict_has d k = match dict_get d k with Some _ => true | None => false end.
Proof.
  induction d as [|[k' v] d IH]; simpl; [reflexivity|].
  destruct (pystr_eqb k' k); [reflexivity|exact IH].
Qed.
End VerdictFacts.

(* ================================================================= *)
(** * Computations that do not touch the collector *)

Section KeepsSelf.
Context {U : Unicode} {E : Externals}.

Lemma keeps_ret {A : Type} (a : A) : keeps_self (ret a).
Proof. now intros h. Qed.

Lemma keeps_raise {A : Type} (e : exn) : keeps_self (@raise _ A e).
Proof. now intros h. Qed.

Lemma keeps_lift {A : Type} (r : Res A) : keeps_self (lift r).
Proof. now intros h. Qed.

Lemma keeps_get_self : keeps_self get_self.
Proof. now intros h. Qed.

Lemma keeps_ext {A : Type} (f : W -> Res A * W) : keeps_self (ext f).
Proof. intros h. apply ext_keeps_self. Qed.

Lemma keeps_bind {A B : Type} (c : M A) (k : A -> M B) :
  keeps_self c -> (forall a, keeps_self (k a)) -> keeps_self (bind c k).
Proof.
  intros Hc Hk h. unfold bind. specialize (Hc h).
  destruct (c h) as [[a|e] h1]; simpl in Hc.
  - now rewrite Hk.
  - exact Hc.
Qed.

Lemma keeps_try {A : Type} (body : M A) (handler : exn -> M A) :
  keeps_self body -> (forall e, keeps_self (handler e)) ->
  keeps_self (try_except body handler).
Proof.
  intros Hb Hh h. unfold try_except. specialize (Hb h).
  destruct (body h) as [[a|e] h1]; simpl in Hb.
  - exact Hb.
  - now rewrite Hh.
Qed.
End KeepsSelf.

Ltac keeps :=
  repeat match goal with
    | |- keeps_self (ret _) => apply keeps_ret
    | |- keeps_self (raise _) => apply keeps_raise
    | |- keeps_self (lift _) => apply keeps_lift
    | |- keeps_self get_self => apply keeps_get_self
    | |- keeps_self (ext _) => apply keeps_ext
    | |- keeps_self (bind _ _) => apply keeps_bind; [|intros ?]
    | |- keeps_self (try_except _ _) => apply keeps_try; [|intros ?]
    | |- keeps_self (if ?b then _ else _) => destruct b
    | |- keeps_self (let _ := _ in _) => cbv zeta
    end.

Section CollectorFacts.
Context {U : Unicode} {E : Externals}.

Lemma parse_keeps_self (v : pyval) : keeps_self (parse_evaluation_result v).
Proof. unfold parse_evaluation_result. keeps. Qed.

Lemma evaluate_keeps_self (q answer : pystr) :
  keeps_self (evaluate_with_llm_judge q answer).
Proof.
  unfold evaluate_with_llm_judge. keeps. apply parse_keeps_self.
Qed.

Lemma log_judge_output_keeps_self (q answer : pystr) (ev : pyval) :
  keeps_self (log_judge_output q answer ev).
Proof. unfold log_judge_output. keeps. Qed.

Lemma append_initialized (b : bool) (h : Heap) (l : list bool) :
  query_results (self h) = Some l ->
  query_results_append b h
  = (Ok tt, {| self := {| query_results := Some (l ++ [b]);
                          judge_model_url := judge_model_url (self h) |};
               world := world h |}).
Proof.
  intros Hl. unfold query_results_append, bind, get_self. now rewrite Hl.
Qed.

Lemma ext_verbose_ok (Hv : log_verbose_never_raises) (m : pystr) (h : Heap) :
  exists w', ext (log_verbose m) h = (Ok tt, {| self := self h; world := w' |}).
Proof.
  unfold ext. specialize (Hv m (world h)).
  destruct (log_verbose m (world h)) as [r w']. simpl in Hv. subst r. eauto.
Qed.

Lemma verbose_then {A : Type} (Hv : log_verbose_never_raises) (m : pystr)
  (k : unit -> M A) (h : Heap) :
  exists w',
    bind (ext (log_verbose m)) k h = k tt {| self := self h; world := w' |}.
Proof.
  unfold bind. destruct (ext_verbose_ok Hv m h) as [w' ->]. now exists w'.
Qed.

(** What follows the append in [register_measurement]. *)
Lemma after_append_returns (Hv : log_verbose_never_raises)
  (q final_answer status_emoji : pystr) (ev : pyval) (h : Heap) :
  exists w',
    (ext (log_verbose (str "📊 FAC Query Evaluated: " ++ slice_to q 50
                       ++ str "... " ++ status_emoji)) ;;
     log_judge_output q final_answer ev)%py h
    = (Ok tt, {| self := self h; world := w' |}).
Proof.
  unfold log_judge_output.
  repeat match goal with
    | |- context [bind (ext (log_verbose ?m)) ?k ?h0] =>
        let w := fresh "w" in
        destruct (verbose_then Hv m k h0) as [w ->]; cbv beta; cbn [self world]
    end.
  apply ext_verbose_ok with (h := {| self := self h; world := _ |}).
  exact Hv.
Qed.

Lemma run_keeps_self {A : Type} (c : M A) (h h' : Heap) (r : Res A) :
  keeps_self c -> c h = (r, h') -> self h' = self h.
Proof. intros Hc Hr. specialize (Hc h). now rewrite Hr in Hc. Qed.

(** One call of [register_measurement] on an initialized collector
    returns normally and appends one entry, or two when a verbose log
    call raises after the verdict has been stored. *)
Lemma register_measurement_appends (query_spec : QuerySpecification)
  (response : option agent_response) (h : Heap) (l : list bool) :
  query_results (self h) = Some l ->
  exists bs h',
    register_measurement query_spec response h = (Ok tt, h') /\
    query_results (self h') = Some (l ++ bs) /\
    judge_model_url (self h') = judge_model_url (self h) /\
    (bs = [false] \/ exists b, bs = [b] \/ bs = [b; false]) /\
    (log_verbose_never_raises -> exists b, bs = [b]).
Proof.
  intros Hl. unfold register_measurement. cbv zeta. unfold try_except.
  unfold bind at 1.
  destruct (ext (extract_final_answer_from_response response) h)
    as [[fa|e] h1] eqn:E1;
    pose proof (@run_keeps_self _ _ _ _ _ (keeps_ext _) E1) as S1.
  2:{ rewrite (@append_initialized false h1 l) by (now rewrite S1).
      exists [false]. eexists. split; [reflexivity|]. cbn [self query_results judge_model_url].
      rewrite S1. repeat split; eauto. }
  unfold bind at 1.
  destruct (ext (strip_think fa) h1) as [[fa'|e] h2] eqn:E2;
    pose proof (@run_keeps_self _ _ _ _ _ (keeps_ext _) E2) as S2.
  2:{ rewrite (@append_initialized false h2 l) by (now rewrite S2, S1).
      exists [false]. eexists. split; [reflexivity|]. cbn [self query_results judge_model_url].
      rewrite S2, S1. repeat split; eauto. }
  unfold bind at 1.
  destruct (evaluate_with_llm_judge (query query_spec) fa' h2)
    as [[er|e] h3] eqn:E3;
    pose proof (@run_keeps_self _ _ _ _ _ (@evaluate_keeps_self _ _) E3) as S3.
  2:{ rewrite (@append_initialized false h3 l) by (now rewrite S3, S2, S1).
      exists [false]. eexists. split; [reflexivity|]. cbn [self query_results judge_model_url].
      rewrite S3, S2, S1. repeat split; eauto. }
  unfold bind at 1.
  rewrite (@append_initialized (is_solved er) h3 l) by (now rewrite S3, S2, S1).
  match goal with
  | |- context [bind ?c ?k ?h0] => set (rest := bind c k); set (h4 := h0)
  end.
  assert (keeps_self rest) as Hrest.
  { unfold rest. keeps. apply log_judge_output_keeps_self. }
  destruct (rest h4) as [[[]|e] h5] eqn:E5;
    pose proof (@run_keeps_self _ _ _ _ _ Hrest E5) as S5.
  - exists [is_solved er], h5. split; [reflexivity|].
    rewrite S5. cbn [h4 self query_results judge_model_url].
    rewrite S3, S2, S1. repeat split; eauto.
  - rewrite (@append_initialized false h5 (l ++ [is_solved er]))
      by (now rewrite S5).
    exists [is_solved er; false]. eexists. split; [reflexivity|].
    cbn [self query_results judge_model_url].
    rewrite S5. cbn [h4 self judge_model_url]. rewrite S3, S2, S1.
    split; [now rewrite <- app_assoc|].
    split; [reflexivity|]. split; [eauto|].
    intros Hv.
    destruct (after_append_returns Hv (query query_spec) fa'
                (if is_solved er then str "✅" else str "❌")
                (evaluation er) h4) as [w' Hw].
    unfold rest in E5. rewrite Hw in E5. discriminate.
Qed.
End CollectorFacts.

(* ================================================================= *)
(** * Binary64 division of two counts *)

(** [report_results] divides a count by a total that is not smaller.  This
    part follows the rounding procedure of [SFdiv] on such operands: the
    integer division of the mantissas, the shift that brings the quotient to
    53 bits, the rounding to nearest even and the shift that absorbs a
    carry.  It yields that the float is finite and within half a unit in
    the last place of the exact quotient, and that rounding is monotone. *)
Section Binary64.
Local Open Scope Z_scope.

(** [digits2_pos p] is the number of binary digits of [p]. *)
Lemma digits2_pos_bounds (p : positive) :
  2 ^ (Z.pos (digits2_pos p) - 1) <= Z.pos p < 2 ^ Z.pos (digits2_pos p).
Proof.
  induction p as [p IH|p IH|]; cbn [digits2_pos].
  - rewrite Pos2Z.inj_succ, (Pos2Z.inj_xI p).
    replace (Z.succ (Z.pos (digits2_pos p)) - 1)
      with (Z.succ (Z.pos (digits2_pos p) - 1)) by lia.
    rewrite !Z.pow_succ_r by lia.
    set (a := 2 ^ (Z.pos (digits2_pos p) - 1)) in *.
    set (b := 2 ^ Z.pos (digits2_pos p)) in *. clearbody a b. lia.
  - rewrite Pos2Z.inj_succ, (Pos2Z.inj_xO p).
    replace (Z.succ (Z.pos (digits2_pos p)) - 1)
      with (Z.succ (Z.pos (digits2_pos p) - 1)) by lia.
    rewrite !Z.pow_succ_r by lia.
    set (a := 2 ^ (Z.pos (digits2_pos p) - 1)) in *.
    set (b := 2 ^ Z.pos (digits2_pos p)) in *. clearbody a b. lia.
  - simpl. lia.
Qed.

Lemma Zdigits2_nonneg (m : Z) : 0 <= Zdigits2 m.
Proof. destruct m; simpl; lia. Qed.

Lemma Zdigits2_lt (m : Z) : 0 <= m -> m < 2 ^ Zdigits2 m.
Proof.
  destruct m as [|p|p]; intros H; [reflexivity| |lia].
  apply digits2_pos_bounds.
Qed.

Lemma Zdigits2_le (m k : Z) : 0 <= m -> 0 <= k -> m < 2 ^ k -> Zdigits2 m <= k.
Proof.
  destruct m as [|p|p]; intros H Hk Hlt; [exact Hk| |lia].
  simpl. pose proof (digits2_pos_bounds p) as [Hlo _].
  assert (2 ^ (Z.pos (digits2_pos p) - 1) < 2 ^ k) as Hp by lia.
  apply Z.pow_lt_mono_r_iff in Hp; lia.
Qed.

Lemma Zdigits2_ge (m : Z) : 0 < m -> 2 ^ (Zdigits2 m - 1) <= m.
Proof.
  destruct m as [|p|p]; intros H; try lia. apply digits2_pos_bounds.
Qed.

(** [iter_pos f p] applies [f] as many times as [p] says. *)
Lemma iter_pos_invariant {A : Type} (f : A -> A) (I : Z -> A -> Prop) :
  (forall k x, 0 <= k -> I k x -> I (k + 1) (f x)) ->
  forall p k x, 0 <= k -> I k x -> I (k + Z.pos p) (iter_pos f p x).
Proof.
  intros Hstep. induction p as [p IH|p IH|]; intros k x Hk Hx; cbn [iter_pos].
  - replace (k + Z.pos p~1) with (k + 1 + Z.pos p + Z.pos p) by lia.
    apply IH; [lia|]. apply IH; [lia|]. now apply Hstep.
  - replace (k + Z.pos p~0) with (k + Z.pos p + Z.pos p) by lia.
    apply IH; [lia|]. now apply IH.
  - now apply Hstep.
Qed.

(** A right shift by one bit keeps the quotient located, in units twice as
    large. *)
Lemma located_shr_1 (num den : Z) (mrs : shr_record) :
  0 < den -> located num den mrs -> located num (den * 2) (shr_1 mrs).
Proof.
  destruct mrs as [m r s]. unfold located. cbn [shr_m shr_r shr_s].
  intros HD [Hm H].
  destruct m as [|[p|p|]|p]; try lia.
  - destruct r, s; cbn [shr_1 orb shr_m shr_r shr_s]; (split; [lia|]); lia.
  - rewrite (Pos2Z.inj_xI p) in H.
    destruct r, s; cbn [shr_1 orb shr_m shr_r shr_s]; (split; [lia|]); nia.
  - rewrite (Pos2Z.inj_xO p) in H.
    destruct r, s; cbn [shr_1 orb shr_m shr_r shr_s]; (split; [lia|]); nia.
  - destruct r, s; cbn [shr_1 orb shr_m shr_r shr_s]; (split; [lia|]); lia.
Qed.

Lemma located_shr (num den : Z) (mrs : shr_record) (e k : Z) :
  0 < den -> located num den mrs ->
  exists mrs',
    shr mrs e k = (mrs', e + Z.max 0 k) /\
    located num (den * 2 ^ Z.max 0 k) mrs'.
Proof.
  intros HD H. destruct k as [|p|p]; cbn [shr].
  - exists mrs. rewrite Z.add_0_r. cbn. rewrite Z.mul_1_r. now split.
  - exists (iter_pos shr_1 p mrs). rewrite Z.max_r by lia. split; [reflexivity|].
    apply (iter_pos_invariant shr_1
             (fun k x => located num (den * 2 ^ k) x) ) with (k := 0) (p := p).
    + intros k x Hk Hx. rewrite Z.pow_add_r by lia.
      rewrite Z.mul_assoc. change (2 ^ 1) with 2.
      apply located_shr_1; [|exact Hx].
      apply Z.mul_pos_pos; [exact HD|]. apply Z.pow_pos_nonneg; lia.
    + lia.
    + rewrite Z.mul_1_r. exact H.
  - exists mrs. rewrite Z.max_l by lia. rewrite Z.add_0_r.
    cbn. rewrite Z.mul_1_r. now split.
Qed.

(** The remainder of the integer division locates the exact quotient. *)
Lemma located_new_location (n q r : Z) :
  0 < n -> 0 <= q -> 0 <= r < n ->
  located (n * q + r) n (shr_record_of_loc q (new_location n r)).
Proof.
  intros Hn Hq Hr. unfold new_location.
  destruct (Z.even n) eqn:He.
  - unfold new_location_even. destruct (Z.eqb_spec r 0) as [->|Hr0].
    + unfold located; cbn [shr_record_of_loc shr_m shr_r shr_s]. split; lia.
    + destruct (Z.compare_spec (2 * r) n) as [H|H|H];
        unfold located; cbn [shr_record_of_loc shr_m shr_r shr_s]; split; try lia.
  - unfold new_location_odd. destruct (Z.eqb_spec r 0) as [->|Hr0].
    + unfold located; cbn [shr_record_of_loc shr_m shr_r shr_s]. split; lia.
    + assert (Z.odd n = true) as Ho by (rewrite <- Z.negb_even, He; reflexivity).
      apply Z.odd_spec in Ho as [j Hj].
      destruct (Z.compare_spec (2 * r + 1) n) as [H|H|H];
        unfold located; cbn [shr_record_of_loc shr_m shr_r shr_s]; split; try lia.
Qed.

(** Rounding a located quotient gives a nearest integer, and the quotient
    itself when it is an integer. *)
Lemma located_round (num den : Z) (mrs : shr_record) :
  0 < den -> located num den mrs ->
  let m2 := round_nearest_even (shr_m mrs) (loc_of_shr_record mrs) in
  shr_m mrs <= m2 <= shr_m mrs + 1 /\
  2 * Z.abs (m2 * den - num) <= den /\
  (forall K, num <= K * den -> m2 <= K) /\
  (forall K, num = K * den -> m2 = K).
Proof.
  intros HD. destruct mrs as [m r s]. unfold located. cbn [shr_m shr_r shr_s].
  intros [Hm H].
  assert (forall K, num <= K * den -> m * den < num -> m + 1 <= K) as Hup.
  { intros K H1 H2.
    assert (m * den < K * den) as H3 by lia.
    apply Z.mul_lt_mono_pos_r in H3; [lia|exact HD]. }
  assert (forall K, num = K * den -> num < (m + 1) * den -> m * den < num -> False) as Hmid.
  { intros K H1 H2 H3. subst num.
    apply Z.mul_lt_mono_pos_r in H2; [|exact HD].
    apply Z.mul_lt_mono_pos_r in H3; [|exact HD]. lia. }
  assert (forall K, num <= K * den -> m * den <= num -> m <= K) as Hlow.
  { intros K H1 H2. apply (Z.mul_le_mono_pos_r _ _ den); [exact HD|lia]. }
  assert (forall K, num = K * den -> num = m * den -> m = K) as Hexact.
  { intros K H1 H2. apply (Z.mul_reg_r _ _ den); lia. }
  assert (round_nearest_even m (loc_of_shr_record
                                  {| shr_m := m; shr_r := r; shr_s := s |}) = m
          /\ (r = false \/ (r = true /\ s = false))
          \/ round_nearest_even m (loc_of_shr_record
                                  {| shr_m := m; shr_r := r; shr_s := s |}) = m + 1
          /\ r = true) as Hcases.
  { destruct r, s; cbn [loc_of_shr_record round_nearest_even]; auto.
    destruct (Z.even m); auto. }
  cbv zeta.
  destruct Hcases as [[-> Hr] | [-> Hr]].
  - destruct Hr as [-> | [-> ->]].
    + destruct s.
      * split; [lia|]. split; [lia|]. split.
        -- intros K HK. apply Hlow; [exact HK|lia].
        -- intros K HK. exfalso. apply (Hmid K HK); lia.
      * split; [lia|]. split; [lia|]. split.
        -- intros K HK. apply Hlow; [exact HK|lia].
        -- intros K HK. now apply Hexact.
    + split; [lia|]. split; [lia|]. split.
      * intros K HK. apply Hlow; [exact HK|lia].
      * intros K HK. exfalso. apply (Hmid K HK); lia.
  - subst r. destruct s.
    + split; [lia|]. split; [lia|]. split.
      * intros K HK. apply Hup; [exact HK|lia].
      * intros K HK. exfalso. apply (Hmid K HK); lia.
    + split; [lia|]. split; [lia|]. split.
      * intros K HK. apply Hup; [exact HK|lia].
      * intros K HK. exfalso. apply (Hmid K HK); lia.
Qed.

(** When the quotient lies halfway between two integers, the even one is
    taken. *)
Lemma located_round_ties (num den : Z) (mrs : shr_record) :
  0 < den -> located num den mrs ->
  let m2 := round_nearest_even (shr_m mrs) (loc_of_shr_record mrs) in
  (2 * num = (2 * m2 - 1) * den -> Z.even m2 = true) /\
  (2 * num = (2 * m2 + 1) * den -> Z.even m2 = true).
Proof.
  intros HD. destruct mrs as [m r s]. unfold located. cbn [shr_m shr_r shr_s].
  intros [Hm H].
  destruct r, s; cbn [loc_of_shr_record round_nearest_even]; cbv zeta.
  - split; intros H'; exfalso; lia.
  - destruct (Z.even m) eqn:He.
    + split; intros H'; [exfalso; lia|exact He].
    + split; intros H'; [|exfalso; lia].
      rewrite Z.add_1_r, Z.even_succ, <- Z.negb_even, He. reflexivity.
  - split; intros H'; exfalso; lia.
  - split; intros H'; exfalso; lia.
Qed.

Lemma fexp64 (z : Z) : fexp 53 1024 z = Z.max (z - 53) (-1074).
Proof. reflexivity. Qed.

Lemma located_bounds (num den : Z) (mrs : shr_record) :
  0 < den -> located num den mrs ->
  0 <= shr_m mrs /\ shr_m mrs * den <= num < (shr_m mrs + 1) * den.
Proof.
  intros HD [Hm H]. split; [exact Hm|].
  destruct (shr_r mrs), (shr_s mrs); lia.
Qed.

Lemma shr_record_of_loc_m (m : Z) (l : location) :
  shr_m (shr_record_of_loc m l) = m.
Proof. destruct l as [|[| |]]; reflexivity. Qed.

Lemma pow2_pos (k : Z) : 0 <= k -> 0 < 2 ^ k.
Proof. intros H. apply Z.pow_pos_nonneg; lia. Qed.

Lemma shr_nonpos (mrs : shr_record) (e k : Z) :
  k <= 0 -> shr mrs e k = (mrs, e).
Proof. destruct k; [reflexivity|lia|reflexivity]. Qed.

(** The rounding of SFdiv applied to the quotient [q] of [c * 2^s] by
    [n], for [0 < c <= n]: the result is finite, [m * 2^-E], at most 1 and
    within [2^-54] of [c / n]; before a carry is absorbed it is
    [m2 * 2^-E1] with [rounds_to c n m2 E1]; and it is the float 1.0 when
    [c = n]. *)
Lemma round_quotient (c n q s : Z) (loc : location) :
  0 < c <= n -> 53 <= s <= 1074 -> 0 <= q ->
  s = 1074 \/ 2 ^ 52 <= q ->
  located (c * 2 ^ s) n (shr_record_of_loc q loc) ->
  exists m E m2 E1,
    (52 <= E <= 1074 /\ 0 <= m <= 2 ^ E /\
     2 ^ 54 * Z.abs (m * n - c * 2 ^ E) <= n * 2 ^ E) /\
    (52 <= E1 <= 1074 /\ m * 2 ^ E1 = m2 * 2 ^ E /\
     (E1 = 1074 \/ 2 ^ 52 * n <= c * 2 ^ E1) /\
     c * 2 ^ E1 < 2 ^ 53 * n /\
     nearest_even (c * 2 ^ E1) n m2) /\
    (c = n -> m = 2 ^ 52 /\ E = 52) /\
    binary_round_aux 53 1024 false q (- s) loc
    = match m with
      | Z0 => S754_zero false
      | Zpos p => S754_finite false p (- E)
      | Zneg _ => S754_nan
      end.
Proof.
  intros Hc Hs Hq Hnorm Hloc.
  assert (0 < n) as Hn by lia.
  pose proof (@pow2_pos s ltac:(lia)) as Hps.
  (* the quotient is at most 2^s, and below it when c < n *)
  destruct (located_bounds Hn Hloc) as [_ [Hq1 Hq2]].
  rewrite shr_record_of_loc_m in Hq1, Hq2.
  assert (q <= 2 ^ s) as Hqs.
  { apply (Z.mul_le_mono_pos_r _ _ n); [exact Hn|].
    apply Z.le_trans with (1 := Hq1).
    rewrite (Z.mul_comm (2 ^ s)). apply Z.mul_le_mono_nonneg_r; lia. }
  assert (c < n -> q < 2 ^ s) as Hqs'.
  { intros Hlt. apply (Z.mul_lt_mono_pos_r n); [exact Hn|].
    apply Z.le_lt_trans with (1 := Hq1).
    rewrite (Z.mul_comm (2 ^ s)). apply Z.mul_lt_mono_pos_r; lia. }
  pose proof (Zdigits2_nonneg q) as Hd0.
  pose proof (@Zdigits2_lt q Hq) as Hdq.
  assert (Zdigits2 q <= s + 1) as Hd1.
  { apply Zdigits2_le; [exact Hq|lia|].
    rewrite Z.pow_add_r by lia. change (2 ^ 1) with 2. lia. }
  assert (c < n -> Zdigits2 q <= s) as Hd1'.
  { intros Hlt. apply Zdigits2_le; [exact Hq|lia|]. now apply Hqs'. }
  (* first shift *)
  unfold binary_round_aux, shr_fexp. rewrite fexp64.
  set (k1 := Z.max 0 (Zdigits2 q - 53)).
  assert (Z.max 0 (Z.max (Zdigits2 q + - s - 53) (-1074) - - s) = k1) as Hk1
      by (unfold k1; lia).
  destruct (located_shr (- s)
              (Z.max (Zdigits2 q + - s - 53) (-1074) - - s) Hn Hloc)
    as (mrs1 & Hshr1 & Hl1).
  rewrite Hshr1, Hk1 in *. clear Hshr1 Hk1.
  assert (0 <= k1 <= s - 52) as Hk1 by (unfold k1; lia).
  pose proof (@pow2_pos k1 ltac:(lia)) as Hpk.
  set (E1 := s - k1).
  assert (52 <= E1 <= 1074) as HE1 by (unfold E1; lia).
  assert (c < n -> 53 <= E1) as HE1'.
  { intros Hlt. specialize (Hd1' Hlt). unfold E1, k1. lia. }
  assert (- s + k1 = - E1) as -> by (unfold E1; lia).
  assert (2 ^ s = 2 ^ E1 * 2 ^ k1) as Hsplit.
  { rewrite <- Z.pow_add_r by lia. f_equal. unfold E1. lia. }
  pose proof (@pow2_pos E1 ltac:(lia)) as HpE.
  assert (0 < n * 2 ^ k1) as HD1 by (apply Z.mul_pos_pos; assumption).
  destruct (located_bounds HD1 Hl1) as [Hm1 [Hm1a Hm1b]].
  destruct (located_round HD1 Hl1) as (Hm2 & Herr & Hle & Hex).
  destruct (located_round_ties HD1 Hl1) as (Htie1 & Htie2).
  set (m1 := shr_m mrs1) in *.
  set (m2 := round_nearest_even m1 (loc_of_shr_record mrs1)) in *.
  clearbody m2. clear Hl1. clearbody m1.
  (* the rounded mantissa *)
  assert (m1 < 2 ^ 53) as Hm1lt.
  { assert (m1 * 2 ^ k1 <= q) as H1.
    { assert (m1 * 2 ^ k1 < q + 1); [|lia].
      apply (Z.mul_lt_mono_pos_r n); [exact Hn|].
      rewrite <- Z.mul_assoc, (Z.mul_comm (2 ^ k1)). lia. }
    assert (2 ^ Zdigits2 q <= 2 ^ 53 * 2 ^ k1) as H2.
    { rewrite <- Z.pow_add_r by lia. apply Z.pow_le_mono_r; [lia|].
      unfold k1. lia. }
    apply (Z.mul_lt_mono_pos_r (2 ^ k1)); [exact Hpk|]. lia. }
  assert (m2 <= 2 ^ E1) as Hm2le.
  { apply Hle. rewrite Hsplit.
    replace (c * (2 ^ E1 * 2 ^ k1)) with (2 ^ E1 * 2 ^ k1 * c) by ring.
    replace (2 ^ E1 * (n * 2 ^ k1)) with (2 ^ E1 * 2 ^ k1 * n) by ring.
    apply Z.mul_le_mono_nonneg_l; [|lia].
    apply Z.lt_le_incl, Z.mul_pos_pos; assumption. }
  assert (2 * Z.abs (m2 * n - c * 2 ^ E1) <= n) as Herr1.
  { apply (Z.mul_le_mono_pos_r _ _ (2 ^ k1)); [exact Hpk|].
    rewrite <- Z.mul_assoc.
    replace (Z.abs (m2 * n - c * 2 ^ E1) * 2 ^ k1)
      with (Z.abs (m2 * (n * 2 ^ k1) - c * 2 ^ s)); [exact Herr|].
    rewrite Hsplit.
    replace (m2 * (n * 2 ^ k1) - c * (2 ^ E1 * 2 ^ k1))
      with ((m2 * n - c * 2 ^ E1) * 2 ^ k1) by ring.
    rewrite Z.abs_mul, (Z.abs_eq (2 ^ k1)) by lia. reflexivity. }
  assert (c = n -> m2 * n - c * 2 ^ E1 = 0) as Hexact.
  { intros ->. rewrite (Hex (2 ^ E1)); [ring|]. rewrite Hsplit. ring. }
  assert (2 ^ 54 * Z.abs (m2 * n - c * 2 ^ E1) <= n * 2 ^ E1) as Herr2.
  { destruct (Z.eq_dec c n) as [Heq|Hne].
    - rewrite (Hexact Heq). simpl Z.abs. lia.
    - assert (2 ^ 53 <= 2 ^ E1) as H53
          by (apply Z.pow_le_mono_r; [lia|apply HE1'; lia]).
      change (2 ^ 54) with (2 ^ 53 * 2). rewrite <- Z.mul_assoc.
      apply Z.le_trans with (2 ^ 53 * n).
      + apply Z.mul_le_mono_nonneg_l; [|exact Herr1]. apply Z.pow_nonneg; lia.
      + rewrite (Z.mul_comm n). apply Z.mul_le_mono_nonneg_r; lia. }
  (* the quotient in its binade *)
  assert (m1 * n <= c * 2 ^ E1 < (m1 + 1) * n) as Hfloor.
  { rewrite Hsplit in Hm1a, Hm1b. split.
    - apply (Z.mul_le_mono_pos_r _ _ (2 ^ k1)); [exact Hpk|].
      replace (m1 * n * 2 ^ k1) with (m1 * (n * 2 ^ k1)) by ring.
      replace (c * 2 ^ E1 * 2 ^ k1) with (c * (2 ^ E1 * 2 ^ k1)) by ring.
      exact Hm1a.
    - apply (Z.mul_lt_mono_pos_r (2 ^ k1)); [exact Hpk|].
      replace ((m1 + 1) * n * 2 ^ k1) with ((m1 + 1) * (n * 2 ^ k1)) by ring.
      replace (c * 2 ^ E1 * 2 ^ k1) with (c * (2 ^ E1 * 2 ^ k1)) by ring.
      exact Hm1b. }
  assert (c * 2 ^ E1 < 2 ^ 53 * n) as Hbelow.
  { apply Z.lt_le_trans with ((m1 + 1) * n); [apply Hfloor|].
    apply Z.mul_le_mono_nonneg_r; lia. }
  assert (E1 = 1074 \/ 2 ^ 52 * n <= c * 2 ^ E1) as Habove.
  { destruct (Z_lt_le_dec q (2 ^ 52)) as [Hsmall|Hbig].
    - left. destruct Hnorm as [->|Hnorm]; [|lia].
      assert (Zdigits2 q <= 52) as Hd52 by (apply Zdigits2_le; lia).
      unfold E1, k1. lia.
    - right.
      assert (52 < Zdigits2 q) as Hd53.
      { apply (Z.pow_lt_mono_r_iff 2); [lia|apply Zdigits2_nonneg|lia]. }
      assert (k1 = Zdigits2 q - 53) as Hk1eq by (unfold k1; lia).
      assert (2 ^ 52 * 2 ^ k1 <= q) as Hqlow.
      { rewrite <- Z.pow_add_r by lia.
        replace (52 + k1) with (Zdigits2 q - 1) by lia.
        apply Zdigits2_ge. lia. }
      assert (q < (m1 + 1) * 2 ^ k1) as Hqup.
      { apply (Z.mul_lt_mono_pos_r n); [exact Hn|].
        apply Z.le_lt_trans with (1 := Hq1).
        replace ((m1 + 1) * 2 ^ k1 * n) with ((m1 + 1) * (n * 2 ^ k1)) by ring.
        exact Hm1b. }
      assert (2 ^ 52 <= m1) as Hm1low.
      { assert (2 ^ 52 < m1 + 1); [|lia].
        apply (Z.mul_lt_mono_pos_r (2 ^ k1)); [exact Hpk|]. lia. }
      apply Z.le_trans with (m1 * n); [|apply Hfloor].
      apply Z.mul_le_mono_nonneg_r; lia. }
  assert (nearest_even (c * 2 ^ E1) n m2) as Hnear.
  { split; [exact Herr1|]. split; intros Htie.
    - apply Htie1. rewrite Hsplit.
      replace (2 * (c * (2 ^ E1 * 2 ^ k1)))
        with (2 * (c * 2 ^ E1) * 2 ^ k1) by ring.
      rewrite Htie. ring.
    - apply Htie2. rewrite Hsplit.
      replace (2 * (c * (2 ^ E1 * 2 ^ k1)))
        with (2 * (c * 2 ^ E1) * 2 ^ k1) by ring.
      rewrite Htie. ring. }
  assert (c = n -> E1 = 52 /\ m2 = 2 ^ 52) as Hone.
  { intros Heq. subst c.
    assert (q = 2 ^ s) as Hq2s.
    { assert (2 ^ s < q + 1); [|lia].
      apply (Z.mul_lt_mono_pos_r n); [exact Hn|].
      rewrite (Z.mul_comm (2 ^ s)). exact Hq2. }
    assert (s < Zdigits2 q) as Hds.
    { apply (Z.pow_lt_mono_r_iff 2); [lia|apply Zdigits2_nonneg|lia]. }
    assert (E1 = 52) as HE52 by (unfold E1, k1; lia).
    split; [exact HE52|].
    rewrite <- HE52. apply Hex. rewrite Hsplit. ring. }
  (* second shift: only a carry into the 54th bit needs it *)
  rewrite fexp64.
  destruct (Z.eq_dec m2 (2 ^ 53)) as [Hcarry|Hcarry].
  - subst m2.
    assert (53 <= E1) as H53 by (apply (Z.pow_le_mono_r_iff 2); lia).
    change (Zdigits2 (2 ^ 53)) with 54.
    replace (Z.max (54 + - E1 - 53) (-1074) - - E1) with 1 by lia.
    change (shr (shr_record_of_loc (2 ^ 53) loc_Exact) (- E1) 1)
      with ({| shr_m := 4503599627370496; shr_r := false; shr_s := false |},
            - E1 + 1).
    cbv beta iota. cbn [shr_m].
    exists 4503599627370496, (E1 - 1), (2 ^ 53), E1.
    assert (2 ^ E1 = 2 * 2 ^ (E1 - 1)) as HE.
    { rewrite <- Z.pow_succ_r by lia. f_equal. lia. }
    pose proof (@pow2_pos (E1 - 1) ltac:(lia)) as HpE'.
    split; [split; [lia|split]|split; [|split]].
    + change 4503599627370496 with (2 ^ 52).
      split; [lia|]. apply Z.pow_le_mono_r; lia.
    + assert (2 ^ 52 <= 2 ^ (E1 - 1)) as H52 by (apply Z.pow_le_mono_r; lia).
      change (2 ^ 53) with (2 * 4503599627370496) in Herr1.
      rewrite HE in Herr1.
      replace (2 * 4503599627370496 * n - c * (2 * 2 ^ (E1 - 1)))
        with (2 * (4503599627370496 * n - c * 2 ^ (E1 - 1))) in Herr1 by ring.
      rewrite Z.abs_mul in Herr1. change (Z.abs 2) with 2 in Herr1.
      pose proof (Z.abs_nonneg (4503599627370496 * n - c * 2 ^ (E1 - 1))) as Habs.
      set (A := Z.abs (4503599627370496 * n - c * 2 ^ (E1 - 1))) in *.
      clearbody A.
      change (2 ^ 54) with (2 ^ 52 * 4). rewrite <- Z.mul_assoc.
      apply Z.le_trans with (2 ^ 52 * n).
      * apply Z.mul_le_mono_nonneg_l; lia.
      * rewrite (Z.mul_comm n). apply Z.mul_le_mono_nonneg_r; lia.
    + split; [lia|]. split; [|split; [exact Habove|split; [exact Hbelow|exact Hnear]]].
      rewrite HE. change (2 ^ 53) with (2 * 4503599627370496). ring.
    + intros Heq. destruct (Hone Heq) as [HE52 _]. lia.
    + replace (- E1 + 1 <=? 1024 - 53) with true
        by (symmetry; apply Z.leb_le; lia).
      f_equal. lia.
  - assert (m2 < 2 ^ 53) as Hlt by lia.
    assert (Zdigits2 m2 <= 53) as Hd2 by (apply Zdigits2_le; lia).
    rewrite shr_nonpos by lia.
    rewrite shr_record_of_loc_m.
    exists m2, E1, m2, E1.
    split; [split; [lia|split; [lia|exact Herr2]]|].
    split; [split; [lia|split; [reflexivity|
      split; [exact Habove|split; [exact Hbelow|exact Hnear]]]]|].
    split; [intros Heq; destruct (Hone Heq) as [-> ->]; split; reflexivity|].
    destruct m2 as [|p|p]; [reflexivity| |lia].
    replace (- E1 <=? 1024 - 53) with true
      by (symmetry; apply Z.leb_le; lia).
    reflexivity.
Qed.

(** The same for [b64_truediv] on two positive integers. *)
Lemma truediv_positive (c n : positive) :
  Z.pos c <= Z.pos n ->
  exists m E m2 E1,
    (52 <= E <= 1074 /\ 0 <= m <= 2 ^ E /\
     2 ^ 54 * Z.abs (m * Z.pos n - Z.pos c * 2 ^ E) <= Z.pos n * 2 ^ E) /\
    (52 <= E1 <= 1074 /\ m * 2 ^ E1 = m2 * 2 ^ E /\
     (E1 = 1074 \/ 2 ^ 52 * Z.pos n <= Z.pos c * 2 ^ E1) /\
     Z.pos c * 2 ^ E1 < 2 ^ 53 * Z.pos n /\
     nearest_even (Z.pos c * 2 ^ E1) (Z.pos n) m2) /\
    (Z.pos c = Z.pos n -> m = 2 ^ 52 /\ E = 52) /\
    b64_truediv (Z.pos c) (Z.pos n)
    = match m with
      | Z0 => S754_zero false
      | Zpos p => S754_finite false p (- E)
      | Zneg _ => S754_nan
      end.
Proof.
  intros Hcn. unfold b64_truediv, int_operand, SFdiv, SFdiv_core_binary.
  rewrite fexp64. cbn [xorb].
  change IntDef.Z.min with Z.min. change IntDef.Z.shiftl with Z.shiftl.
  change IntDef.Z.div_eucl with Z.div_eucl.
  assert (Zdigits2 (Z.pos c) <= Zdigits2 (Z.pos n)) as Hd.
  { apply Zdigits2_le; [lia|apply Zdigits2_nonneg|].
    pose proof (@Zdigits2_lt (Z.pos n) ltac:(lia)). lia. }
  set (s := 53 + Z.min (Zdigits2 (Z.pos n) - Zdigits2 (Z.pos c)) 1021).
  assert (53 <= s <= 1074) as Hs by (unfold s; lia).
  replace (Z.min (Z.max (Zdigits2 (Z.pos c) + 0 - (Zdigits2 (Z.pos n) + 0) - 53)
                    (-1074)) (0 - 0)) with (- s) by (unfold s; lia).
  replace (0 - 0 - - s) with s by lia.
  assert (s = 1074 \/ Zdigits2 (Z.pos c) - 1 + s = 52 + Zdigits2 (Z.pos n))
    as Hsdef by (unfold s; lia).
  clearbody s.
  assert (match s with
          | 0 => Z.pos c
          | Z.pos _ => Z.shiftl (Z.pos c) s
          | Z.neg _ => 0
          end = Z.pos c * 2 ^ s) as ->.
  { destruct s as [|p|p]; try lia. apply Z.shiftl_mul_pow2. lia. }
  pose proof (Z_div_mod (Z.pos c * 2 ^ s) (Z.pos n) ltac:(lia)) as Hdiv.
  destruct (Z.div_eucl (Z.pos c * 2 ^ s) (Z.pos n)) as [q r].
  destruct Hdiv as [Hqr Hr].
  pose proof (@pow2_pos s ltac:(lia)) as Hps.
  assert (0 <= q) as Hq.
  { assert (-1 < q); [|lia].
    apply (Z.mul_lt_mono_pos_l (Z.pos n)); [lia|]. nia. }
  assert (s = 1074 \/ 2 ^ 52 <= q) as Hnorm.
  { destruct Hsdef as [->|Hsdef]; [now left|right].
    pose proof (@Zdigits2_ge (Z.pos c) ltac:(lia)) as Hclow.
    pose proof (@Zdigits2_lt (Z.pos n) ltac:(lia)) as Hnup.
    pose proof (Zdigits2_nonneg (Z.pos n)) as Hdn.
    assert (0 < Zdigits2 (Z.pos c)) as Hdc by (simpl; lia).
    assert (2 ^ 52 * 2 ^ Zdigits2 (Z.pos n) <= Z.pos c * 2 ^ s) as Hbig.
    { rewrite <- Z.pow_add_r, <- Hsdef by lia.
      rewrite Z.pow_add_r by lia.
      apply Z.mul_le_mono_nonneg_r; lia. }
    assert (2 ^ 52 * Z.pos n < Z.pos n * (q + 1)) as Hlt.
    { apply Z.lt_le_trans with (2 ^ 52 * 2 ^ Zdigits2 (Z.pos n)).
      - apply Z.mul_lt_mono_pos_l; lia.
      - lia. }
    assert (2 ^ 52 < q + 1); [|lia].
    apply (Z.mul_lt_mono_pos_l (Z.pos n)); [lia|].
    rewrite (Z.mul_comm (Z.pos n) (2 ^ 52)). exact Hlt. }
  apply round_quotient; [lia|exact Hs|exact Hq|exact Hnorm|].
  rewrite Hqr. apply located_new_location; [lia|exact Hq|exact Hr].
Qed.

Lemma pos_pow2 (E : Z) : 0 < E -> Z.pos (2 ^ Z.to_pos E) = 2 ^ E.
Proof. intros H. rewrite Pos2Z.inj_pow, Z2Pos.id by exact H. reflexivity. Qed.

Lemma dyadic_close (m E c : Z) (n : positive) :
  0 < E -> 0 <= m <= 2 ^ E ->
  2 ^ 54 * Z.abs (m * Z.pos n - c * 2 ^ E) <= Z.pos n * 2 ^ E ->
  let v := (m # 2 ^ Z.to_pos E)%Q in
  (0 <= v)%Q /\ (v <= 1)%Q /\
  (Qabs (v - inject_Z c / inject_Z (Z.pos n)) <= 1 # 18014398509481984)%Q.
Proof.
  intros HE Hm Herr v. unfold v.
  pose proof (pos_pow2 HE) as HP.
  split; [|split].
  - unfold Qle. cbn [Qnum Qden]. lia.
  - unfold Qle. cbn [Qnum Qden]. rewrite HP. lia.
  - rewrite <- (Qmake_Qdiv c n). apply Qabs_Qle_condition.
    unfold Qle, Qminus, Qplus, Qopp. cbn [Qnum Qden].
    rewrite !Pos2Z.inj_mul, HP.
    change (2 ^ 54) with 18014398509481984 in Herr.
    set (PE := 2 ^ E) in *. clearbody PE. lia.
Qed.

(** The value of the quotient float as a rational. *)
Lemma truediv_ratio (c n : Z) :
  0 <= c <= n -> 0 < n ->
  exists v,
    b64_to_Q (b64_truediv c n) = Some v /\
    (0 <= v)%Q /\ (v <= 1)%Q /\
    (Qabs (v - inject_Z c / inject_Z n) <= 1 # 18014398509481984)%Q.
Proof.
  intros Hc Hn. destruct n as [|n|n]; try lia.
  destruct c as [|c|c]; try lia.
  - exists 0%Q. split; [reflexivity|]. split; [discriminate|].
    split; [discriminate|]. unfold Qdiv. rewrite Qmult_0_l. discriminate.
  - destruct (@truediv_positive c n ltac:(lia))
      as (m & E & m2 & E1 & (HE & Hm & Herr) & _ & _ & ->).
    pose proof (@dyadic_close m E (Z.pos c) n ltac:(lia) Hm Herr) as Hv.
    cbv zeta in Hv.
    destruct m as [|m|m]; try lia.
    + exists 0%Q. split; [reflexivity|].
      assert (0 # 2 ^ Z.to_pos E == 0)%Q as H0 by reflexivity.
      rewrite H0 in Hv. exact Hv.
    + exists (Z.pos m # 2 ^ Z.to_pos E)%Q. split; [|exact Hv].
      unfold b64_to_Q.
      replace (0 <=? - E) with false by (symmetry; apply Z.leb_gt; lia).
      rewrite Z.opp_involutive. reflexivity.
Qed.

(** Rounding to the nearest integer, ties to even, is monotone. *)
Lemma nearest_even_monotone (num den a num' den' b : Z) :
  0 < den -> 0 < den' ->
  nearest_even num den a -> nearest_even num' den' b ->
  num * den' <= num' * den -> a <= b.
Proof.
  intros HD HD' (Ha & Ha1 & _) (Hb & _ & Hb2) Hle.
  destruct (Z_le_gt_dec a b) as [|Hgt]; [assumption|exfalso].
  assert ((2 * a - 1) * den <= 2 * num) as H1 by lia.
  assert (2 * num' <= (2 * b + 1) * den') as H2 by lia.
  assert ((2 * a - 1) * den * den' <= 2 * num * den') as H3
      by (apply Z.mul_le_mono_nonneg_r; lia).
  assert (2 * num' * den <= (2 * b + 1) * den' * den) as H4
      by (apply Z.mul_le_mono_nonneg_r; lia).
  assert ((2 * b + 1) * (den' * den) <= (2 * a - 1) * (den' * den)) as H5.
  { apply Z.mul_le_mono_nonneg_r; [|lia].
    apply Z.lt_le_incl, Z.mul_pos_pos; assumption. }
  assert (2 * num * den' = (2 * a - 1) * den * den') as E3 by lia.
  assert (2 * num' * den = (2 * b + 1) * den' * den) as E4 by lia.
  assert ((2 * b + 1) * (den' * den) = (2 * a - 1) * (den' * den)) as E5 by lia.
  apply Z.mul_reg_r in E3; [|lia].
  apply Z.mul_reg_r in E4; [|lia].
  apply Z.mul_reg_r in E5;
    [|apply Z.neq_sym, Z.lt_neq, Z.mul_pos_pos; assumption].
  specialize (Ha1 E3). specialize (Hb2 E4).
  replace a with (Z.succ b) in Ha1 by lia.
  rewrite Z.even_succ, <- Z.negb_even, Hb2 in Ha1. discriminate Ha1.
Qed.

Lemma rounds_to_mantissa (c n m2 E1 : Z) :
  0 < n -> 0 <= c -> rounds_to c n m2 E1 ->
  0 <= m2 <= 2 ^ 53 /\ (E1 < 1074 -> 2 ^ 52 <= m2).
Proof.
  intros Hn Hc (HE & Hnorm & Hup & Herr & _).
  pose proof (@pow2_pos E1 ltac:(lia)) as HpE.
  assert (0 <= c * 2 ^ E1) as Hx by (apply Z.mul_nonneg_nonneg; lia).
  split; [split|].
  - assert (-1 < m2); [|lia].
    apply (Z.mul_lt_mono_pos_r n); [exact Hn|]. lia.
  - assert (m2 < 2 ^ 53 + 1); [|lia].
    apply (Z.mul_lt_mono_pos_r n); [exact Hn|]. lia.
  - intros Hlt. destruct Hnorm as [->|Hnorm]; [lia|].
    assert (2 ^ 52 - 1 < m2); [|lia].
    apply (Z.mul_lt_mono_pos_r n); [exact Hn|]. lia.
Qed.

(** Rounding to binary64 is monotone: a smaller quotient lies in the same
    or a finer binade, and within one binade the rounded mantissas are
    ordered. *)
Lemma rounds_to_monotone (c n m2 E1 c' n' m2' E1' : Z) :
  0 < n -> 0 < n' -> 0 <= c -> 0 <= c' ->
  rounds_to c n m2 E1 -> rounds_to c' n' m2' E1' ->
  c * n' <= c' * n ->
  m2 * 2 ^ E1' <= m2' * 2 ^ E1.
Proof.
  intros Hn Hn' Hc Hc' Hr Hr' Hle.
  destruct (rounds_to_mantissa Hn Hc Hr) as [Hm _].
  destruct (rounds_to_mantissa Hn' Hc' Hr') as [Hm' Hlow'].
  destruct Hr as (HE & Hnorm & Hup & Hnear).
  destruct Hr' as (HE' & Hnorm' & Hup' & Hnear').
  pose proof (@pow2_pos E1 ltac:(lia)) as HpE.
  pose proof (@pow2_pos E1' ltac:(lia)) as HpE'.
  destruct (Z.lt_trichotomy E1 E1') as [Hlt|[Heq|Hgt]].
  - (* the smaller quotient cannot lie in the higher binade *)
    exfalso. destruct Hnorm as [->|Hnorm]; [lia|].
    assert (2 * 2 ^ E1 <= 2 ^ E1') as Hstep.
    { rewrite <- Z.pow_succ_r by lia. apply Z.pow_le_mono_r; lia. }
    assert (c' * (2 * 2 ^ E1) < 2 ^ 53 * n') as H1.
    { apply Z.le_lt_trans with (c' * 2 ^ E1'); [|exact Hup'].
      apply Z.mul_le_mono_nonneg_l; lia. }
    assert (c' * 2 ^ E1 < 2 ^ 52 * n') as H2.
    { change (2 ^ 53) with (2 * 2 ^ 52) in H1. lia. }
    assert (c' * 2 ^ E1 * n < 2 ^ 52 * n' * n) as H3
        by (apply Z.mul_lt_mono_pos_r; lia).
    assert (2 ^ 52 * n * n' <= c * 2 ^ E1 * n') as H4
        by (apply Z.mul_le_mono_nonneg_r; lia).
    assert (c * n' * 2 ^ E1 <= c' * n * 2 ^ E1) as H5
        by (apply Z.mul_le_mono_nonneg_r; lia).
    lia.
  - subst E1'. apply Z.mul_le_mono_nonneg_r; [lia|].
    apply (nearest_even_monotone Hn Hn' Hnear Hnear').
    replace (c * 2 ^ E1 * n') with (c * n' * 2 ^ E1) by ring.
    replace (c' * 2 ^ E1 * n) with (c' * n * 2 ^ E1) by ring.
    apply Z.mul_le_mono_nonneg_r; lia.
  - assert (2 * 2 ^ E1' <= 2 ^ E1) as Hstep.
    { rewrite <- Z.pow_succ_r by lia. apply Z.pow_le_mono_r; lia. }
    specialize (Hlow' ltac:(lia)).
    apply Z.le_trans with (2 ^ 53 * 2 ^ E1').
    + apply Z.mul_le_mono_nonneg_r; lia.
    + apply Z.le_trans with (2 ^ 52 * 2 ^ E1).
      * change (2 ^ 53) with (2 ^ 52 * 2). rewrite <- Z.mul_assoc.
        apply Z.mul_le_mono_nonneg_l; lia.
      * apply Z.mul_le_mono_nonneg_r; lia.
Qed.

Lemma Qabs_le_cross (a : Z) (P : positive) (c : Z) (n K : positive) :
  (Qabs ((a # P) - inject_Z c / inject_Z (Z.pos n)) <= 1 # K)%Q ->
  Z.pos K * Z.abs (a * Z.pos n - c * Z.pos P) <= Z.pos P * Z.pos n.
Proof.
  rewrite <- (Qmake_Qdiv c n). intros H. apply Qabs_Qle_condition in H.
  unfold Qle, Qminus, Qplus, Qopp in H. cbn [Qnum Qden] in H.
  rewrite !Pos2Z.inj_mul in H. lia.
Qed.

Lemma truediv_rounds (c n : positive) :
  Z.pos c <= Z.pos n ->
  exists m2 E1 v,
    b64_to_Q (b64_truediv (Z.pos c) (Z.pos n)) = Some v /\
    (v == m2 # 2 ^ Z.to_pos E1)%Q /\
    rounds_to (Z.pos c) (Z.pos n) m2 E1.
Proof.
  intros Hcn.
  destruct (truediv_positive Hcn)
    as (m & E & m2 & E1 & (HE & Hm & _) & (HE1 & Hval & Hrest) & _ & ->).
  pose proof (@pow2_pos E ltac:(lia)) as HpE.
  exists m2, E1.
  destruct m as [|m|m]; try lia.
  - exists 0%Q. split; [reflexivity|]. split; [|split; [exact HE1|exact Hrest]].
    assert (m2 = 0) as -> by nia. reflexivity.
  - exists (Z.pos m # 2 ^ Z.to_pos E)%Q. split; [|split].
    + unfold b64_to_Q.
      replace (0 <=? - E) with false by (symmetry; apply Z.leb_gt; lia).
      rewrite Z.opp_involutive. reflexivity.
    + unfold Qeq. cbn [Qnum Qden]. rewrite !pos_pow2 by lia. exact Hval.
    + split; [exact HE1|exact Hrest].
Qed.

Lemma truediv_monotone (c n c' n' : Z) (v v' : Q) :
  0 <= c <= n -> 0 < n -> 0 <= c' <= n' -> 0 < n' ->
  c * n' <= c' * n ->
  b64_to_Q (b64_truediv c n) = Some v ->
  b64_to_Q (b64_truediv c' n') = Some v' ->
  (v <= v')%Q.
Proof.
  intros Hc Hn Hc' Hn' Hle Hv Hv'.
  destruct (Z.eq_dec c 0) as [->|Hc0].
  - destruct (truediv_ratio Hc' Hn') as (v1 & Hv1 & H0 & _).
    rewrite Hv' in Hv1. injection Hv1 as <-.
    destruct n as [|n|n]; try lia. cbn in Hv. injection Hv as <-. exact H0.
  - assert (0 < c') as Hc'pos.
    { destruct (Z_lt_le_dec 0 c') as [|Hneg]; [assumption|exfalso].
      assert (c' = 0) as -> by lia.
      assert (0 < c * n') by (apply Z.mul_pos_pos; lia). lia. }
    destruct c as [|c|c]; try lia. destruct n as [|n|n]; try lia.
    destruct c' as [|c'|c']; try lia. destruct n' as [|n'|n']; try lia.
    destruct (@truediv_rounds c n ltac:(lia)) as (m2 & E1 & w & Hw & Hq & Hr).
    destruct (@truediv_rounds c' n' ltac:(lia))
      as (m2' & E1' & w' & Hw' & Hq' & Hr').
    rewrite Hv in Hw. injection Hw as <-.
    rewrite Hv' in Hw'. injection Hw' as <-.
    rewrite Hq, Hq'. unfold Qle. cbn [Qnum Qden].
    assert (52 <= E1 /\ 52 <= E1') as [HE HE']
        by (destruct Hr as [? _], Hr' as [? _]; lia).
    rewrite !pos_pow2 by lia.
    apply (rounds_to_monotone (c := Z.pos c) (n := Z.pos n)
             (c' := Z.pos c') (n' := Z.pos n')); try lia; assumption.
Qed.

Lemma truediv_one (n : positive) :
  b64_truediv (Z.pos n) (Z.pos n) = S754_finite false 4503599627370496 (-52).
Proof.
  destruct (@truediv_positive n n ltac:(lia))
    as (m & E & m2 & E1 & _ & _ & Hone & ->).
  destruct (Hone eq_refl) as [-> ->]. reflexivity.
Qed.

(** Below [2^54] only [n / n] rounds to 1.0 and only [0 / n] to 0.0. *)
Lemma truediv_extremes (c n : Z) :
  0 <= c <= n -> 0 < n < 2 ^ 54 ->
  (b64_truediv c n = S754_finite false 4503599627370496 (-52) <-> c = n) /\
  (b64_truediv c n = S754_zero false <-> c = 0).
Proof.
  intros Hc Hn.
  destruct (@truediv_ratio c n Hc ltac:(lia)) as (v & Hv & _ & _ & Herr).
  destruct n as [|n|n]; try lia.
  change (2 ^ 54) with 18014398509481984 in Hn.
  split; split.
  - intros H. rewrite H in Hv. cbv in Hv. injection Hv as <-.
    apply Qabs_le_cross in Herr. lia.
  - intros ->. destruct Hc as [Hc _]. apply truediv_one.
  - intros H. rewrite H in Hv. cbv in Hv. injection Hv as <-.
    apply Qabs_le_cross in Herr. lia.
  - intros ->. reflexivity.
Qed.

(** Dividing a count by a total that is not smaller never fails, and the
    float it gives is finite, lies between 0 and 1, and is within [2^-54]
    of the exact quotient. *)
Lemma py_truediv_ratio (c n : Z) :
  0 <= c <= n -> 0 < n ->
  exists r v,
    py_truediv c n = Ok r /\
    b64_to_Q r = Some v /\
    (0 <= v)%Q /\ (v <= 1)%Q /\
    (Qabs (v - inject_Z c / inject_Z n) <= 1 # 18014398509481984)%Q.
Proof.
  intros Hc Hn. destruct (truediv_ratio Hc Hn) as (v & Hv & Hb).
  unfold py_truediv.
  replace (n =? 0) with false by (symmetry; apply Z.eqb_neq; lia).
  destruct (b64_truediv c n) as [sg|sg| |sg m e]; try discriminate Hv.
  - exists (S754_zero sg), v. split; [reflexivity|]. split; [exact Hv|exact Hb].
  - exists (S754_finite sg m e), v.
    split; [reflexivity|]. split; [exact Hv|exact Hb].
Qed.

(** What [/] returns is the rounded quotient. *)
Lemma py_truediv_value (c n : Z) (r : spec_float) :
  py_truediv c n = Ok r -> r = b64_truediv c n.
Proof.
  unfold py_truediv. destruct (n =? 0); [discriminate|].
  destruct (b64_truediv c n); intros H; now inversion H.
Qed.

Lemma float_rate_ok (l : list bool) :
  exists r v,
    float_rate l = Ok r /\
    b64_to_Q r = Some v /\
    (0 <= v)%Q /\ (v <= 1)%Q /\
    (Qabs (v - success_rate l) <= 1 # 18014398509481984)%Q.
Proof.
  destruct l as [|b l].
  - exists (S754_zero false), 0%Q. split; [reflexivity|].
    split; [reflexivity|]. split; [discriminate|]. split; discriminate.
  - unfold float_rate, success_rate.
    pose proof (count_occ_bound bool_dec true (b :: l)) as Hle.
    apply py_truediv_ratio; [lia|]. simpl List.length. lia.
Qed.
End Binary64.

(* ================================================================= *)
(** * Properties of the collector *)

(** C1.  The verdict parser lower-cases and trims its text; it answers
    [false] when "unsolved" occurs in the result, otherwise [true] when
    "solved" occurs in it, and otherwise [false] after a warning (for which
    the log sink has to accept the message); whenever it returns, with or
    without a working sink, it returns that value.  In particular "SOLVED" is
    judged [true], and a text that spells "unsolved" in any mix of letter
    cases is judged [false]. *)
Theorem parse_evaluation_result_verdict {U : Unicode} {E : Externals}
  (s : pystr) (h : Heap) :
  (Substr (str "unsolved") (strip (lower s)) ->
   parse_evaluation_result (PStr s) h = (Ok false, h)) /\
  (~ Substr (str "unsolved") (strip (lower s)) ->
   Substr (str "solved") (strip (lower s)) ->
   parse_evaluation_result (PStr s) h = (Ok true, h)) /\
  (~ Substr (str "unsolved") (strip (lower s)) ->
   ~ Substr (str "solved") (strip (lower s)) ->
   log_never_raises ->
   exists w', parse_evaluation_result (PStr s) h
              = (Ok false, {| self := self h; world := w' |})) /\
  (forall b h',
      parse_evaluation_result (PStr s) h = (Ok b, h') ->
      b = negb (contains (str "unsolved") (strip (lower s)))
          && contains (str "solved") (strip (lower s))) /\
  parse_evaluation_result (PStr (str "SOLVED")) h = (Ok true, h) /\
  (forall pre w post,
      map ascii_lower w = str "unsolved" ->
      parse_evaluation_result (PStr (pre ++ w ++ post)) h = (Ok false, h)).
Proof.
  split; [|split; [|split; [|split; [|split]]]].
  - intros H. apply parse_str_unsolved. now apply contains_Substr.
  - intros H1 H2. apply parse_str_solved.
    + now apply contains_false_not_Substr.
    + now apply contains_Substr.
  - intros H1 H2 Hlog. apply parse_str_unclear; [exact Hlog| |];
      now apply contains_false_not_Substr.
  - intros b h' H. exact (proj1 (parse_value_is_verdict _ _ H)).
  - apply parse_str_solved; reflexivity.
  - intros pre w post Hw. apply parse_str_unsolved.
    now apply unsolved_word_found.
Qed.

Lemma parse_evaluation_result_verdict_witness :
  let E := healthy (judge_says 200 solved_body) in
  let h := fresh_heap E judge_url (Some []) [] in
  @parse_evaluation_result plain_unicode E
    (PStr (str "Answer Status" ++ nl ++ str "Unsolved" ++ nl
           ++ str "Reason: incomplete")) h = (Ok false, h) /\
  @parse_evaluation_result plain_unicode E
    (PStr (str "Answer Status" ++ nl ++ str "Solved" ++ nl ++ str "Reason: ok")) h
  = (Ok true, h) /\
  exists w', @parse_evaluation_result plain_unicode E
               (PStr (str "no clear status given")) h
             = (Ok false, {| self := self h; world := w' |}).
Proof.
  intros E h. split; [|split].
  - apply (proj1 (@parse_evaluation_result_verdict plain_unicode E _ h)).
    apply (proj1 (contains_Substr _ _)). vm_compute. reflexivity.
  - apply (proj1 (proj2 (@parse_evaluation_result_verdict plain_unicode E _ h))).
    + apply (proj1 (contains_false_not_Substr _ _)). vm_compute. reflexivity.
    + apply (proj1 (contains_Substr _ _)). vm_compute. reflexivity.
  - apply (proj1 (proj2 (proj2
             (@parse_evaluation_result_verdict plain_unicode E _ h)))).
    + apply (proj1 (contains_false_not_Substr _ _)). vm_compute. reflexivity.
    + apply (proj1 (contains_false_not_Substr _ _)). vm_compute. reflexivity.
    + intros m w. reflexivity.
Defined.

(** The verdict stored in a result prescribed by [judge_outcome] is the
    verdict of its evaluation text. *)
Lemma judge_outcome_consistent {U : Unicode} {E : Externals}
  (r : Res HttpResponse) :
  is_solved (judge_outcome r) = verdict (evaluation (judge_outcome r)).
Proof.
  unfold judge_outcome. destruct r as [response|e].
  - destruct (status_code response =? 200)%Z.
    + destruct (judge_pipeline response) as [t|e]; [reflexivity|].
      symmetry. apply verdict_unsolved_text.
    + symmetry. apply verdict_unsolved_text.
  - symmetry. apply verdict_unsolved_text.
Qed.

(** Whatever the sinks do, a result that the judge client returns carries
    the verdict of its own evaluation text. *)
Lemma evaluate_result_consistent {U : Unicode} {E : Externals}
  (q answer : pystr) (h h' : Heap) (r : EvaluationResult) :
  evaluate_with_llm_judge q answer h = (Ok r, h') ->
  is_solved r = verdict (evaluation r).
Proof.
  unfold evaluate_with_llm_judge.
  match goal with
  | |- context [try_except ?b ?hd] => set (body := b); set (handler := hd)
  end.
  assert (forall e h0, handler e h0 = (Ok r, h') ->
                       is_solved r = verdict (evaluation r)) as Hh.
  { intros e h0. unfold handler. cbv zeta.
    unfold bind, get_self, ext, ret. cbn [self world].
    repeat match goal with
      | |- context [log ?m ?w] =>
          destruct (log m w) as [[[]|?] ?]; cbn [self world]
      end; intros H; inversion H.
    symmetry. apply verdict_unsolved_text. }
  unfold try_except. unfold body. unfold bind at 1. unfold lift at 1.
  rewrite format_prompt.
  unfold bind at 1. unfold get_self. unfold bind at 1. unfold ext at 1.
  destruct (requests_post _ _ _ _ _) as [[response|e] w1]; [|apply Hh].
  destruct (status_code response =? 200)%Z.
  - unfold bind at 1. unfold lift at 1.
    destruct (json response) as [result|e]; [|apply Hh].
    unfold bind at 1. unfold lift at 1.
    destruct (extract_generated_text result) as [g|e]; [|apply Hh].
    unfold bind at 1. unfold lift at 1.
    destruct (last_evaluation g) as [t|e]; [|apply Hh].
    unfold bind at 1.
    destruct (parse_evaluation_result t _) as [[b|e] h2] eqn:Hp; [|apply Hh].
    unfold ret. intros H. inversion H; subst. cbn [is_solved evaluation].
    exact (proj1 (parse_value_is_verdict _ _ Hp)).
  - unfold bind, ext, ret. cbn [self world].
    repeat match goal with
      | |- context [log ?m ?w] =>
          destruct (log m w) as [[[]|?] ?]; cbn [self world]
      end; try apply Hh.
    intros H. inversion H. symmetry. apply verdict_unsolved_text.
Qed.

(** An exception leaves the judge client only if the log function raised
    it while the handler was reporting. *)
Lemma evaluate_raise_from_log {U : Unicode} {E : Externals}
  (q answer : pystr) (h h' : Heap) (e' : exn) :
  evaluate_with_llm_judge q answer h = (Raise e', h') ->
  exists m w w', log m w = (Raise e', w').
Proof.
  unfold evaluate_with_llm_judge.
  match goal with
  | |- context [try_except ?b ?hd] => set (body := b); set (handler := hd)
  end.
  assert (forall e h0, handler e h0 = (Raise e', h') ->
                       exists m w w', log m w = (Raise e', w')) as Hh.
  { intros e h0. unfold handler. cbv zeta.
    unfold bind, get_self, ext, ret. cbn [self world].
    repeat match goal with
      | |- context [log ?m ?w] =>
          let Hl := fresh "Hl" in
          destruct (log m w) as [[[]|?] ?] eqn:Hl; cbn [self world]
      end; intros H; inversion H; subst; eauto. }
  unfold try_except. unfold body. unfold bind at 1. unfold lift at 1.
  rewrite format_prompt.
  unfold bind at 1. unfold get_self. unfold bind at 1. unfold ext at 1.
  destruct (requests_post _ _ _ _ _) as [[response|e] w1]; [|apply Hh].
  destruct (status_code response =? 200)%Z.
  - unfold bind at 1. unfold lift at 1.
    destruct (json response) as [result|e]; [|apply Hh].
    unfold bind at 1. unfold lift at 1.
    destruct (extract_generated_text result) as [g|e]; [|apply Hh].
    unfold bind at 1. unfold lift at 1.
    destruct (last_evaluation g) as [t|e]; [|apply Hh].
    unfold bind at 1.
    destruct (parse_evaluation_result t _) as [[b|e] h2]; [|apply Hh].
    unfold ret. discriminate.
  - unfold bind, ext, ret. cbn [self world].
    repeat match goal with
      | |- context [log ?m ?w] =>
          destruct (log m w) as [[[]|?] ?]; cbn [self world]
      end; try apply Hh.
    discriminate.
Qed.

(** C3.  The judge client catches every failure of its own steps: an
    exception can leave it only if the log function raises while the
    handler reports.  With log sinks that accept the diagnostics it
    returns a result for every query and answer and leaves the collector
    untouched.  Rendering the prompt never fails; an exception of the
    request (connection error, timeout), a status other than 200, a body
    that is not JSON and any error while picking the text each give a
    result with [is_solved = false] whose evaluation text quotes the
    reason. *)
Theorem evaluate_with_llm_judge_never_raises {U : Unicode} {E : Externals}
  (q answer : pystr) (h : Heap) :
  py_format FAC_JUDGE_PROMPT [(str "query", PStr q); (str "answer", PStr answer)]
  = Ok (rendered_prompt q answer) /\
  (forall e' h',
      evaluate_with_llm_judge q answer h = (Raise e', h') ->
      exists m w w', log m w = (Raise e', w')) /\
  (log_never_raises ->
   exists r w',
     evaluate_with_llm_judge q answer h
     = (Ok r, {| self := self h; world := w' |}) /\
     (forall e w1,
         judge_call h q answer = (Raise e, w1) ->
         is_solved r = false /\
         evaluation r = PStr (str "Answer Status: Unsolved" ++ nl
                              ++ str "Reason: "
                              ++ str "Error calling LLM judge model: "
                              ++ exn_str e)) /\
     (forall response w1,
         judge_call h q answer = (Ok response, w1) ->
         status_code response <> 200%Z ->
         is_solved r = false /\
         evaluation r = PStr (str "Answer Status: Unsolved" ++ nl
                              ++ str "Reason: "
                              ++ str "API call failed: "
                              ++ decimal (status_code response)
                              ++ str " - " ++ text response)) /\
     (forall response w1 e,
         judge_call h q answer = (Ok response, w1) ->
         status_code response = 200%Z ->
         judge_pipeline response = Raise e ->
         is_solved r = false /\
         evaluation r = PStr (str "Answer Status: Unsolved" ++ nl
                              ++ str "Reason: "
                              ++ str "Error calling LLM judge model: "
                              ++ exn_str e))).
Proof.
  split; [apply format_prompt|].
  split; [intros e' h'; apply evaluate_raise_from_log|].
  intros Hlog.
  destruct (evaluate_refines Hlog q answer h) as [w' Hev].
  exists (judge_outcome (fst (judge_call h q answer))), w'.
  split; [exact Hev|]. split; [|split].
  - intros e w1 Hcall. rewrite Hcall. now split.
  - intros response w1 Hcall Hstatus. rewrite Hcall. cbn [fst judge_outcome].
    apply Z.eqb_neq in Hstatus. rewrite Hstatus. now split.
  - intros response w1 e Hcall Hstatus Hpipe. rewrite Hcall.
    cbn [fst judge_outcome]. rewrite Hstatus, Hpipe. now split.
Qed.

Lemma evaluate_with_llm_judge_never_raises_witness :
  let E := healthy (Raise read_timeout) in
  let h := fresh_heap E judge_url (Some []) [] in
  exists r w',
    @evaluate_with_llm_judge plain_unicode E (query colors_query) colors_answer h
    = (Ok r, {| self := self h; world := w' |}) /\
    is_solved r = false.
Proof.
  intros E h.
  assert (@log_never_raises E) as Hlog by (intros m w; reflexivity).
  destruct (proj2 (proj2 (@evaluate_with_llm_judge_never_raises plain_unicode E
                            (query colors_query) colors_answer h)) Hlog)
    as (r & w' & Hev & Hraise & _).
  exists r, w'. split; [exact Hev|].
  apply (Hraise read_timeout []). reflexivity.
Defined.

(** C10.  Once the request has returned a response, the judge client takes
    the decoding path exactly when the status code is 200: for any other
    code, 201 and 204 included, the result is unsolved and its text quotes
    the code and the body, whatever the body holds; for 200 the result is
    the one the decoding steps determine. *)
Theorem status_200_selects_success_path {U : Unicode} {E : Externals}
  (Hlog : log_never_raises) (q answer : pystr) (h : Heap)
  (response : HttpResponse) (w1 : W) :
  judge_call h q answer = (Ok response, w1) ->
  (status_code response <> 200%Z ->
   exists w',
     evaluate_with_llm_judge q answer h
     = (Ok {| evaluation :=
                PStr (str "Answer Status: Unsolved" ++ nl ++ str "Reason: "
                      ++ str "API call failed: "
                      ++ decimal (status_code response)
                      ++ str " - " ++ text response);
              is_solved := false |},
        {| self := self h; world := w' |})) /\
  (status_code response = 200%Z ->
   exists w',
     evaluate_with_llm_judge q answer h
     = (Ok match judge_pipeline response with
           | Ok t => {| evaluation := t; is_solved := verdict t |}
           | Raise e => unsolved_result (error_reason e)
           end,
        {| self := self h; world := w' |})).
Proof.
  intros Hcall.
  destruct (evaluate_refines Hlog q answer h) as [w' Hev].
  rewrite Hcall in Hev. cbn [fst judge_outcome] in Hev.
  split; intros Hstatus; exists w'.
  - apply Z.eqb_neq in Hstatus. rewrite Hstatus in Hev. exact Hev.
  - rewrite Hstatus in Hev. exact Hev.
Qed.

Lemma status_200_selects_success_path_witness :
  let E := healthy (Ok created_response) in
  let h := fresh_heap E judge_url (Some []) [] in
  exists w',
    @evaluate_with_llm_judge plain_unicode E (query colors_query) colors_answer h
    = (Ok {| evaluation :=
               PStr (str "Answer Status: Unsolved" ++ nl ++ str "Reason: "
                     ++ str "API call failed: 201 - created");
             is_solved := false |},
       {| self := self h; world := w' |}).
Proof.
  intros E h.
  assert (@log_never_raises E) as Hlog by (intros m w; reflexivity).
  apply (proj1 (@status_200_selects_success_path plain_unicode E Hlog
                  (query colors_query) colors_answer h created_response []
                  eq_refl)).
  discriminate.
Defined.

(** C9.  Parsing the evaluation text of a result of the judge client again
    reproduces its verdict: whatever the sinks do, a result that is
    returned and a re-parse that returns agree; with working log sinks the
    client does return a result and the re-parse does return, in any state.
    The failure text re-parses to [false] whatever reason it embeds,
    without any call to the log, because "unsolved" is looked for first. *)
Theorem evaluation_reparses_to_verdict {U : Unicode} {E : Externals}
  (q answer : pystr) (h : Heap) :
  (forall r h',
      evaluate_with_llm_judge q answer h = (Ok r, h') ->
      forall h2 b h3,
        parse_evaluation_result (evaluation r) h2 = (Ok b, h3) ->
        b = is_solved r) /\
  (log_never_raises ->
   exists r w',
     evaluate_with_llm_judge q answer h
     = (Ok r, {| self := self h; world := w' |}) /\
     forall h2, exists w3,
       parse_evaluation_result (evaluation r) h2
       = (Ok (is_solved r), {| self := self h2; world := w3 |})) /\
  (forall reason h2,
      parse_evaluation_result
        (PStr (str "Answer Status: Unsolved" ++ nl ++ str "Reason: " ++ reason)) h2
      = (Ok false, h2)).
Proof.
  split; [|split].
  - intros r h' Hev h2 b h3 Hparse.
    rewrite (evaluate_result_consistent _ _ _ Hev).
    exact (proj1 (parse_value_is_verdict _ _ Hparse)).
  - intros Hlog. destruct (evaluate_refines Hlog q answer h) as [w' Hev].
    exists (judge_outcome (fst (judge_call h q answer))), w'.
    split; [exact Hev|]. intros h2.
    rewrite judge_outcome_consistent. now apply parse_returns_verdict.
  - intros reason h2. apply parse_str_unsolved.
    change (str "Answer Status: Unsolved" ++ nl ++ str "Reason: " ++ reason)
      with (str "Answer Status: " ++ str "Unsolved"
            ++ (nl ++ str "Reason: " ++ reason)).
    now apply unsolved_word_found.
Qed.

Lemma evaluation_reparses_to_verdict_witness :
  let E := healthy (Ok malformed_response) in
  let h := fresh_heap E judge_url (Some []) [] in
  exists r w',
    @evaluate_with_llm_judge plain_unicode E (query colors_query) colors_answer h
    = (Ok r, {| self := self h; world := w' |}) /\
    exists w3,
      @parse_evaluation_result plain_unicode E (evaluation r) h
      = (Ok (is_solved r), {| self := self h; world := w3 |}).
Proof.
  intros E h.
  assert (@log_never_raises E) as Hlog by (intros m w; reflexivity).
  destruct (proj1 (proj2 (@evaluation_reparses_to_verdict plain_unicode E
                            (query colors_query) colors_answer h)) Hlog)
    as (r & w' & Hev & Hparse).
  exists r, w'. split; [exact Hev|]. exact (Hparse h).
Defined.

(** C4.  On a 200 response whose extracted text is the string [t], the text
    handed to the verdict parser and stored in the result is [t] cut at the
    last occurrence of ["Answer Status:"]: if the marker occurs, it has a
    last occurrence [t = pre ++ marker ++ post] and the text is
    [marker ++ post]; if it does not occur, the text is [t] itself. *)
Theorem truncation_at_last_marker {U : Unicode} {E : Externals}
  (Hlog : log_never_raises) (q answer : pystr) (h : Heap)
  (response : HttpResponse) (w1 : W) (result : pyval) (t : pystr) :
  judge_call h q answer = (Ok response, w1) ->
  status_code response = 200%Z ->
  json response = Ok result ->
  extract_generated_text result = Ok (PStr t) ->
  exists t' w',
    evaluate_with_llm_judge q answer h
    = (Ok {| evaluation := PStr t'; is_solved := verdict (PStr t') |},
       {| self := self h; world := w' |}) /\
    parse_evaluation_result (PStr t') {| self := self h; world := w1 |}
    = (Ok (verdict (PStr t')), {| self := self h; world := w' |}) /\
    (Substr (str "Answer Status:") t ->
     exists pre post,
       LastOccurrence (str "Answer Status:") t pre post /\
       t' = str "Answer Status:" ++ post) /\
    (forall pre post,
        LastOccurrence (str "Answer Status:") t pre post ->
        t' = str "Answer Status:" ++ post) /\
    (~ Substr (str "Answer Status:") t -> t' = t).
Proof.
  intros Hcall Hstatus Hjson Hextract.
  set (marker := str "Answer Status:").
  set (t' := if contains marker t then slice_from t (rfind marker t) else t).
  assert (judge_pipeline response = Ok (PStr t')) as Hpipe.
  { unfold judge_pipeline. rewrite Hjson, Hextract. apply last_evaluation_str. }
  destruct (parse_returns_verdict (PStr t') {| self := self h; world := w1 |} Hlog)
    as [w' Hparse].
  exists t', w'. split; [|split; [exact Hparse|]].
  { eapply evaluate_success_path; [exact Hcall|exact Hstatus|exact Hpipe|].
    exact Hparse. }
  assert (forall pre post, LastOccurrence marker t pre post ->
                           t' = marker ++ post) as Hlast.
  { intros pre post HL. unfold t'.
    assert (contains marker t = true) as ->.
    { apply contains_Substr. destruct HL as [-> _]. now exists pre, post. }
    exact (slice_at_rfind HL). }
  split; [|split; [exact Hlast|]].
  - intros Hsub. destruct (Substr_has_last Hsub) as (pre & post & HL).
    exists pre, post. split; [exact HL|]. exact (Hlast _ _ HL).
  - intros Hno. unfold t'.
    now rewrite (proj2 (contains_false_not_Substr _ _) Hno).
Qed.

Lemma truncation_at_last_marker_witness :
  let E := healthy (judge_says 200 echo_body) in
  let h := fresh_heap E judge_url (Some []) [] in
  exists t' w',
    @evaluate_with_llm_judge plain_unicode E (query colors_query) colors_answer h
    = (Ok {| evaluation := PStr t'; is_solved := @verdict plain_unicode (PStr t') |},
       {| self := self h; world := w' |}) /\
    exists pre post,
      LastOccurrence (str "Answer Status:") echoed_transcript pre post /\
      t' = str "Answer Status:" ++ post.
Proof.
  intros E h.
  assert (@log_never_raises E) as Hlog by (intros m w; reflexivity).
  destruct (@truncation_at_last_marker plain_unicode E Hlog
              (query colors_query) colors_answer h
              {| status_code := 200; text := []; json := Ok echo_body |} []
              echo_body echoed_transcript eq_refl eq_refl eq_refl eq_refl)
    as (t' & w' & Hev & _ & Hsub & _ & _).
  exists t', w'. split; [exact Hev|].
  apply Hsub. exists [], (str " Solved" ++ nl ++ str "Reason: example" ++ nl
                            ++ str "Answer Status: Unsolved" ++ nl
                            ++ str "Reason: incomplete").
  reflexivity.
Defined.

(** The echoed transcript, run: only the final verdict is judged. *)
Example echoed_transcript_run :
  let E := healthy (judge_says 200 echo_body) in
  let h := fresh_heap E judge_url (Some []) [] in
  @evaluate_with_llm_judge plain_unicode E (query colors_query) colors_answer h
  = (Ok {| evaluation := PStr (str "Answer Status: Unsolved" ++ nl
                               ++ str "Reason: incomplete");
           is_solved := false |}, h).
Proof. vm_compute. reflexivity. Qed.

(** The key tests of the judge client on a JSON object pick what the
    specification's priority rule picks. *)
Lemma extract_from_object {U : Unicode} (d : list (pystr * pyval)) :
  extract_generated_text (PDict d) = Ok (text_by_priority d).
Proof.
  unfold extract_generated_text, text_by_priority, priority_keys.
  cbn [py_contains py_getitem first_present].
  rewrite !dict_has_get.
  destruct (dict_get d (str "generated_text")); [reflexivity|].
  destruct (dict_get d (str "text")); [reflexivity|].
  destruct (dict_get d (str "response")); [reflexivity|].
  destruct (dict_get d (str "output")); reflexivity.
Qed.

(** When the four tests are defined and false, the body is stringified. *)
Lemma extract_fallback {U : Unicode} (result : pyval) :
  (forall k, In k priority_keys -> py_contains k result = Ok false) ->
  extract_generated_text result = Ok (PStr (py_str result)).
Proof.
  intros H. unfold extract_generated_text.
  rewrite !H; [reflexivity| | | |]; unfold priority_keys; simpl; auto.
Qed.

(** A scalar body fails the first key test. *)
Lemma extract_from_scalar {U : Unicode} (result : pyval) :
  is_scalar result = true ->
  extract_generated_text result
  = Raise (TypeError (str "argument of type '" ++ type_name result
                      ++ str "' is not iterable")).
Proof. destruct result; try discriminate; reflexivity. Qed.

(** With working sinks, a 200 response whose body decodes is judged on the
    outcome of the key tests. *)
Lemma evaluate_after_extraction {U : Unicode} {E : Externals}
  (Hlog : log_never_raises) (q answer : pystr) (h : Heap)
  (response : HttpResponse) (w1 : W) (result : pyval) :
  judge_call h q answer = (Ok response, w1) ->
  status_code response = 200%Z ->
  json response = Ok result ->
  exists w',
    evaluate_with_llm_judge q answer h
    = (Ok match extract_generated_text result with
          | Ok g => judged g
          | Raise e => unsolved_result (error_reason e)
          end,
       {| self := self h; world := w' |}).
Proof.
  intros Hcall Hstatus Hjson.
  destruct (evaluate_refines Hlog q answer h) as [w' Hev].
  rewrite Hcall in Hev. cbn [fst judge_outcome] in Hev.
  rewrite Hstatus in Hev. cbn [Z.eqb Pos.eqb] in Hev.
  unfold judge_pipeline in Hev. rewrite Hjson in Hev.
  exists w'. rewrite Hev. clear Hev Hcall Hjson.
  unfold judged. destruct (extract_generated_text result); reflexivity.
Qed.

(** C5 (amended).  For a 200 response whose JSON body is an object, the
    judge client judges the value of the first key present among
    [generated_text], [text], [response], [output], in that order, and the
    [str] of the whole object when none is present.  The fallback is also
    taken for an array or a string on which the four tests are false.  The
    body [{"foo": "Answer Status\nSolved"}] is judged on its rendering and
    counts as solved.  A body that is [null], a boolean or a number is not
    stringified: the first test raises [TypeError] and the result is
    unsolved. *)
Theorem generated_text_key_priority {U : Unicode} {E : Externals}
  (Hlog : log_never_raises) (q answer : pystr) (h : Heap)
  (response : HttpResponse) (w1 : W) (result : pyval) :
  judge_call h q answer = (Ok response, w1) ->
  status_code response = 200%Z ->
  json response = Ok result ->
  (forall d, result = PDict d ->
     exists w',
       evaluate_with_llm_judge q answer h
       = (Ok (judged (text_by_priority d)),
          {| self := self h; world := w' |})) /\
  ((forall k, In k priority_keys -> py_contains k result = Ok false) ->
   exists w',
     evaluate_with_llm_judge q answer h
     = (Ok (judged (PStr (py_str result))),
        {| self := self h; world := w' |})) /\
  (result = foo_body ->
   evaluate_with_llm_judge q answer h
   = (Ok {| evaluation := PStr (str "{'foo': 'Answer Status\nSolved'}");
            is_solved := true |},
      {| self := self h; world := w1 |})) /\
  (is_scalar result = true ->
   exists e w',
     exn_type e = "TypeError"%string /\
     evaluate_with_llm_judge q answer h
     = (Ok (unsolved_result (error_reason e)),
        {| self := self h; world := w' |})).
Proof.
  intros Hcall Hstatus Hjson.
  destruct (evaluate_after_extraction Hlog q answer h Hcall Hstatus Hjson)
    as [w' Hev].
  split; [|split; [|split]].
  - intros d ->. exists w'. rewrite Hev, extract_from_object. reflexivity.
  - intros Hno. exists w'. rewrite Hev, (extract_fallback _ Hno). reflexivity.
  - intros ->. clear Hev.
    eapply evaluate_success_path; [exact Hcall|exact Hstatus| |].
    + unfold judge_pipeline. rewrite Hjson. reflexivity.
    + apply parse_str_solved; reflexivity.
  - intros Hscalar.
    exists (TypeError (str "argument of type '" ++ type_name result
                       ++ str "' is not iterable")), w'.
    split; [reflexivity|].
    rewrite Hev, (extract_from_scalar _ Hscalar). reflexivity.
Qed.

Lemma generated_text_key_priority_witness :
  let E := healthy (judge_says 200 two_key_body) in
  let h := fresh_heap E judge_url (Some []) [] in
  exists w',
    @evaluate_with_llm_judge plain_unicode E (query colors_query) colors_answer h
    = (Ok {| evaluation :=
               PStr (str "Answer Status: Solved" ++ nl ++ str "Reason: complete");
             is_solved := true |},
       {| self := self h; world := w' |}).
Proof.
  intros E h.
  assert (@log_never_raises E) as Hlog by (intros m w; reflexivity).
  destruct (proj1 (@generated_text_key_priority plain_unicode E Hlog
                     (query colors_query) colors_answer h
                     {| status_code := 200; text := [];
                        json := Ok two_key_body |} [] two_key_body
                     eq_refl eq_refl eq_refl)
              _ eq_refl) as [w' Hev].
  exists w'. rewrite Hev. reflexivity.
Defined.

(** The claim of C5 as it is written fails on a body that has no keys.  A
    200 response with the JSON body [null] has none of the four keys, and
    stringifying it would give the text ["None"]; the judge client returns
    the text of the [TypeError] its first key test raises instead. *)
Lemma generated_text_null_body_not_stringified :
  let E := healthy (judge_says 200 PNone) in
  let h := fresh_heap E judge_url (Some []) [] in
  let r := fst (@evaluate_with_llm_judge plain_unicode E
                  (query colors_query) colors_answer h) in
  (forall k, In k priority_keys -> py_contains k PNone <> Ok true) /\
  @py_str plain_unicode PNone = str "None" /\
  r = Ok {| evaluation :=
              PStr (str "Answer Status: Unsolved" ++ nl
                    ++ str "Reason: Error calling LLM judge model: "
                    ++ str "argument of type 'NoneType' is not iterable");
            is_solved := false |} /\
  r <> Ok (@judged plain_unicode (PStr (@py_str plain_unicode PNone))) /\
  (forall solved,
      r <> Ok {| evaluation := PStr (@py_str plain_unicode PNone);
                 is_solved := solved |}).
Proof.
  intros E h r.
  assert (r = Ok {| evaluation :=
                      PStr (str "Answer Status: Unsolved" ++ nl
                            ++ str "Reason: Error calling LLM judge model: "
                            ++ str "argument of type 'NoneType' is not iterable");
                    is_solved := false |}) as Hr
      by (vm_compute; reflexivity).
  split; [intros k _; discriminate|].
  split; [reflexivity|]. split; [exact Hr|].
  rewrite Hr. clear Hr. split.
  - intros H. vm_compute in H. discriminate H.
  - intros solved H. vm_compute in H. discriminate H.
Qed.

Lemma count_solved_count_occ (l : list bool) :
  count_solved l = Z.of_nat (count_occ bool_dec l true).
Proof.
  unfold count_solved.
  assert (forall acc,
             fold_left (fun acc (solved : bool) =>
                          if solved then (acc + 1)%Z else acc) l acc
             = (acc + Z.of_nat (count_occ bool_dec l true))%Z) as H.
  { induction l as [|b l IH]; intros acc; simpl.
    - lia.
    - rewrite IH. destruct b; simpl.
      + lia.
      + reflexivity. }
  apply H.
Qed.

(** The rate [report_results] computes is [float_rate] of the log. *)
Lemma solve_rate_float_rate {E : Externals} (l : list bool) (h : Heap) :
  (if (Z.of_nat (List.length l) >? 0)%Z
   then lift (py_truediv (count_solved l) (Z.of_nat (List.length l)))
   else ret (S754_zero false)) h
  = (float_rate l, h).
Proof.
  rewrite count_solved_count_occ. destruct l as [|b l]; [reflexivity|].
  unfold float_rate, lift.
  now replace (Z.of_nat (List.length (b :: l)) >? 0)%Z with true
    by (symmetry; apply Z.gtb_lt; simpl List.length; lia).
Qed.

(** Whatever the sink does, the value [report_results] returns is
    [float_rate] of the log, and the call leaves the collector alone. *)
Lemma report_results_value {E : Externals}
  (h h' : Heap) (l : list bool) (res : list (pystr * spec_float)) :
  query_results (self h) = Some l ->
  report_results h = (Ok res, h') ->
  exists rate,
    float_rate l = Ok rate /\
    res = [(str "Average Task Success (FAC Evaluator)", rate)] /\
    self h' = self h.
Proof.
  intros Hl. unfold report_results. unfold bind at 1. unfold get_self.
  rewrite Hl. cbv zeta. unfold bind at 1. rewrite solve_rate_float_rate.
  destruct (float_rate l) as [rate|e]; [|discriminate].
  unfold bind, ext, ret. cbn [self world].
  destruct (log _ (world h)) as [[[]|e] w1]; intros H; inversion H.
  exists rate. repeat split.
Qed.

(** With a working sink [report_results] returns on every initialized
    collector. *)
Lemma report_results_returns {E : Externals}
  (Hlog : log_never_raises) (h : Heap) (l : list bool) (rate : spec_float) :
  query_results (self h) = Some l ->
  float_rate l = Ok rate ->
  exists w',
    report_results h
    = (Ok [(str "Average Task Success (FAC Evaluator)", rate)],
       {| self := self h; world := w' |}).
Proof.
  intros Hl Hrate. unfold report_results. unfold bind at 1. unfold get_self.
  rewrite Hl. cbv zeta. unfold bind at 1. rewrite solve_rate_float_rate, Hrate.
  step_log Hlog. now exists w.
Qed.

(** On the log [true, false, false] the quotient is rounded: the float is
    [6004799503160661 * 2^-54], which [repr] prints as 0.3333333333333333. *)
Example float_rate_one_third :
  float_rate [true; false; false]
  = Ok (S754_finite false 6004799503160661 (-54)).
Proof. vm_compute. reflexivity. Qed.

(** The division on operands beyond the range of exact floats, on a zero
    dividend, on a quotient that underflows, on one that overflows, and on
    a zero divisor. *)
Example py_truediv_examples :
  py_truediv 3 4 = Ok (S754_finite false 6755399441055744 (-53)) /\
  py_truediv (2 ^ 53 + 1) 1 = Ok (S754_finite false 4503599627370496 1) /\
  py_truediv (2 ^ 60 + 1) 3 = Ok (S754_finite false 6004799503160661 6) /\
  py_truediv 0 (-5) = Ok (S754_zero true) /\
  py_truediv 1 (10 ^ 400) = Ok (S754_zero false) /\
  py_truediv (10 ^ 400) 7
  = Raise (OverflowError (str "integer division result too large for a float")) /\
  py_truediv 1 0 = Raise ZeroDivisionError.
Proof.
  repeat (split; [vm_compute; reflexivity|]). vm_compute. reflexivity.
Qed.

(** C6.  On an initialized collector and with a log sink that accepts the
    summary line, [report_results] returns one entry, under the name that
    [get_collected_metrics_names] announces.  Its value is the float [0.0]
    for an empty log and the float that [/] gives for the number of [true]
    entries and the length of the log otherwise.  The division never
    raises; the value is a finite float (neither a NaN nor an infinity), it
    lies between 0 and 1 and differs from the exact share of [true] entries
    by [2^-54] at most.  For the log [true, true, false, true] it is the
    float 0.75. *)
Theorem report_results_rate {U : Unicode} {E : Externals}
  (Hlog : log_never_raises) (h : Heap) (l : list bool) :
  query_results (self h) = Some l ->
  exists (rate : spec_float) (v : Q) (w' : W),
    report_results h
    = (Ok [(str "Average Task Success (FAC Evaluator)", rate)],
       {| self := self h; world := w' |}) /\
    (l = [] -> rate = S754_zero false) /\
    (l <> [] ->
     py_truediv (Z.of_nat (count_occ bool_dec l true))
       (Z.of_nat (List.length l)) = Ok rate) /\
    b64_to_Q rate = Some v /\
    (0 <= v)%Q /\ (v <= 1)%Q /\
    (Qabs (v - success_rate l) <= 1 # 18014398509481984)%Q /\
    (l = [true; true; false; true] ->
     rate = S754_finite false 6755399441055744 (-53) /\ (v == 0.75)%Q) /\
    get_collected_metrics_names = [str "Average Task Success (FAC Evaluator)"].
Proof.
  intros Hl.
  destruct (float_rate_ok l) as (rate & v & Hrate & Hv & H0 & H1 & Herr).
  destruct (report_results_returns Hlog h Hl Hrate) as [w' Hr].
  exists rate, v, w'.
  split; [exact Hr|]. clear Hr.
  split; [|split; [|split; [exact Hv|split; [exact H0|split; [exact H1|
    split; [exact Herr|split; [|reflexivity]]]]]]].
  - intros ->. injection Hrate as <-. reflexivity.
  - intros Hne. destruct l; [now elim Hne|exact Hrate].
  - intros ->. vm_compute in Hrate. injection Hrate as <-.
    split; [reflexivity|].
    injection Hv as <-. reflexivity.
Qed.

Lemma report_results_rate_witness :
  let E := healthy (judge_says 200 solved_body) in
  let h := fresh_heap E judge_url (Some [true; true; false; true]) [] in
  exists w',
    @report_results E h
    = (Ok [(str "Average Task Success (FAC Evaluator)",
            S754_finite false 6755399441055744 (-53))],
       {| self := self h; world := w' |}).
Proof.
  intros E h.
  assert (@log_never_raises E) as Hlog by (intros m w; reflexivity).
  destruct (@report_results_rate plain_unicode E Hlog h
              [true; true; false; true] eq_refl)
    as (rate & v & w' & Hr & _ & _ & _ & _ & _ & _ & Hex & _).
  destruct (Hex eq_refl) as [-> _]. exists w'. exact Hr.
Defined.

(** The size of the template and the places of its two fields. *)
Example judge_prompt_layout :
  N.of_nat (List.length FAC_JUDGE_PROMPT) = 5087%N /\
  N.of_nat (List.length PROMPT_HEAD) = 4929%N /\
  PROMPT_MID = nl ++ str "Answer: " ++ nl /\
  N.of_nat (List.length PROMPT_TAIL) = 133%N.
Proof. repeat split; vm_compute; reflexivity. Qed.

(** C7.  The judge template consists of three stretches of brace-free text
    around the placeholders [{query}] and [{answer}], and formatting it
    with any query and any answer returns, without raising, the three
    stretches with the query and the answer put verbatim, once each, in
    place of the placeholders.  Braces inside the query or the answer are
    copied like any other character. *)
Theorem judge_prompt_two_slot_fill {U : Unicode} (q answer : pystr) :
  py_format FAC_JUDGE_PROMPT [(str "query", PStr q); (str "answer", PStr answer)]
  = Ok (PROMPT_HEAD ++ q ++ PROMPT_MID ++ answer ++ PROMPT_TAIL) /\
  FAC_JUDGE_PROMPT
  = PROMPT_HEAD ++ str "{query}" ++ PROMPT_MID ++ str "{answer}" ++ PROMPT_TAIL /\
  no_brace PROMPT_HEAD = true /\
  no_brace PROMPT_MID = true /\
  no_brace PROMPT_TAIL = true.
Proof.
  split; [apply format_prompt|].
  repeat split; vm_compute; reflexivity.
Qed.

(** Braces in the answer do not disturb the fill. *)
Example format_answer_with_braces {U : Unicode} :
  py_format FAC_JUDGE_PROMPT
    [(str "query", PStr (str "q")); (str "answer", PStr (str "{x} }{ {0!r:>3}"))]
  = Ok (PROMPT_HEAD ++ str "q" ++ PROMPT_MID ++ str "{x} }{ {0!r:>3}"
        ++ PROMPT_TAIL).
Proof. apply format_prompt. Qed.

(** The errors of the scanner, on templates other than the judge's. *)
Example format_errors {U : Unicode} :
  py_format (str "a}b") [] = Raise (ValueError (str "Single '}' encountered in format string")) /\
  py_format (str "{nobody}") [(str "query", PStr [])] = Raise (KeyError (str "nobody")) /\
  py_format (str "{}") [] = Raise (IndexError (str "Replacement index 0 out of range for positional args tuple")) /\
  py_format (str "{{{query}}}") [(str "query", PStr (str "x"))] = Ok (str "{x}").
Proof. repeat split. Qed.

(** C8.  The constructor reads [FAC_JUDGE_MODEL_URL] after the base class
    has been initialized.  If the variable is unset or empty it raises
    [ValueError] and no collector exists; a collector that has been
    constructed carries the non-empty value of the variable, and its log is
    still [None]. *)
Theorem init_requires_judge_url {E : Externals}
  (st : settings) (model_config : model_configs) (w : W) :
  (forall w1,
      base_init st model_config w = (Ok tt, w1) ->
      getenv (str "FAC_JUDGE_MODEL_URL") w1 = None \/
      getenv (str "FAC_JUDGE_MODEL_URL") w1 = Some [] ->
      __init__ st model_config w
      = (Raise (ValueError
                  (str "FAC_JUDGE_MODEL_URL environment variable is required")),
         w1)) /\
  (forall c w1,
      __init__ st model_config w = (Ok c, w1) ->
      getenv (str "FAC_JUDGE_MODEL_URL") w1 = Some (judge_model_url c) /\
      judge_model_url c <> [] /\
      query_results c = None).
Proof.
  unfold __init__. split.
  - intros w1 Hbase Henv. rewrite Hbase.
    destruct Henv as [-> | ->]; reflexivity.
  - intros c w1.
    destruct (base_init st model_config w) as [[[]|e] w2]; [|discriminate].
    destruct (getenv (str "FAC_JUDGE_MODEL_URL") w2) as [[|x url]|] eqn:Henv;
      try discriminate.
    intros H. injection H as <- <-. cbn [judge_model_url query_results].
    repeat split; [exact Henv|discriminate].
Qed.

Lemma init_requires_judge_url_witness :
  @__init__ (scripted None (judge_says 200 solved_body) true) tt tt []
  = (Raise (ValueError
              (str "FAC_JUDGE_MODEL_URL environment variable is required")), [])
  /\
  @__init__ (scripted (Some []) (judge_says 200 solved_body) true) tt tt []
  = (Raise (ValueError
              (str "FAC_JUDGE_MODEL_URL environment variable is required")), []).
Proof.
  split.
  - apply (proj1 (@init_requires_judge_url
                    (scripted None (judge_says 200 solved_body) true) tt tt []));
      [reflexivity|left; reflexivity].
  - apply (proj1 (@init_requires_judge_url
                    (scripted (Some []) (judge_says 200 solved_body) true)
                    tt tt []));
      [reflexivity|right; reflexivity].
Defined.

(** With a verbose sink that never raises, a call of
    [register_measurement] on an initialized collector appends exactly one
    entry, whatever else fails; so after [n] calls the log has grown by
    [n]. *)
Lemma register_measurement_appends_one {U : Unicode} {E : Externals}
  (Hv : log_verbose_never_raises) (query_spec : QuerySpecification)
  (response : option agent_response) (h : Heap) (l : list bool) :
  query_results (self h) = Some l ->
  exists b h',
    register_measurement query_spec response h = (Ok tt, h') /\
    query_results (self h') = Some (l ++ [b]).
Proof.
  intros Hl.
  destruct (register_measurement_appends query_spec response h Hl)
    as (bs & h' & Hrun & Hres & _ & _ & Hone).
  destruct (Hone Hv) as [b ->]. now exists b, h'.
Qed.

(** C2, at a failing input.  The collector is set up, the judge answers
    200 with a solved verdict, and the verbose log raises: the call stores
    the verdict, the log call that follows raises, and the handler stores
    [False] as well.  One call has added two entries. *)
Theorem register_measurement_double_append :
  let E := verbose_broken (judge_says 200 solved_body) in
  let h := fresh_heap E judge_url None [] in
  exists h1 h2,
    @set_up E h = (Ok tt, h1) /\
    query_results (self h1) = Some [] /\
    @register_measurement plain_unicode E colors_query (Some colors_answer) h1
    = (Ok tt, h2) /\
    query_results (self h2) = Some [true; false].
Proof.
  intros E h. eexists. eexists.
  split; [vm_compute; reflexivity|].
  split; [reflexivity|].
  split; [vm_compute; reflexivity|reflexivity].
Qed.

(** The same call with a working verbose log adds the verdict alone. *)
Example register_measurement_single_append :
  let E := healthy (judge_says 200 solved_body) in
  let h := fresh_heap E judge_url (Some []) [] in
  query_results
    (self (snd (@register_measurement plain_unicode E colors_query
                  (Some colors_answer) h)))
  = Some [true].
Proof. vm_compute. reflexivity. Qed.

(* ================================================================= *)
(** * Further properties: recording measurements *)

Lemma append_uninitialized {E : Externals} (b : bool) (h : Heap) :
  query_results (self h) = None ->
  query_results_append b h = (Raise (AttributeError PNone "append"), h).
Proof.
  intros Hn. unfold query_results_append, bind, get_self, raise.
  now rewrite Hn.
Qed.

Lemma register_uninitialized {U : Unicode} {E : Externals}
  (query_spec : QuerySpecification) (response : option agent_response)
  (h : Heap) :
  query_results (self h) = None ->
  exists h',
    register_measurement query_spec response h
    = (Raise (AttributeError PNone "append"), h') /\
    self h' = self h.
Proof.
  intros Hn. unfold register_measurement. cbv zeta. unfold try_except.
  unfold bind at 1.
  destruct (ext (extract_final_answer_from_response response) h)
    as [[fa|e] h1] eqn:E1;
    pose proof (@run_keeps_self _ _ _ _ _ _ (keeps_ext _) E1) as S1.
  2:{ rewrite (@append_uninitialized _ false h1) by (rewrite S1; exact Hn).
      exists h1. split; [reflexivity|exact S1]. }
  unfold bind at 1.
  destruct (ext (strip_think fa) h1) as [[fa'|e] h2] eqn:E2;
    pose proof (@run_keeps_self _ _ _ _ _ _ (keeps_ext _) E2) as S2.
  2:{ rewrite (@append_uninitialized _ false h2) by (rewrite S2, S1; exact Hn).
      exists h2. split; [reflexivity|]. rewrite S2. exact S1. }
  unfold bind at 1.
  destruct (evaluate_with_llm_judge (query query_spec) fa' h2)
    as [[er|e] h3] eqn:E3;
    pose proof (@run_keeps_self _ _ _ _ _ _ (@evaluate_keeps_self _ _ _ _) E3)
    as S3.
  2:{ rewrite (@append_uninitialized _ false h3) by (rewrite S3, S2, S1; exact Hn).
      exists h3. split; [reflexivity|]. rewrite S3, S2. exact S1. }
  unfold bind at 1.
  rewrite (@append_uninitialized _ (is_solved er) h3) by (rewrite S3, S2, S1; exact Hn).
  cbv beta iota.
  rewrite (@append_uninitialized _ false h3) by (rewrite S3, S2, S1; exact Hn).
  exists h3. split; [reflexivity|]. rewrite S3, S2. exact S1.
Qed.

(** X1.  On an initialized collector [register_measurement] never raises,
    whatever the imported functions do: it returns, keeps the judge URL and
    every entry already in the log, and adds one entry or two. *)
Theorem register_measurement_never_aborts {U : Unicode} {E : Externals}
  (query_spec : QuerySpecification) (response : option agent_response)
  (h : Heap) (l : list bool) :
  query_results (self h) = Some l ->
  exists bs h',
    register_measurement query_spec response h = (Ok tt, h') /\
    query_results (self h') = Some (l ++ bs) /\
    judge_model_url (self h') = judge_model_url (self h) /\
    (1 <= List.length bs <= 2)%nat.
Proof.
  intros Hl.
  destruct (register_measurement_appends query_spec response h Hl)
    as (bs & h' & Hrun & Hres & Hurl & Hshape & _).
  exists bs, h'. repeat (split; [assumption|]).
  destruct Hshape as [-> | [b [-> | ->]]]; simpl; lia.
Qed.

Lemma register_measurement_never_aborts_witness :
  let E := verbose_broken (judge_says 200 solved_body) in
  let h := fresh_heap E judge_url (Some [false]) [] in
  exists bs h',
    @register_measurement plain_unicode E colors_query (Some colors_answer) h
    = (Ok tt, h') /\
    query_results (self h') = Some ([false] ++ bs) /\
    (1 <= List.length bs <= 2)%nat.
Proof.
  intros E h.
  destruct (@register_measurement_never_aborts plain_unicode E colors_query
              (Some colors_answer) h [false] eq_refl)
    as (bs & h' & Hrun & Hres & _ & Hlen).
  exists bs, h'. split; [exact Hrun|]. split; [exact Hres|exact Hlen].
Defined.

(** X2.  If the answer cannot be obtained, because
    [extract_final_answer_from_response] or [strip_think] raises, the call
    records exactly one [False] and does nothing else: the judge is not
    called and nothing is logged, the world is left as the failing function
    left it. *)
Theorem register_measurement_without_answer {U : Unicode} {E : Externals}
  (query_spec : QuerySpecification) (response : option agent_response)
  (h : Heap) (l : list bool) (e : exn) (w1 : W) :
  query_results (self h) = Some l ->
  extract_final_answer_from_response response (world h) = (Raise e, w1) \/
  (exists fa w0,
      extract_final_answer_from_response response (world h) = (Ok fa, w0) /\
      strip_think fa w0 = (Raise e, w1)) ->
  register_measurement query_spec response h
  = (Ok tt,
     {| self := {| query_results := Some (l ++ [false]);
                   judge_model_url := judge_model_url (self h) |};
        world := w1 |}).
Proof.
  intros Hl Hfail. unfold register_measurement. cbv zeta. unfold try_except.
  unfold bind at 1. unfold ext at 1.
  destruct Hfail as [Hx | (fa & w0 & Hx & Hs)]; rewrite Hx.
  - rewrite (@append_initialized _ false _ l) by exact Hl. reflexivity.
  - unfold bind at 1. unfold ext at 1. cbn [world self]. rewrite Hs.
    rewrite (@append_initialized _ false _ l) by exact Hl. reflexivity.
Qed.

Lemma register_measurement_without_answer_witness :
  let E := broken_extraction (judge_says 200 solved_body) in
  let h := fresh_heap E judge_url (Some [true]) [] in
  @register_measurement plain_unicode E colors_query (Some colors_answer) h
  = (Ok tt,
     {| self := {| query_results := Some ([true] ++ [false]);
                   judge_model_url := judge_model_url (self h) |};
        world := [] |}).
Proof.
  intros E h.
  exact (@register_measurement_without_answer plain_unicode E colors_query
           (Some colors_answer) h [true]
           {| exn_type := "KeyError"; exn_str := str "'messages'" |} []
           eq_refl (or_introl eq_refl)).
Defined.

(** X3.  On a collector whose log was never initialized by [set_up],
    [register_measurement] does raise: the [append] in the handler fails
    like the one in the body, and the [AttributeError] reaches the caller.
    The collector is left as it was. *)
Theorem register_measurement_needs_set_up {U : Unicode} {E : Externals}
  (query_spec : QuerySpecification) (response : option agent_response)
  (h : Heap) :
  query_results (self h) = None ->
  exists h',
    register_measurement query_spec response h
    = (Raise {| exn_type := "AttributeError";
                exn_str := str "'NoneType' object has no attribute 'append'" |},
       h') /\
    self h' = self h.
Proof. apply register_uninitialized. Qed.

Lemma register_measurement_needs_set_up_witness :
  let E := healthy (judge_says 200 solved_body) in
  let h := fresh_heap E judge_url None [] in
  exists h',
    @register_measurement plain_unicode E colors_query (Some colors_answer) h
    = (Raise {| exn_type := "AttributeError";
                exn_str := str "'NoneType' object has no attribute 'append'" |},
       h') /\
    self h' = self h.
Proof.
  intros E h.
  exact (@register_measurement_needs_set_up plain_unicode E colors_query
           (Some colors_answer) h eq_refl).
Defined.

Lemma init_leaves_log_unset {E : Externals}
  (st : settings) (model_config : model_configs) (w w1 : W)
  (c : FACMetricCollector) :
  __init__ st model_config w = (Ok c, w1) -> query_results c = None.
Proof.
  unfold __init__.
  destruct (base_init st model_config w) as [[[]|e] w2]; [|discriminate].
  destruct (getenv (str "FAC_JUDGE_MODEL_URL") w2) as [[|x url]|];
    try discriminate.
  intros H. injection H as <- _. reflexivity.
Qed.

(** X4.  A collector as the constructor leaves it cannot measure or report
    yet: [report_results] raises [TypeError] at [len(None)] before anything
    is logged, and every [register_measurement] raises [AttributeError]. *)
Theorem fresh_collector_needs_set_up {U : Unicode} {E : Externals}
  (st : settings) (model_config : model_configs) (w w1 : W)
  (c : FACMetricCollector) :
  __init__ st model_config w = (Ok c, w1) ->
  report_results {| self := c; world := w1 |}
  = (Raise {| exn_type := "TypeError";
              exn_str := str "object of type 'NoneType' has no len()" |},
     {| self := c; world := w1 |}) /\
  forall query_spec response,
    exists h',
      register_measurement query_spec response {| self := c; world := w1 |}
      = (Raise {| exn_type := "AttributeError";
                  exn_str := str "'NoneType' object has no attribute 'append'" |},
         h') /\
      self h' = c.
Proof.
  intros Hinit. apply init_leaves_log_unset in Hinit. split.
  - unfold report_results. unfold bind at 1. unfold get_self.
    cbn [self]. rewrite Hinit. reflexivity.
  - intros query_spec response.
    exact (register_uninitialized query_spec response
             {| self := c; world := w1 |} Hinit).
Qed.

Lemma fresh_collector_needs_set_up_witness :
  let E := healthy (judge_says 200 solved_body) in
  let c := {| query_results := None; judge_model_url := judge_url |} in
  @report_results E {| self := c; world := [] |}
  = (Raise {| exn_type := "TypeError";
              exn_str := str "object of type 'NoneType' has no len()" |},
     {| self := c; world := [] |}).
Proof.
  intros E c.
  exact (proj1 (@fresh_collector_needs_set_up plain_unicode E tt tt [] [] c
                  eq_refl)).
Defined.

Lemma measure_all_appends {U : Unicode} {E : Externals}
  (calls : list (QuerySpecification * option agent_response)) :
  forall (h : Heap) (l : list bool),
    query_results (self h) = Some l ->
    exists bs h',
      measure_all calls h = (Ok tt, h') /\
      query_results (self h') = Some (l ++ bs) /\
      judge_model_url (self h') = judge_model_url (self h) /\
      (List.length calls <= List.length bs <= 2 * List.length calls)%nat /\
      (log_verbose_never_raises -> List.length bs = List.length calls).
Proof.
  induction calls as [|[query_spec response] calls IH]; intros h l Hl.
  - exists [], h. cbn [measure_all]. unfold ret.
    rewrite app_nil_r. repeat split; auto.
  - destruct (register_measurement_appends query_spec response h Hl)
      as (bs1 & h1 & Hrun & Hres & Hurl & Hshape & Hone).
    destruct (IH h1 (l ++ bs1) Hres)
      as (bs2 & h2 & Hrun2 & Hres2 & Hurl2 & Hlen2 & Hone2).
    exists (bs1 ++ bs2), h2. cbn [measure_all]. unfold bind.
    rewrite Hrun. split; [exact Hrun2|].
    split; [rewrite Hres2; now rewrite app_assoc|].
    split; [now rewrite Hurl2|].
    rewrite length_app. cbn [List.length].
    split.
    + destruct Hshape as [-> | [b [-> | ->]]]; cbn [List.length]; lia.
    + intros Hv. destruct (Hone Hv) as [b ->]. cbn [List.length].
      rewrite (Hone2 Hv). reflexivity.
Qed.

(** X5.  A run of [n] consecutive calls on an initialized collector always
    completes; it keeps the entries that were there and adds at least [n]
    and at most [2 n] entries, and exactly [n] when the verbose log never
    raises. *)
Theorem measure_all_counts {U : Unicode} {E : Externals}
  (calls : list (QuerySpecification * option agent_response))
  (h : Heap) (l : list bool) :
  query_results (self h) = Some l ->
  exists bs h',
    measure_all calls h = (Ok tt, h') /\
    query_results (self h') = Some (l ++ bs) /\
    (List.length calls <= List.length bs <= 2 * List.length calls)%nat /\
    (log_verbose_never_raises -> List.length bs = List.length calls).
Proof.
  intros Hl.
  destruct (measure_all_appends calls h Hl)
    as (bs & h' & Hrun & Hres & _ & Hlen & Hone).
  exists bs, h'. repeat (split; [assumption|]). exact Hone.
Qed.

Lemma measure_all_counts_witness :
  let E := healthy (judge_says 200 solved_body) in
  let h := fresh_heap E judge_url (Some []) [] in
  let calls := [(colors_query, Some colors_answer);
                (colors_query, None)] in
  exists bs h',
    @measure_all plain_unicode E calls h = (Ok tt, h') /\
    query_results (self h') = Some ([] ++ bs) /\
    List.length bs = 2%nat.
Proof.
  intros E h calls.
  destruct (@measure_all_counts plain_unicode E calls h [] eq_refl)
    as (bs & h' & Hrun & Hres & _ & Hone).
  exists bs, h'. split; [exact Hrun|]. split; [exact Hres|].
  apply Hone. intros m w. reflexivity.
Defined.

(* ================================================================= *)
(** * Further properties: parsing and judging *)

Lemma verdict_true_iff {U : Unicode} (s : pystr) :
  verdict (PStr s) = true <->
  Substr (str "solved") (lower s) /\ ~ Substr (str "unsolved") (lower s).
Proof.
  unfold verdict. rewrite andb_true_iff, negb_true_iff.
  rewrite contains_false_not_Substr, contains_Substr.
  rewrite unsolved_strip, solved_strip. tauto.
Qed.

(** X6.  The parser answers [True] exactly for the strings whose
    lower-cased form contains "solved" and does not contain "unsolved";
    the trimming it performs has no influence on the answer. *)
Theorem parse_true_iff_solved {U : Unicode} {E : Externals}
  (s : pystr) (h h' : Heap) (b : bool) :
  parse_evaluation_result (PStr s) h = (Ok b, h') ->
  (b = true <->
   Substr (str "solved") (lower s) /\ ~ Substr (str "unsolved") (lower s)).
Proof.
  intros H. apply parse_value_is_verdict in H as [-> _].
  apply verdict_true_iff.
Qed.

Lemma parse_true_iff_solved_witness :
  let E := healthy (judge_says 200 solved_body) in
  let h := fresh_heap E judge_url (Some []) [] in
  Substr (str "solved") (@lower plain_unicode (str "  Well Solved.  ")) /\
  ~ Substr (str "unsolved") (@lower plain_unicode (str "  Well Solved.  ")).
Proof.
  intros E h.
  apply (@parse_true_iff_solved plain_unicode E (str "  Well Solved.  ") h h true).
  - vm_compute. reflexivity.
  - reflexivity.
Defined.

(** X7.  Handed a value that is not a string (a list, a dictionary, a
    number, [None]), the parser does not raise on the missing [lower]
    method: it catches the error and answers [False]; it never answers
    [True]. *)
Theorem parse_non_string {U : Unicode} {E : Externals} (v : pyval) (h : Heap) :
  is_string v = false ->
  (forall b h', parse_evaluation_result v h = (Ok b, h') -> b = false) /\
  (log_never_raises ->
   exists w', parse_evaluation_result v h
              = (Ok false, {| self := self h; world := w' |})).
Proof.
  intros Hv.
  assert (forall s, v <> PStr s) as Hns
      by (intros s ->; discriminate).
  split.
  - intros b h' H. apply parse_value_is_verdict in H as [-> _].
    destruct v; try reflexivity. discriminate.
  - intros Hlog. now apply parse_nonstr.
Qed.

Lemma parse_non_string_witness :
  let E := healthy (judge_says 200 solved_body) in
  let h := fresh_heap E judge_url (Some []) [] in
  exists w',
    @parse_evaluation_result plain_unicode E (PList [PStr (str "Solved")]) h
    = (Ok false, {| self := self h; world := w' |}).
Proof.
  intros E h.
  apply (proj2 (@parse_non_string plain_unicode E (PList [PStr (str "Solved")]) h
                  eq_refl)).
  intros m w. reflexivity.
Defined.

(** Every result the judge client returns is either a synthesized failure
    or the judged text of a 200 response. *)
Lemma evaluate_result_cases {U : Unicode} {E : Externals}
  (q answer : pystr) (h h' : Heap) (r : EvaluationResult) :
  evaluate_with_llm_judge q answer h = (Ok r, h') ->
  (exists reason, r = unsolved_result reason) \/
  (exists response w1 t,
      judge_call h q answer = (Ok response, w1) /\
      status_code response = 200%Z /\
      judge_pipeline response = Ok t /\
      r = {| evaluation := t; is_solved := verdict t |}).
Proof.
  unfold evaluate_with_llm_judge.
  match goal with
  | |- context [try_except ?b ?hd] => set (body := b); set (handler := hd)
  end.
  assert (forall e h0, handler e h0 = (Ok r, h') ->
                       exists reason, r = unsolved_result reason) as Hh.
  { intros e h0. unfold handler. cbv zeta.
    unfold bind, get_self, ext, ret. cbn [self world].
    repeat match goal with
      | |- context [log ?m ?w] =>
          destruct (log m w) as [[[]|?] ?]; cbn [self world]
      end; intros H; inversion H.
    eexists. reflexivity. }
  unfold try_except. unfold body. unfold bind at 1. unfold lift at 1.
  rewrite format_prompt.
  unfold bind at 1. unfold get_self. unfold bind at 1. unfold ext at 1.
  change (requests_post (judge_model_url (self h))
            (judge_payload (rendered_prompt q answer))
            [(str "Content-Type", str "application/json")] 30 (world h))
    with (judge_call h q answer).
  destruct (judge_call h q answer) as [[response|e] w1];
    [|intros H; left; exact (Hh _ _ H)].
  destruct (status_code response =? 200)%Z eqn:Hstatus.
  - apply Z.eqb_eq in Hstatus.
    unfold bind at 1. unfold lift at 1.
    destruct (json response) as [result|e] eqn:Hjson;
      [|intros H; left; exact (Hh _ _ H)].
    unfold bind at 1. unfold lift at 1.
    destruct (extract_generated_text result) as [g|e] eqn:Hextract;
      [|intros H; left; exact (Hh _ _ H)].
    unfold bind at 1. unfold lift at 1.
    destruct (last_evaluation g) as [t|e] eqn:Hcut;
      [|intros H; left; exact (Hh _ _ H)].
    unfold bind at 1.
    destruct (parse_evaluation_result t _) as [[b|e] h2] eqn:Hp;
      [|intros H; left; exact (Hh _ _ H)].
    unfold ret. intros H. inversion H; subst. right.
    exists response, w1, t. split; [reflexivity|]. split; [exact Hstatus|].
    split.
    + unfold judge_pipeline. rewrite Hjson, Hextract. exact Hcut.
    + now rewrite (proj1 (parse_value_is_verdict _ _ Hp)).
  - unfold bind, ext, ret. cbn [self world].
    repeat match goal with
      | |- context [log ?m ?w] =>
          destruct (log m w) as [[[]|?] ?]; cbn [self world]
      end; try (intros H; left; exact (Hh _ _ H)).
    intros H. inversion H. left. eexists. reflexivity.
Qed.

(** X8.  A solved verdict has only one source: whatever the sinks do, a
    result with [is_solved = True] comes from a response with status 200
    whose decoded and cut text is a string that, lower-cased, contains
    "solved" and not "unsolved"; that string is the evaluation of the
    result.  No failure path can report success. *)
Theorem solved_only_from_status_200 {U : Unicode} {E : Externals}
  (q answer : pystr) (h h' : Heap) (r : EvaluationResult) :
  evaluate_with_llm_judge q answer h = (Ok r, h') ->
  is_solved r = true ->
  exists response w1 s,
    judge_call h q answer = (Ok response, w1) /\
    status_code response = 200%Z /\
    judge_pipeline response = Ok (PStr s) /\
    evaluation r = PStr s /\
    Substr (str "solved") (lower s) /\
    ~ Substr (str "unsolved") (lower s).
Proof.
  intros Hev Hsolved.
  destruct (evaluate_result_cases _ _ _ Hev)
    as [[reason ->] | (response & w1 & t & Hcall & Hstatus & Hpipe & ->)].
  - discriminate Hsolved.
  - clear Hev. cbn [is_solved] in Hsolved.
    destruct t as [| | | |s| |]; try discriminate Hsolved.
    exists response, w1, s.
    split; [exact Hcall|]. split; [exact Hstatus|]. split; [exact Hpipe|].
    split; [reflexivity|]. apply verdict_true_iff. exact Hsolved.
Qed.

Lemma solved_only_from_status_200_witness :
  let E := healthy (judge_says 200 solved_body) in
  let h := fresh_heap E judge_url (Some []) [] in
  exists response w1 s,
    @judge_call E h (query colors_query) colors_answer = (Ok response, w1) /\
    status_code response = 200%Z /\
    @judge_pipeline plain_unicode response = Ok (PStr s).
Proof.
  intros E h.
  destruct (@solved_only_from_status_200 plain_unicode E
              (query colors_query) colors_answer h h
              {| evaluation := PStr (str "Answer Status: Solved" ++ nl
                                     ++ str "Reason: complete");
                 is_solved := true |})
    as (response & w1 & s & Hcall & Hstatus & Hpipe & _).
  - vm_compute. reflexivity.
  - reflexivity.
  - exists response, w1, s.
    split; [exact Hcall|]. split; [exact Hstatus|exact Hpipe].
Defined.

(** X9.  Judging, parsing and printing never modify the collector: after
    [evaluate_with_llm_judge], [parse_evaluation_result] or
    [log_judge_output], whether they returned or raised, the log and the
    judge URL are what they were. *)
Theorem judging_keeps_collector {U : Unicode} {E : Externals} (h : Heap) :
  (forall q answer,
      self (snd (evaluate_with_llm_judge q answer h)) = self h) /\
  (forall v, self (snd (parse_evaluation_result v h)) = self h) /\
  (forall q answer ev, self (snd (log_judge_output q answer ev h)) = self h).
Proof.
  split; [|split].
  - intros q answer. apply evaluate_keeps_self.
  - intros v. apply parse_keeps_self.
  - intros q answer ev. apply log_judge_output_keeps_self.
Qed.

(** X10.  A 200 response whose JSON body is [null], a boolean or a number
    is not an error for the caller: the membership test raises
    [TypeError], the handler catches it, and the result is unsolved with
    that error quoted. *)
Theorem scalar_body_is_unsolved {U : Unicode} {E : Externals}
  (Hlog : log_never_raises) (q answer : pystr) (h : Heap)
  (response : HttpResponse) (w1 : W) (v : pyval) :
  judge_call h q answer = (Ok response, w1) ->
  status_code response = 200%Z ->
  json response = Ok v ->
  is_scalar v = true ->
  exists e w',
    exn_type e = "TypeError"%string /\
    evaluate_with_llm_judge q answer h
    = (Ok {| evaluation :=
               PStr (str "Answer Status: Unsolved" ++ nl ++ str "Reason: "
                     ++ str "Error calling LLM judge model: " ++ exn_str e);
             is_solved := false |},
       {| self := self h; world := w' |}).
Proof.
  intros Hcall Hstatus Hjson Hscalar.
  destruct (evaluate_refines Hlog q answer h) as [w' Hev].
  rewrite Hcall in Hev. cbn [fst judge_outcome] in Hev.
  rewrite Hstatus in Hev. cbn [Z.eqb Pos.eqb] in Hev.
  unfold judge_pipeline in Hev. rewrite Hjson in Hev.
  exists (TypeError (str "argument of type '" ++ type_name v
                     ++ str "' is not iterable")), w'.
  split; [reflexivity|].
  rewrite Hev. clear Hev Hcall Hjson.
  destruct v; try discriminate Hscalar; reflexivity.
Qed.

Lemma scalar_body_is_unsolved_witness :
  let E := healthy (judge_says 200 PNone) in
  let h := fresh_heap E judge_url (Some []) [] in
  exists e w',
    @evaluate_with_llm_judge plain_unicode E (query colors_query) colors_answer h
    = (Ok {| evaluation :=
               PStr (str "Answer Status: Unsolved" ++ nl ++ str "Reason: "
                     ++ str "Error calling LLM judge model: " ++ exn_str e);
             is_solved := false |},
       {| self := self h; world := w' |}).
Proof.
  intros E h.
  assert (@log_never_raises E) as Hlog by (intros m w; reflexivity).
  destruct (@scalar_body_is_unsolved plain_unicode E Hlog
              (query colors_query) colors_answer h
              {| status_code := 200; text := []; json := Ok PNone |} [] PNone
              eq_refl eq_refl eq_refl eq_refl)
    as (e & w' & _ & Hev).
  exists e, w'. exact Hev.
Defined.

Lemma last_evaluation_non_string (g t : pyval) :
  is_string g = false -> last_evaluation g = Ok t -> t = g.
Proof.
  intros Hg. unfold last_evaluation.
  destruct g as [| | | |s|l|d]; cbn [py_contains py_rfind];
    try discriminate.
  - destruct (existsb _ l); [discriminate|]. intros H. now injection H.
  - destruct (dict_has d _); [discriminate|]. intros H. now injection H.
Qed.

(** X11.  When the value picked from the response is not a string (a list
    of messages, a nested object), the result is never solved, whatever
    that value contains: either the cut step or the parser fails on it and
    the failure counts as unsolved. *)
Theorem non_string_text_never_solved {U : Unicode} {E : Externals}
  (q answer : pystr) (h h' : Heap) (r : EvaluationResult)
  (response : HttpResponse) (w1 : W) (result g : pyval) :
  evaluate_with_llm_judge q answer h = (Ok r, h') ->
  judge_call h q answer = (Ok response, w1) ->
  json response = Ok result ->
  extract_generated_text result = Ok g ->
  is_string g = false ->
  is_solved r = false.
Proof.
  intros Hev Hcall Hjson Hextract Hg.
  destruct (evaluate_result_cases _ _ _ Hev)
    as [[reason ->] | (response' & w1' & t & Hcall' & _ & Hpipe & ->)];
    [reflexivity|].
  clear Hev. rewrite Hcall in Hcall'. injection Hcall' as <- _.
  unfold judge_pipeline in Hpipe. rewrite Hjson, Hextract in Hpipe.
  rewrite (last_evaluation_non_string _ Hg Hpipe). cbn [is_solved].
  destruct g; try reflexivity. discriminate Hg.
Qed.

Lemma non_string_text_never_solved_witness :
  let E := healthy (judge_says 200 list_text_body) in
  let h := fresh_heap E judge_url (Some []) [] in
  exists r h',
    @evaluate_with_llm_judge plain_unicode E (query colors_query) colors_answer h
    = (Ok r, h') /\
    is_solved r = false.
Proof.
  intros E h. eexists. eexists. split.
  - vm_compute. reflexivity.
  - eapply (@non_string_text_never_solved plain_unicode E
              (query colors_query) colors_answer h _ _
              {| status_code := 200; text := []; json := Ok list_text_body |} []
              list_text_body (PList [PStr (str "Solved")])).
    + vm_compute. reflexivity.
    + reflexivity.
    + reflexivity.
    + reflexivity.
    + reflexivity.
Defined.

Lemma contains_generated_text (s : pystr) :
  contains (str "generated_text") s = true -> contains (str "text") s = true.
Proof.
  intros H. apply contains_Substr in H as (pre & post & ->).
  apply contains_Substr. exists (pre ++ str "generated_"), post.
  rewrite <- app_assoc. reflexivity.
Qed.

(** X12.  When the JSON body is a bare string, the key tests are substring
    tests.  A string that contains none of "text", "response", "output" is
    itself taken as the generated text; a string that contains one of them
    makes the following subscript raise [TypeError], so the body is not
    read. *)
Theorem string_body_extraction {U : Unicode} (s : pystr) :
  (contains (str "text") s = false ->
   contains (str "response") s = false ->
   contains (str "output") s = false ->
   extract_generated_text (PStr s) = Ok (PStr s)) /\
  (contains (str "text") s = true \/
   contains (str "response") s = true \/
   contains (str "output") s = true ->
   exists e,
     exn_type e = "TypeError"%string /\
     extract_generated_text (PStr s) = Raise e).
Proof.
  unfold extract_generated_text. cbn [py_contains py_getitem py_str].
  split.
  - intros Ht Hr Ho.
    destruct (contains (str "generated_text") s) eqn:Hg.
    + apply contains_generated_text in Hg. congruence.
    + now rewrite Ht, Hr, Ho.
  - intros H.
    destruct (contains (str "generated_text") s); [eexists; split; [|reflexivity]; reflexivity|].
    destruct (contains (str "text") s); [eexists; split; [|reflexivity]; reflexivity|].
    destruct (contains (str "response") s); [eexists; split; [|reflexivity]; reflexivity|].
    destruct (contains (str "output") s); [eexists; split; [|reflexivity]; reflexivity|].
    destruct H as [H | [H | H]]; discriminate H.
Qed.

Lemma string_body_extraction_witness :
  @extract_generated_text plain_unicode (PStr (str "Answer Status: Solved"))
  = Ok (PStr (str "Answer Status: Solved")) /\
  exists e,
    exn_type e = "TypeError"%string /\
    @extract_generated_text plain_unicode
      (PStr (str "Solved, see the output above")) = Raise e.
Proof.
  split.
  - apply (proj1 (@string_body_extraction plain_unicode
                    (str "Answer Status: Solved")));
      reflexivity.
  - apply (proj2 (@string_body_extraction plain_unicode
                    (str "Solved, see the output above"))).
    right. right. reflexivity.
Defined.

Lemma last_occurrence_of_cut (sub t pre post : pystr) :
  LastOccurrence sub t pre post ->
  LastOccurrence sub (sub ++ post) [] post.
Proof.
  intros [Ht Hmax]. split; [reflexivity|].
  intros pre' post' H. specialize (Hmax (pre ++ pre') post').
  rewrite Ht, H, <- app_assoc in Hmax. specialize (Hmax eq_refl).
  rewrite length_app in Hmax. simpl. lia.
Qed.

(** X13.  Cutting at the last marker is idempotent and only removes a
    prefix: the cut text is a suffix of the extracted text, cutting it again
    changes nothing, and when the marker occurs the cut text begins with
    the marker and holds no later occurrence of it. *)
Theorem last_evaluation_idempotent (t : pystr) :
  exists t',
    last_evaluation (PStr t) = Ok (PStr t') /\
    last_evaluation (PStr t') = Ok (PStr t') /\
    (exists pre, t = pre ++ t') /\
    (Substr (str "Answer Status:") t ->
     exists post,
       t' = str "Answer Status:" ++ post /\
       LastOccurrence (str "Answer Status:") t' [] post).
Proof.
  set (marker := str "Answer Status:").
  rewrite last_evaluation_str. fold marker.
  destruct (contains marker t) eqn:Hc.
  - apply contains_Substr in Hc.
    destruct (Substr_has_last Hc) as (pre & post & HL).
    pose proof (last_occurrence_of_cut HL) as HL'.
    rewrite (slice_at_rfind HL).
    exists (marker ++ post). split; [reflexivity|]. split; [|split].
    + rewrite last_evaluation_str. fold marker.
      assert (contains marker (marker ++ post) = true) as ->
          by (apply contains_Substr; now exists [], post).
      now rewrite (slice_at_rfind HL').
    + exists pre. now destruct HL as [-> _].
    + intros _. now exists post.
  - exists t. split; [reflexivity|]. split; [|split].
    + rewrite last_evaluation_str. fold marker. now rewrite Hc.
    + now exists [].
    + intros Hs. apply contains_Substr in Hs. fold marker in Hs. congruence.
Qed.

Lemma last_evaluation_idempotent_witness :
  exists t' post,
    last_evaluation (PStr echoed_transcript) = Ok (PStr t') /\
    last_evaluation (PStr t') = Ok (PStr t') /\
    t' = str "Answer Status:" ++ post.
Proof.
  destruct (last_evaluation_idempotent echoed_transcript)
    as (t' & Hcut & Hagain & _ & Hmarker).
  destruct Hmarker as (post & Ht' & _).
  - exists [], (str " Solved" ++ nl ++ str "Reason: example" ++ nl
                ++ str "Answer Status: Unsolved" ++ nl
                ++ str "Reason: incomplete").
    reflexivity.
  - exists t', post. split; [exact Hcut|]. split; [exact Hagain|exact Ht'].
Defined.

(* ================================================================= *)
(** * Further properties: the reported rate *)

Lemma float_rate_perm (l1 l2 : list bool) :
  Permutation l1 l2 -> float_rate l1 = float_rate l2.
Proof.
  intros HP. destruct l1 as [|b1 l1].
  - apply Permutation_nil in HP. now subst.
  - destruct l2 as [|b2 l2].
    { apply Permutation_sym, Permutation_nil in HP. discriminate. }
    unfold float_rate.
    rewrite (Permutation_length HP).
    now rewrite (proj1 (Permutation_count_occ bool_dec _ _) HP true).
Qed.

Lemma reported_rate_value {E : Externals}
  (h : Heap) (l : list bool) (r : spec_float) :
  query_results (self h) = Some l ->
  reported_rate h = Some r -> float_rate l = Ok r.
Proof.
  intros Hl. unfold reported_rate.
  destruct (report_results h) as [[res|e] h'] eqn:Hr; [|discriminate].
  destruct (report_results_value h Hl Hr) as (rate & Hrate & -> & _).
  intros H. injection H as <-. exact Hrate.
Qed.

Lemma reported_rate_some {E : Externals}
  (Hlog : log_never_raises) (h : Heap) (l : list bool) :
  query_results (self h) = Some l ->
  exists rate w',
    float_rate l = Ok rate /\
    report_results h
    = (Ok [(str "Average Task Success (FAC Evaluator)", rate)],
       {| self := self h; world := w' |}).
Proof.
  intros Hl. destruct (float_rate_ok l) as (rate & v & Hrate & _).
  destruct (report_results_returns Hlog h Hl Hrate) as [w' Hr].
  exists rate, w'. split; [exact Hrate|exact Hr].
Qed.

(** X14.  The reported rate does not depend on the order of the log: two
    collectors whose logs hold the same entries in different orders report
    the same value. *)
Theorem reported_rate_order_independent {E : Externals}
  (h1 h2 : Heap) (l1 l2 : list bool) (r1 r2 : spec_float) :
  query_results (self h1) = Some l1 ->
  query_results (self h2) = Some l2 ->
  Permutation l1 l2 ->
  reported_rate h1 = Some r1 ->
  reported_rate h2 = Some r2 ->
  r1 = r2.
Proof.
  intros H1 H2 HP Hr1 Hr2.
  pose proof (reported_rate_value h1 H1 Hr1) as E1.
  pose proof (reported_rate_value h2 H2 Hr2) as E2.
  rewrite (float_rate_perm HP), E2 in E1. now injection E1.
Qed.

Lemma reported_rate_order_independent_witness :
  let E := healthy (judge_says 200 solved_body) in
  @reported_rate E (fresh_heap E judge_url (Some [true; false; true]) [])
  = @reported_rate E (fresh_heap E judge_url (Some [false; true; true]) []).
Proof.
  intros E.
  assert (@reported_rate E (fresh_heap E judge_url (Some [true; false; true]) [])
          = Some (S754_finite false 6004799503160661 (-53))) as H1
      by reflexivity.
  assert (@reported_rate E (fresh_heap E judge_url (Some [false; true; true]) [])
          = Some (S754_finite false 6004799503160661 (-53))) as H2
      by reflexivity.
  rewrite H1, H2. apply (f_equal Some).
  exact (@reported_rate_order_independent E
           (fresh_heap E judge_url (Some [true; false; true]) [])
           (fresh_heap E judge_url (Some [false; true; true]) [])
           [true; false; true] [false; true; true] _ _ eq_refl eq_refl
           (perm_swap false true [true]) H1 H2).
Defined.

Lemma count_occ_snoc (l : list bool) (b : bool) :
  count_occ bool_dec (l ++ [b]) true
  = (count_occ bool_dec l true + if b then 1 else 0)%nat.
Proof.
  rewrite count_occ_app. f_equal. now destruct b.
Qed.

(** Appending an entry moves the value of the float rate the way it moves
    the exact share. *)
Lemma float_rate_append (l : list bool) (b : bool) (r r' : spec_float) :
  float_rate l = Ok r ->
  float_rate (l ++ [b]) = Ok r' ->
  exists v v',
    b64_to_Q r = Some v /\ b64_to_Q r' = Some v' /\
    if b then (v <= v')%Q else (v' <= v)%Q.
Proof.
  intros Hr Hr'.
  destruct l as [|b0 l].
  - injection Hr as <-. destruct b; vm_compute in Hr'; injection Hr' as <-;
      eexists; eexists; (split; [reflexivity|split; [reflexivity|discriminate]]).
  - assert (float_rate ((b0 :: l) ++ [b])
            = py_truediv (Z.of_nat (count_occ bool_dec ((b0 :: l) ++ [b]) true))
                (Z.of_nat (List.length ((b0 :: l) ++ [b])))) as Hcons
        by reflexivity.
    rewrite Hcons in Hr'. clear Hcons. unfold float_rate in Hr.
    rewrite count_occ_snoc, length_app in Hr'.
    pose proof (count_occ_bound bool_dec true (b0 :: l)) as Hle.
    set (c := count_occ bool_dec (b0 :: l) true) in *.
    set (n := List.length (b0 :: l)) in *.
    assert (0 < n)%nat as Hn by (unfold n; simpl; lia).
    clearbody c n. cbn [List.length] in Hr'.
    apply py_truediv_value in Hr, Hr'. subst r r'.
    assert (0 <= Z.of_nat c <= Z.of_nat n)%Z as Hc by lia.
    assert (0 <= Z.of_nat (c + (if b then 1 else 0))
            <= Z.of_nat (n + 1))%Z as Hc' by (destruct b; lia).
    destruct (@truediv_ratio (Z.of_nat c) (Z.of_nat n) Hc ltac:(lia))
      as (v & Hv & _).
    destruct (@truediv_ratio (Z.of_nat (c + (if b then 1 else 0)))
                (Z.of_nat (n + 1)) Hc' ltac:(lia)) as (v' & Hv' & _).
    exists v, v'. split; [exact Hv|]. split; [exact Hv'|].
    destruct b.
    + apply (truediv_monotone Hc ltac:(lia) Hc' ltac:(lia)); [|exact Hv|exact Hv'].
      nia.
    + apply (truediv_monotone Hc' ltac:(lia) Hc ltac:(lia)); [|exact Hv'|exact Hv].
      nia.
Qed.

(** X15.  One more solved query never lowers the reported rate and one
    more unsolved query never raises it: both reports are finite floats,
    and their values are ordered as the exact shares are, since rounding
    to binary64 is monotone. *)
Theorem reported_rate_monotone {E : Externals}
  (h h' : Heap) (l : list bool) (b : bool) (r r' : spec_float) :
  query_results (self h) = Some l ->
  query_results (self h') = Some (l ++ [b]) ->
  reported_rate h = Some r ->
  reported_rate h' = Some r' ->
  exists v v',
    b64_to_Q r = Some v /\ b64_to_Q r' = Some v' /\
    if b then (v <= v')%Q else (v' <= v)%Q.
Proof.
  intros Hl Hl' Hr Hr'.
  apply (@float_rate_append l b r r').
  - exact (reported_rate_value h Hl Hr).
  - exact (reported_rate_value h' Hl' Hr').
Qed.

Lemma reported_rate_monotone_witness :
  let E := healthy (judge_says 200 solved_body) in
  exists v v',
    b64_to_Q (S754_finite false 4503599627370496 (-53)) = Some v /\
    b64_to_Q (S754_finite false 6004799503160661 (-53)) = Some v' /\
    (v <= v')%Q.
Proof.
  intros E.
  exact (@reported_rate_monotone E
           (fresh_heap E judge_url (Some [true; false]) [])
           (fresh_heap E judge_url (Some ([true; false] ++ [true])) [])
           [true; false] true
           (S754_finite false 4503599627370496 (-53))
           (S754_finite false 6004799503160661 (-53))
           eq_refl eq_refl eq_refl eq_refl).
Defined.

Lemma count_all_true (l : list bool) :
  count_occ bool_dec l true = List.length l <-> Forall (fun b => b = true) l.
Proof.
  induction l as [|b l IH]; [simpl; split; auto|].
  pose proof (count_occ_bound bool_dec true l) as Hle.
  destruct b; simpl.
  - split.
    + intros H. constructor; [reflexivity|]. apply IH. lia.
    + intros H. inversion H; subst. f_equal. now apply IH.
  - split; [lia|]. intros H. inversion H; discriminate.
Qed.

Lemma count_none_true (l : list bool) :
  count_occ bool_dec l true = 0%nat <-> Forall (fun b => b = false) l.
Proof.
  induction l as [|b l IH]; [simpl; split; auto|].
  destruct b; simpl.
  - split; [lia|]. intros H. inversion H; discriminate.
  - rewrite IH. split.
    + intros H. now constructor.
    + intros H. now inversion H.
Qed.

(** X16.  A non-empty log in which every query was solved reports the
    float 1.0, and one in which none was reports the float 0.0.  For a log
    of fewer than [2^54] entries the converse holds too: nothing but a clean
    sweep reports 1.0, and 0.0 is reported only when nothing was solved.
    (From [2^54] entries on, a single failure is lost in the rounding.) *)
Theorem reported_rate_extremes {E : Externals}
  (h : Heap) (l : list bool) (r : spec_float) :
  query_results (self h) = Some l ->
  l <> [] ->
  reported_rate h = Some r ->
  (Forall (fun b => b = true) l ->
   r = S754_finite false 4503599627370496 (-52)) /\
  (Forall (fun b => b = false) l -> r = S754_zero false) /\
  ((Z.of_nat (List.length l) < 2 ^ 54)%Z ->
   (r = S754_finite false 4503599627370496 (-52) ->
    Forall (fun b => b = true) l) /\
   (r = S754_zero false -> Forall (fun b => b = false) l)).
Proof.
  intros Hl Hne Hr.
  pose proof (reported_rate_value h Hl Hr) as Hrate.
  destruct l as [|b0 l]; [now elim Hne|]. unfold float_rate in Hrate.
  apply py_truediv_value in Hrate.
  pose proof (count_occ_bound bool_dec true (b0 :: l)) as Hle.
  assert (0 < List.length (b0 :: l))%nat as Hn by (simpl; lia).
  rewrite <- count_all_true, <- count_none_true.
  set (c := count_occ bool_dec (b0 :: l) true) in *.
  set (n := List.length (b0 :: l)) in *. clearbody c n. subst r.
  split; [|split].
  - intros ->. destruct n as [|n]; [lia|]. apply truediv_one.
  - intros ->. destruct n as [|n]; [lia|]. reflexivity.
  - intros Hbound.
    destruct (@truediv_extremes (Z.of_nat c) (Z.of_nat n)
                ltac:(lia) ltac:(lia)) as [H1 H0].
    split; intros H.
    + apply H1 in H. lia.
    + apply H0 in H. lia.
Qed.

Lemma reported_rate_extremes_witness :
  let E := healthy (judge_says 200 solved_body) in
  Forall (fun b => b = true) [true; true] /\
  Forall (fun b => b = false) [false; false].
Proof.
  intros E. split.
  - exact (proj1 (proj2 (proj2
             (@reported_rate_extremes E
                (fresh_heap E judge_url (Some [true; true]) [])
                [true; true] (S754_finite false 4503599627370496 (-52))
                eq_refl ltac:(discriminate) eq_refl))
             eq_refl) eq_refl).
  - exact (proj2 (proj2 (proj2
             (@reported_rate_extremes E
                (fresh_heap E judge_url (Some [false; false]) [])
                [false; false] (S754_zero false)
                eq_refl ltac:(discriminate) eq_refl))
             eq_refl) eq_refl).
Defined.

(** X17.  [report_results] only reads: with a working log sink it can be
    called again and returns the same dictionary, and the log it read is
    still there afterwards. *)
Theorem report_results_repeatable {E : Externals}
  (Hlog : log_never_raises) (h : Heap) (l : list bool) :
  query_results (self h) = Some l ->
  exists res h1 h2,
    report_results h = (Ok res, h1) /\
    report_results h1 = (Ok res, h2) /\
    query_results (self h2) = Some l.
Proof.
  intros Hl.
  destruct (float_rate_ok l) as (rate & v & Hrate & _).
  destruct (report_results_returns Hlog h Hl Hrate) as [w1 H1].
  destruct (report_results_returns Hlog {| self := self h; world := w1 |}
              Hl Hrate) as [w2 H2].
  eexists. eexists. eexists. split; [exact H1|]. split; [exact H2|exact Hl].
Qed.

Lemma report_results_repeatable_witness :
  let E := healthy (judge_says 200 solved_body) in
  let h := fresh_heap E judge_url (Some [true; false]) [] in
  exists res h1 h2,
    @report_results E h = (Ok res, h1) /\
    @report_results E h1 = (Ok res, h2) /\
    query_results (self h2) = Some [true; false].
Proof.
  intros E h.
  assert (@log_never_raises E) as Hlog by (intros m w; reflexivity).
  exact (@report_results_repeatable E Hlog h [true; false] eq_refl).
Defined.

(** X18.  [set_up] starts a new run: when the base class returns, the log
    is empty whatever it held before and the URL is kept, so a report taken
    right away is zero; when the base class raises, the exception leaves
    [set_up] and the log is not touched. *)
Theorem set_up_starts_empty {E : Externals} (h : Heap) :
  (forall w1,
      base_set_up (world h) = (Ok tt, w1) ->
      set_up h
      = (Ok tt, {| self := {| query_results := Some [];
                              judge_model_url := judge_model_url (self h) |};
                   world := w1 |}) /\
      (log_never_raises ->
       exists w2,
         bind set_up (fun _ => report_results) h
         = (Ok [(str "Average Task Success (FAC Evaluator)", S754_zero false)],
            {| self := {| query_results := Some [];
                          judge_model_url := judge_model_url (self h) |};
               world := w2 |}))) /\
  (forall e w1,
      base_set_up (world h) = (Raise e, w1) ->
      set_up h = (Raise e, {| self := self h; world := w1 |})).
Proof.
  split.
  - intros w1 Hbase.
    assert (set_up h
            = (Ok tt, {| self := {| query_results := Some [];
                                    judge_model_url := judge_model_url (self h) |};
                         world := w1 |})) as Hset.
    { unfold set_up, bind, ext, set_query_results. now rewrite Hbase. }
    split; [exact Hset|].
    intros Hlog. unfold bind at 1. rewrite Hset.
    destruct (@report_results_returns E Hlog
                {| self := {| query_results := Some [];
                              judge_model_url := judge_model_url (self h) |};
                   world := w1 |} [] (S754_zero false) eq_refl eq_refl)
      as [w2 Hr].
    exists w2. exact Hr.
  - intros e w1 Hbase. unfold set_up, bind, ext. now rewrite Hbase.
Qed.

Lemma set_up_starts_empty_witness :
  let E := healthy (judge_says 200 solved_body) in
  let h := fresh_heap E judge_url (Some [true; true; false]) [] in
  @set_up E h
  = (Ok tt, {| self := {| query_results := Some [];
                          judge_model_url := judge_model_url (self h) |};
               world := [] |}).
Proof.
  intros E h.
  exact (proj1 (proj1 (@set_up_starts_empty E h) [] eq_refl)).
Defined.

(** X20.  The names [get_collected_metrics_names] announces are exactly the
    keys of the dictionary [report_results] returns, in the same order. *)
Theorem report_keys_are_announced_names {E : Externals}
  (h h' : Heap) (res : list (pystr * spec_float)) :
  report_results h = (Ok res, h') ->
  map fst res = get_collected_metrics_names.
Proof.
  intros Hr.
  destruct (query_results (self h)) as [l|] eqn:Hl.
  - now destruct (report_results_value h Hl Hr) as (rate & _ & -> & _).
  - unfold report_results in Hr. unfold bind at 1 in Hr. unfold get_self in Hr.
    rewrite Hl in Hr. discriminate Hr.
Qed.

Lemma report_keys_are_announced_names_witness :
  let E := healthy (judge_says 200 solved_body) in
  let h := fresh_heap E judge_url (Some [true]) [] in
  map fst (match fst (@report_results E h) with
           | Ok res => res
           | Raise _ => []
           end)
  = get_collected_metrics_names.
Proof.
  intros E h.
  apply (@report_keys_are_announced_names E h
           (snd (@report_results E h))).
  reflexivity.
Defined.

(** X21.  With working sinks, when the answer can be extracted and
    stripped, one call records exactly one entry: the verdict the judge
    client owes for the query of the specification and the stripped answer.
    A transport failure or a status other than 200 therefore records
    [False]. *)
Theorem register_measurement_records_verdict {U : Unicode} {E : Externals}
  (Hlog : log_never_raises) (Hv : log_verbose_never_raises)
  (query_spec : QuerySpecification) (response : option agent_response)
  (h : Heap) (l : list bool) (fa fa' : pystr) (w0 w1 : W) :
  query_results (self h) = Some l ->
  extract_final_answer_from_response response (world h) = (Ok fa, w0) ->
  strip_think fa w0 = (Ok fa', w1) ->
  exists h',
    register_measurement query_spec response h = (Ok tt, h') /\
    query_results (self h')
    = Some (l ++ [is_solved
                    (judge_outcome
                       (fst (judge_call {| self := self h; world := w1 |}
                               (query query_spec) fa')))]) /\
    judge_model_url (self h') = judge_model_url (self h).
Proof.
  intros Hl Hx Hs. unfold register_measurement. cbv zeta. unfold try_except.
  unfold bind at 1. unfold ext at 1. rewrite Hx.
  unfold bind at 1. unfold ext at 1. cbn [world self]. rewrite Hs.
  unfold bind at 1.
  destruct (evaluate_refines Hlog (query query_spec) fa'
              {| self := self h; world := w1 |}) as [w2 Hev].
  rewrite Hev. cbn [self world].
  set (r := judge_outcome _).
  unfold bind at 1.
  rewrite (@append_initialized _ (is_solved r) _ l) by exact Hl.
  cbn [self world judge_model_url].
  match goal with
  | |- context [bind (ext (log_verbose ?m)) ?k ?h0] =>
      destruct (after_append_returns Hv (query query_spec) fa'
                  (if is_solved r then str "✅" else str "❌")
                  (evaluation r) h0) as [w3 Hrest]
  end.
  rewrite Hrest. eexists. split; [reflexivity|]. split; reflexivity.
Qed.

Lemma register_measurement_records_verdict_witness :
  let E := healthy (judge_says 200 solved_body) in
  let h := fresh_heap E judge_url (Some []) [] in
  exists h',
    @register_measurement plain_unicode E colors_query (Some colors_answer) h
    = (Ok tt, h') /\
    query_results (self h') = Some [true].
Proof.
  intros E h.
  assert (@log_never_raises E) as Hlog by (intros m w; reflexivity).
  assert (@log_verbose_never_raises E) as Hv by (intros m w; reflexivity).
  destruct (@register_measurement_records_verdict plain_unicode E Hlog Hv
              colors_query (Some colors_answer) h [] colors_answer
              colors_answer [] [] eq_refl eq_refl eq_refl)
    as (h' & Hrun & Hres & _).
  exists h'. split; [exact Hrun|]. rewrite Hres. vm_compute. reflexivity.
Defined.
